(** * The streaming continuation controller of the chat endpoint

    A shallow embedding of

    - [~/lib/.server/llm/stream-text]: the directive parser
      ([extractModelFromMessage]) and the routing of one provider call
      ([streamText]);
    - [~/utils/constants]: the model registry ([staticModels],
      [MODEL_LIST], [initializeModelList], [DEFAULT_MODEL],
      [DEFAULT_PROVIDER]) and the discovery of local models
      ([getOllamaBaseUrl], [getOllamaModels], [getOpenAILikeModels]);
    - [~/lib/.server/llm/api-key]: [getAPIKey] and [getBaseURL];
    - [~/lib/.server/llm/model]: [getModel] and the client factories;
    - [~/lib/.server/llm/constants]: [MAX_TOKENS] and
      [MAX_RESPONSE_SEGMENTS];
    - [~/lib/.server/llm/switchable-stream]: the [SwitchableStream] class
      ([switchSource], [_pumpStream], [close]);
    - the chat route: [chatAction] and its [onFinish] callback.

    The event loop is single-threaded: code runs to completion between
    two [await]s. The model cuts the asynchronous functions at the
    [await]s where something else can happen in between, and a schedule, a
    list of events, says in which order the pieces run: the pump's pending
    read settles, the loop of the pump runs on with what the read gave,
    the consumer of the response reads, the SDK reports the
    completion of a segment, the call awaited by [onFinish] settles. *)

From stdpp Require Import base option list strings gmap.
From Stdlib Require Import NArith Lia.

Open Scope list_scope.

(** ** JavaScript strings

    A JavaScript string is a sequence of 16-bit code units. The literals
    of the source are all ASCII and are written with [js]. *)

Definition jsstring := list N.

Definition js (s : string) : jsstring :=
  map Ascii.N_of_ascii (String.list_ascii_of_string s).

(** The empty string is the only falsy string. *)
Definition truthy (s : jsstring) : bool :=
  match s with [] => false | _ :: _ => true end.

Definition LF : N := 10.
Definition CR : N := 13.
Definition LS : N := 8232.
Definition PS : N := 8233.

(** The characters the regular-expression atom [.] refuses (without the
    [s] flag): the four line terminators. *)
Definition isLineTerminator (c : N) : bool :=
  (c =? LF)%N || (c =? CR)%N || (c =? LS)%N || (c =? PS)%N.

(** ** The directive pattern [/^\[Model: (.*?)\]\n\n/] *)

(** A literal piece of a pattern, matched at the head of [s]: the rest of
    [s] behind it. *)
Fixpoint matchLiteral (lit s : jsstring) : option jsstring :=
  match lit with
  | [] => Some s
  | a :: lit' =>
      match s with
      | [] => None
      | b :: s' => if (a =? b)%N then matchLiteral lit' s' else None
      end
  end.

(** [(.*?)] followed by the literal [close]: the lazy star first tries the
    rest of the pattern and takes one more character only when that fails.
    The result is the capture and what is left behind the whole match. *)
Fixpoint lazyDotStar (close s : jsstring) : option (jsstring * jsstring) :=
  match matchLiteral close s with
  | Some rest => Some ([], rest)
  | None =>
      match s with
      | [] => None
      | c :: s' =>
          if isLineTerminator c then None
          else match lazyDotStar close s' with
               | Some (cap, rest) => Some (c :: cap, rest)
               | None => None
               end
      end
  end.

Definition directiveOpen : jsstring := js "[Model: ".
Definition directiveClose : jsstring := js "]" ++ [LF; LF].

(** [content.match(modelRegex)]: [None] for [null], otherwise the first
    capture group together with the text behind the match. The pattern is
    anchored, so the match, when there is one, starts at index 0, and
    [content.replace(modelRegex, '')] is the text behind it. *)
Definition modelRegex (s : jsstring) : option (jsstring * jsstring) :=
  match matchLiteral directiveOpen s with
  | Some s' => lazyDotStar directiveClose s'
  | None => None
  end.

(** ** Messages *)

Inductive Role := system | user | assistant | tool.

Inductive Part :=
| TextPart (text : jsstring)
| ImagePart (image : jsstring).

(** The content of a [CoreMessage] is a string or an array of parts. *)
Inductive Content :=
| Str (s : jsstring)
| Parts (ps : list Part).

Record CoreMessage := { role : Role; content : Content }.

Definition Messages := list CoreMessage.

#[global] Instance Role_eq_dec : EqDecision Role.
Proof. solve_decision. Defined.

(** ** The model registry *)

Record ModelInfo := { name : jsstring; label : jsstring; provider : jsstring }.

Definition DEFAULT_MODEL : jsstring := js "claude-3-5-sonnet-20240620".
Definition DEFAULT_PROVIDER : jsstring := js "Anthropic".

Definition mk (n l p : string) : ModelInfo :=
  {| name := js n; label := js l; provider := js p |}.

Definition staticModels : list ModelInfo :=
  [ mk "claude-3-5-sonnet-20240620" "Claude 3.5 Sonnet" "Anthropic";
    mk "gpt-4o" "GPT-4o" "OpenAI";
    mk "anthropic/claude-3.5-sonnet" "Anthropic: Claude 3.5 Sonnet (OpenRouter)" "OpenRouter";
    mk "anthropic/claude-3-haiku" "Anthropic: Claude 3 Haiku (OpenRouter)" "OpenRouter";
    mk "deepseek/deepseek-coder" "Deepseek-Coder V2 236B (OpenRouter)" "OpenRouter";
    mk "google/gemini-flash-1.5" "Google Gemini Flash 1.5 (OpenRouter)" "OpenRouter";
    mk "google/gemini-pro-1.5" "Google Gemini Pro 1.5 (OpenRouter)" "OpenRouter";
    mk "x-ai/grok-beta" "xAI Grok Beta (OpenRouter)" "OpenRouter";
    mk "mistralai/mistral-nemo" "OpenRouter Mistral Nemo (OpenRouter)" "OpenRouter";
    mk "qwen/qwen-110b-chat" "OpenRouter Qwen 110b Chat (OpenRouter)" "OpenRouter";
    mk "cohere/command" "Cohere Command (OpenRouter)" "OpenRouter";
    mk "gemini-1.5-flash-latest" "Gemini 1.5 Flash" "Google";
    mk "gemini-1.5-pro-latest" "Gemini 1.5 Pro" "Google";
    mk "llama-3.1-70b-versatile" "Llama 3.1 70b (Groq)" "Groq";
    mk "llama-3.1-8b-instant" "Llama 3.1 8b (Groq)" "Groq";
    mk "llama-3.2-11b-vision-preview" "Llama 3.2 11b (Groq)" "Groq";
    mk "llama-3.2-3b-preview" "Llama 3.2 3b (Groq)" "Groq";
    mk "llama-3.2-1b-preview" "Llama 3.2 1b (Groq)" "Groq";
    mk "claude-3-opus-20240229" "Claude 3 Opus" "Anthropic";
    mk "claude-3-sonnet-20240229" "Claude 3 Sonnet" "Anthropic";
    mk "claude-3-haiku-20240307" "Claude 3 Haiku" "Anthropic";
    mk "gpt-4o-mini" "GPT-4o Mini" "OpenAI";
    mk "gpt-4-turbo" "GPT-4 Turbo" "OpenAI";
    mk "gpt-4" "GPT-4" "OpenAI";
    mk "gpt-3.5-turbo" "GPT-3.5 Turbo" "OpenAI";
    mk "grok-beta" "xAI Grok Beta" "xAI";
    mk "deepseek-coder" "Deepseek-Coder" "Deepseek";
    mk "deepseek-chat" "Deepseek-Chat" "Deepseek";
    mk "open-mistral-7b" "Mistral 7B" "Mistral";
    mk "open-mixtral-8x7b" "Mistral 8x7B" "Mistral";
    mk "open-mixtral-8x22b" "Mistral 8x22B" "Mistral";
    mk "open-codestral-mamba" "Codestral Mamba" "Mistral";
    mk "open-mistral-nemo" "Mistral Nemo" "Mistral";
    mk "ministral-8b-latest" "Mistral 8B" "Mistral";
    mk "mistral-small-latest" "Mistral Small" "Mistral";
    mk "codestral-latest" "Codestral" "Mistral";
    mk "mistral-large-latest" "Mistral Large Latest" "Mistral" ].

(** [MODEL_LIST] is a module variable: it starts as a copy of
    [staticModels], and [initializeModelList] replaces it by the models the
    local services report, put in front of the static ones. The functions
    that read it take its current value as an argument. *)
Definition initializeModelList (ollamaModels openAiLikeModels : list ModelInfo)
  : list ModelInfo :=
  ollamaModels ++ openAiLikeModels ++ staticModels.

(** [MODEL_LIST.find((m) => m.name === model)] *)
Definition findModel (MODEL_LIST : list ModelInfo) (model : jsstring)
  : option ModelInfo :=
  List.find (fun m => bool_decide (name m = model)) MODEL_LIST.

(** ** [extractModelFromMessage] *)

Definition extractModelFromMessage (message : CoreMessage) : jsstring * jsstring :=
  match content message with
  | Parts _ => (DEFAULT_MODEL, [])
  | Str s =>
      match modelRegex s with
      | Some (model, content) => (model, content)
      | None => (DEFAULT_MODEL, s)
      end
  end.

(** ** [streamText] *)

Definition MAX_TOKENS : N := 8000.
Definition MAX_RESPONSE_SEGMENTS : nat := 2.

(** The callback of [messages.map]: the new value of [currentModel] and
    the processed message. *)
Definition processMessage (MODEL_LIST : list ModelInfo) (currentModel : jsstring)
    (message : CoreMessage) : jsstring * CoreMessage :=
  match role message with
  | user =>
      let '(model, content) := extractModelFromMessage message in
      let currentModel' :=
        if truthy model && bool_decide (is_Some (findModel MODEL_LIST model))
        then model else currentModel in
      (currentModel', {| role := role message; content := Str content |})
  | _ => (currentModel, message)
  end.

Fixpoint mapMessages (MODEL_LIST : list ModelInfo) (currentModel : jsstring)
    (messages : Messages) : jsstring * Messages :=
  match messages with
  | [] => (currentModel, [])
  | message :: rest =>
      let '(currentModel1, message') := processMessage MODEL_LIST currentModel message in
      let '(currentModel2, rest') := mapMessages MODEL_LIST currentModel1 rest in
      (currentModel2, message' :: rest')
  end.

(** [MODEL_LIST.find(...)?.provider || DEFAULT_PROVIDER] *)
Definition providerOf (MODEL_LIST : list ModelInfo) (currentModel : jsstring) : jsstring :=
  match findModel MODEL_LIST currentModel with
  | Some m => if truthy (provider m) then provider m else DEFAULT_PROVIDER
  | None => DEFAULT_PROVIDER
  end.

(** What [streamText] hands to the SDK's [_streamText]: the provider and
    the model given to [getModel], the token limit and the messages. The
    system prompt is a constant. *)
Record ProviderCall := {
  callProvider : jsstring;
  callModel : jsstring;
  callMaxTokens : N;
  callMessages : Messages
}.

(** [StreamingOptions]: the options of the caller, spread behind the
    properties [streamText] sets itself. The type leaves out [model],
    [messages] and [system]; of the others [maxTokens] is one
    [streamText] sets. [toolChoice] and [onFinish] are passed on as they
    are; [onFinish] is modelled with [chatAction] below. *)
Record StreamingOptions := { maxTokens : option N }.

(** [convertToCoreMessages] is a function of the SDK and a parameter
    here. *)
Definition streamText (convertToCoreMessages : Messages -> Messages)
    (MODEL_LIST : list ModelInfo) (options : StreamingOptions) (messages : Messages)
  : ProviderCall :=
  let '(currentModel, processedMessages) := mapMessages MODEL_LIST DEFAULT_MODEL messages in
  {| callProvider := providerOf MODEL_LIST currentModel;
     callModel := currentModel;
     callMaxTokens := default MAX_TOKENS (maxTokens options);
     callMessages := convertToCoreMessages processedMessages |}.

Definition userText (s : jsstring) : CoreMessage := {| role := user; content := Str s |}.
Definition assistantText (s : jsstring) : CoreMessage := {| role := assistant; content := Str s |}.

(** ** Completions, and a state monad with exceptions

    A piece of JavaScript either completes normally or throws; either way
    it may have changed the heap before. *)

Inductive JsError :=
| Error (message : string)
| TypeError (message : string).

#[global] Instance JsError_eq_dec : EqDecision JsError.
Proof. solve_decision. Defined.

Inductive Completion (A : Type) :=
| Normal (a : A)
| Throws (e : JsError).
Arguments Normal {A} a.
Arguments Throws {A} e.

Definition M (S A : Type) : Type := S -> Completion A * S.

#[global] Instance M_ret {S} : MRet (M S) := fun A a s => (Normal a, s).
#[global] Instance M_bind {S} : MBind (M S) := fun A B k c s =>
  match c s with
  | (Normal a, s') => k a s'
  | (Throws e, s') => (Throws e, s')
  end.

Definition throw {S A} (e : JsError) : M S A := fun s => (Throws e, s).
Definition gets {S A} (f : S -> A) : M S A := fun s => (Normal (f s), s).
Definition modify {S} (f : S -> S) : M S unit := fun s => (Normal (), f s).

(** [try { c } catch (error) { h error }] *)
Definition tryCatch {S A} (c : M S A) (h : JsError -> M S A) : M S A := fun s =>
  match c s with
  | (Normal a, s') => (Normal a, s')
  | (Throws e, s') => h e s'
  end.

(** A promise, once settled. [await] throws the reason of a rejected
    one; a promise that nobody awaits is dropped with [ignore]. *)
Inductive Settled (A : Type) :=
| Resolved (a : A)
| Rejected (e : JsError).
Arguments Resolved {A} a.
Arguments Rejected {A} e.

Definition await {S A} (p : M S (Settled A)) : M S A :=
  r ← p; match r with Resolved a => mret a | Rejected e => throw e end.

Definition ignore {S A} (p : M S A) : M S unit := fun s => (Normal (), snd (p s)).

(** ** The platform's streams

    The part of the Streams API the repository uses: a reader's [read] and
    [cancel], a stream's [getReader], and the [enqueue], [error] and
    [terminate] of the controller of a [TransformStream]. *)

Definition chunk := jsstring.

Inductive StreamState :=
| readable
| closed
| errored (e : JsError).

#[global] Instance StreamState_eq_dec : EqDecision StreamState.
Proof. solve_decision. Defined.

(** What a source does once the chunks it holds are read: nothing yet (a
    read stays pending), end of stream, or an error. *)
Inductive Ending :=
| staysOpen
| ends
| fails (e : JsError).

(** A source stream. [queued] are the chunks it holds, in the order it
    produced them; [cancelAlgorithm] is what the underlying source's
    cancel does: [None] when it succeeds, the error when it throws. *)
Record ReadableStream := {
  queued : list chunk;
  ending : Ending;
  state : StreamState;
  locked : bool;
  cancelAlgorithm : option JsError
}.

(** The readable side of the [TransformStream], seen from its controller:
    the chunks the consumer has read, the chunks enqueued and not yet read,
    and the state. *)
Record Controller := {
  delivered : list chunk;
  queue : list chunk;
  closeRequested : bool;
  readableState : StreamState
}.

(** What a [read()] gives: a chunk, the end of the stream, a rejection,
    or nothing yet. *)
Inductive ReadResult :=
| value (v : chunk)
| done
| rejected (e : JsError)
| pending.

(** Where the latest call of [_pumpStream] stands: it has returned, or
    none was made; it is in its loop and awaits [read()]; the read has
    settled with [r] and the loop has not run on yet. *)
Inductive PumpState :=
| idle
| reading
| holds (r : ReadResult).

(** The heap: the source streams, by identity, and the fields of the one
    [SwitchableStream] instance of a request. [pumping] is no field of the
    class: it is the state of the loop of the latest call of
    [_pumpStream]. An earlier call whose stream has been canceled since
    only finds [done] and returns. *)
Record Heap := {
  streams : list ReadableStream;
  _controller : option Controller;
  _currentReader : option nat;
  _switches : nat;
  pumping : PumpState
}.

Definition setStreams (f : list ReadableStream -> list ReadableStream) (h : Heap) : Heap :=
  {| streams := f (streams h); _controller := _controller h;
     _currentReader := _currentReader h; _switches := _switches h; pumping := pumping h |}.
Definition setController (c : option Controller) (h : Heap) : Heap :=
  {| streams := streams h; _controller := c;
     _currentReader := _currentReader h; _switches := _switches h; pumping := pumping h |}.
Definition setCurrentReader (r : option nat) (h : Heap) : Heap :=
  {| streams := streams h; _controller := _controller h;
     _currentReader := r; _switches := _switches h; pumping := pumping h |}.
Definition setSwitches (n : nat) (h : Heap) : Heap :=
  {| streams := streams h; _controller := _controller h;
     _currentReader := _currentReader h; _switches := n; pumping := pumping h |}.
Definition setPumping (b : PumpState) (h : Heap) : Heap :=
  {| streams := streams h; _controller := _controller h;
     _currentReader := _currentReader h; _switches := _switches h; pumping := b |}.

Definition released : JsError := TypeError "This reader has been released".

(** *** Readers *)

Definition readStream (st : ReadableStream) : ReadResult * ReadableStream :=
  match state st with
  | closed => (done, st)
  | errored e => (rejected e, st)
  | readable =>
      match queued st with
      | v :: q =>
          (value v, {| queued := q; ending := ending st; state := readable;
                       locked := locked st; cancelAlgorithm := cancelAlgorithm st |})
      | [] =>
          match ending st with
          | staysOpen => (pending, st)
          | ends =>
              (done, {| queued := []; ending := ends; state := closed;
                        locked := locked st; cancelAlgorithm := cancelAlgorithm st |})
          | fails e =>
              (rejected e, {| queued := []; ending := fails e; state := errored e;
                              locked := locked st; cancelAlgorithm := cancelAlgorithm st |})
          end
      end
  end.

(** [reader.cancel()]: a closed stream resolves, an errored one rejects
    with its stored error, a readable one is closed, loses the chunks it
    holds and settles as the underlying cancel does. *)
Definition cancelStream (st : ReadableStream) : Settled unit * ReadableStream :=
  match state st with
  | closed => (Resolved (), st)
  | errored e => (Rejected e, st)
  | readable =>
      (match cancelAlgorithm st with None => Resolved () | Some e => Rejected e end,
       {| queued := []; ending := ending st; state := closed;
          locked := locked st; cancelAlgorithm := cancelAlgorithm st |})
  end.

Definition read (reader : nat) : M Heap ReadResult := fun h =>
  match streams h !! reader with
  | Some st =>
      let '(r, st') := readStream st in
      (Normal r, setStreams (fun l => <[reader := st']> l) h)
  | None => (Normal (rejected released), h)
  end.

Definition cancel (reader : nat) : M Heap (Settled unit) := fun h =>
  match streams h !! reader with
  | Some st =>
      let '(r, st') := cancelStream st in
      (Normal r, setStreams (fun l => <[reader := st']> l) h)
  | None => (Normal (Rejected released), h)
  end.

(** [stream.getReader()] locks the stream and throws on a locked one. *)
Definition getReader (stream : nat) : M Heap nat := fun h =>
  match streams h !! stream with
  | Some st =>
      if locked st then (Throws (TypeError "ReadableStream is locked"), h)
      else (Normal stream,
            setStreams (fun l => <[stream :=
              {| queued := queued st; ending := ending st; state := state st;
                 locked := true; cancelAlgorithm := cancelAlgorithm st |}]> l) h)
  | None => (Throws (TypeError "not a ReadableStream"), h)
  end.

(** *** The controller *)

Definition canCloseOrEnqueue (c : Controller) : bool :=
  negb (closeRequested c) && bool_decide (readableState c = readable).

Definition enqueueChunk (v : chunk) (c : Controller) : Controller :=
  {| delivered := delivered c; queue := queue c ++ [v];
     closeRequested := closeRequested c; readableState := readableState c |}.

(** [controller.terminate()] closes the readable side: at once when
    nothing is queued, after the queued chunks otherwise. A second call
    changes nothing. *)
Definition terminateController (c : Controller) : Controller :=
  if canCloseOrEnqueue c then
    {| delivered := delivered c; queue := queue c; closeRequested := true;
       readableState := match queue c with [] => closed | _ :: _ => readable end |}
  else c.

(** [controller.error(e)] errors a readable stream and drops what is
    queued; on a closed or errored stream it does nothing. *)
Definition errorController (e : JsError) (c : Controller) : Controller :=
  match readableState c with
  | readable =>
      {| delivered := delivered c; queue := []; closeRequested := closeRequested c;
         readableState := errored e |}
  | _ => c
  end.

(** The consumer takes the next chunk of the readable side. *)
Definition consumerRead (c : Controller) : Controller :=
  match queue c with
  | v :: q =>
      {| delivered := delivered c ++ [v]; queue := q; closeRequested := closeRequested c;
         readableState :=
           match q with
           | [] => if closeRequested c then closed else readableState c
           | _ :: _ => readableState c
           end |}
  | [] => c
  end.

Definition nullController : JsError :=
  TypeError "Cannot read properties of null".

(** [this._controller.enqueue(value)] *)
Definition enqueue (v : chunk) : M Heap unit := fun h =>
  match _controller h with
  | Some c =>
      if canCloseOrEnqueue c then (Normal (), setController (Some (enqueueChunk v c)) h)
      else (Throws (TypeError "Readable side is not in a state that permits enqueue"), h)
  | None => (Throws nullController, h)
  end.

(** [this._controller.error(error)] *)
Definition error (e : JsError) : M Heap unit := fun h =>
  match _controller h with
  | Some c => (Normal (), setController (Some (errorController e c)) h)
  | None => (Throws nullController, h)
  end.

(** [this._controller?.terminate()] *)
Definition terminate : M Heap unit :=
  modify (fun h => setController (terminateController <$> _controller h) h).

(** ** [SwitchableStream] *)

(** The constructor: the controller captured from [start], no reader, no
    switches. *)
Definition newController : Controller :=
  {| delivered := []; queue := []; closeRequested := false; readableState := readable |}.

Definition newSwitchableStream : Heap :=
  {| streams := [];
     _controller := Some newController;
     _currentReader := None;
     _switches := 0;
     pumping := idle |}.

(** [_pumpStream], up to the first [await] of its loop: the
    initialization check and the first [read()]. *)
Definition _pumpStream : M Heap unit := fun h =>
  match _currentReader h, _controller h with
  | Some _, Some _ => (Normal (), setPumping reading h)
  | _, _ => (Throws (Error "Stream is not properly initialized"), h)
  end.

(** The [await this._currentReader.read()] of the loop: the pending read
    settles, when the stream has something to give, and the loop holds the
    result until it runs on. The reader is the one the field holds. *)
Definition pumpRead : M Heap unit := fun h =>
  match pumping h with
  | reading =>
      match _currentReader h with
      | Some reader =>
          match read reader h with
          | (Normal pending, h') => (Normal (), h')
          | (Normal r, h') => (Normal (), setPumping (holds r) h')
          | (Throws e, h') => (Normal (), setPumping (holds (rejected e)) h')
          end
      | None => (Normal (), setPumping (holds (rejected nullController)) h)
      end
  | _ => (Normal (), h)
  end.

(** The loop of [_pumpStream] runs on from the settled read to its next
    [await], inside the [try] of the method: a chunk is enqueued and the
    next [read()] made, [done] leaves the loop, and whatever is thrown
    goes to [controller.error] and ends the method. *)
Definition pumpTurn : M Heap unit := fun h =>
  match pumping h with
  | holds r =>
      tryCatch
        (match r with
         | value v => enqueue v;; modify (setPumping reading)
         | done => modify (setPumping idle)
         | rejected e => throw e
         | pending => modify (setPumping reading)
         end)
        (fun e => modify (setPumping idle);; error e) h
  | _ => (Normal (), h)
  end.

Definition switchSource (newStream : nat) : M Heap unit :=
  cur ← gets _currentReader;
  match cur with
  | Some reader => await (cancel reader)
  | None => mret ()
  end;;
  reader ← getReader newStream;
  modify (setCurrentReader (Some reader));;
  ignore _pumpStream;;
  modify (fun h => setSwitches (S (_switches h)) h).

Definition close : M Heap unit :=
  cur ← gets _currentReader;
  match cur with
  | Some reader => ignore (cancel reader)
  | None => mret ()
  end;;
  terminate.

Definition switches : M Heap nat := gets _switches.

(** ** [chatAction] *)

Inductive FinishReason :=
| reason_stop
| reason_length
| reason_content_filter
| reason_tool_calls
| reason_error
| reason_other
| reason_unknown.

#[global] Instance FinishReason_eq_dec : EqDecision FinishReason.
Proof. solve_decision. Defined.

(** What one provider call yields: the chunks of its stream, in order,
    each carrying one piece of the generated text, and the finish reason
    the SDK reports to [onFinish]. *)
Record Response := { chunks : list chunk; finishReason : FinishReason }.

(** The [text] the SDK passes to [onFinish]. *)
Definition text (r : Response) : jsstring := concat (chunks r).

Inductive CallResult :=
| responds (r : Response)
| callFails (e : JsError).

Definition Provider := ProviderCall -> CallResult.

(** [result.toAIStream()]: a new source stream holding the chunks of the
    response. The SDK calls [onFinish] from the stream, so the stream does
    not end while [onFinish] runs: when [onFinish] returns it has been
    canceled by [close] or [switchSource], which the SDK does without
    error, and when [onFinish] throws the SDK errors it, see
    [errorSource]. *)
Definition toAIStream (r : Response) : M Heap nat := fun h =>
  (Normal (length (streams h)),
   setStreams (fun l => l ++ [ {| queued := chunks r; ending := staysOpen;
                                  state := readable; locked := false;
                                  cancelAlgorithm := None |} ]) h).

(** What the SDK does with the stream of a segment when the [onFinish]
    of the segment throws [e]: it errors the stream with [e]. A stream
    that was readable loses the chunks it still holds, and a [read()]
    rejects with [e] from then on; a stream that is closed or errored
    stays as it is. The stream is the one of the current reader. *)
Definition errorStream (e : JsError) (st : ReadableStream) : ReadableStream :=
  match state st with
  | readable =>
      {| queued := []; ending := ending st; state := errored e;
         locked := locked st; cancelAlgorithm := cancelAlgorithm st |}
  | _ => st
  end.

Definition errorSource (e : JsError) (h : Heap) : Heap :=
  match _currentReader h with
  | Some reader =>
      match streams h !! reader with
      | Some st => setStreams (fun l => <[reader := errorStream e st]> l) h
      | None => h
      end
  | None => h
  end.

(** Where a session stands: a segment streams and the SDK has not yet
    called [onFinish] for it; [onFinish] awaits the continuation call;
    [onFinish] has closed the stream; [onFinish] has thrown [e]. *)
Inductive Phase :=
| Streaming (current : Response)
| Continuing (next : CallResult)
| Done
| Failed (e : JsError).

(** A continuation session: the [messages] array of the request, the heap
    with the [SwitchableStream], the provider calls made so far, the
    responses whose streams were attached (the segments), and where the
    session stands. *)
Record Session := {
  messages : Messages;
  heap : Heap;
  calls : list ProviderCall;
  segments : list Response;
  phase : Phase
}.

Definition capError : JsError :=
  Error "Cannot continue message: Maximum segments reached".

Inductive HttpResponse :=
| streamingResponse (s : Session)
| internalServerError.

Inductive Event :=
| PumpRead
| PumpTurn
| ConsumerRead
| Finish
| Resume.

Section ChatAction.

(** The SDK's [convertToCoreMessages], the current [MODEL_LIST], the
    continuation instruction of [prompts.ts] and the provider behind the
    SDK. *)
Variable convertToCoreMessages : Messages -> Messages.
Variable MODEL_LIST : list ModelInfo.
Variable CONTINUE_PROMPT : jsstring.
Variable provider_ : Provider.

(** The options [chatAction] gives to every call: [toolChoice: 'none']
    and [onFinish]. *)
Definition chatOptions : StreamingOptions := {| maxTokens := None |}.

(** [onFinish] has thrown [e]: the session has failed, and the SDK
    errors the stream of the segment. *)
Definition onFinishThrows (s : Session) (e : JsError) (h : Heap) : Session :=
  {| messages := messages s; heap := errorSource e h; calls := calls s;
     segments := segments s; phase := Failed e |}.

(** [onFinish], up to its [await streamText(...)]. *)
Definition onFinish (s : Session) (content : jsstring) (reason : FinishReason) : Session :=
  if negb (bool_decide (reason = reason_length)) then
    match close (heap s) with
    | (Normal _, h) =>
        {| messages := messages s; heap := h; calls := calls s;
           segments := segments s; phase := Done |}
    | (Throws e, h) => onFinishThrows s e h
    end
  else if bool_decide (MAX_RESPONSE_SEGMENTS <= _switches (heap s)) then
    onFinishThrows s capError (heap s)
  else
    let messages' :=
      messages s ++ [assistantText content; userText CONTINUE_PROMPT] in
    let call := streamText convertToCoreMessages MODEL_LIST chatOptions messages' in
    {| messages := messages'; heap := heap s; calls := calls s ++ [call];
       segments := segments s; phase := Continuing (provider_ call) |}.

(** [onFinish], from the point where the awaited call has settled:
    [stream.switchSource(result.toAIStream())]. While [switchSource]
    awaits the cancellation, the loop of the pump runs on when its read
    had settled before: its job stands earlier in the queue than the rest
    of [switchSource]. The turn of the loop touches the controller and the
    cancellation the stream, so the model lets the turn come first. *)
Definition onFinishResume (s : Session) (next : CallResult) : Session :=
  match next with
  | callFails e => onFinishThrows s e (heap s)
  | responds r =>
      match (ignore pumpTurn;; stream ← toAIStream r; switchSource stream) (heap s) with
      | (Normal _, h) =>
          {| messages := messages s; heap := h; calls := calls s;
             segments := segments s ++ [r]; phase := Streaming r |}
      | (Throws e, h) => onFinishThrows s e h
      end
  end.

(** [chatAction], up to the response it returns. The first
    [switchSource] is not awaited. *)
Definition chatAction (messages : Messages) : HttpResponse :=
  let call := streamText convertToCoreMessages MODEL_LIST chatOptions messages in
  match provider_ call with
  | callFails _ => internalServerError
  | responds r =>
      let h := snd ((stream ← toAIStream r; switchSource stream) newSwitchableStream) in
      streamingResponse
        {| messages := messages; heap := h; calls := [call];
           segments := [r]; phase := Streaming r |}
  end.

(** What happens next: the pump's read settles, the loop of the pump runs
    on from the settled read, the consumer reads, the SDK calls [onFinish]
    for the segment that streams, or the call awaited by [onFinish]
    settles. The SDK calls [onFinish] when the provider has produced the
    whole response, whether the pump has read all the chunks of the
    stream or not. *)
Definition step (s : Session) (ev : Event) : Session :=
  match ev with
  | PumpRead =>
      {| messages := messages s; heap := snd (pumpRead (heap s));
         calls := calls s; segments := segments s; phase := phase s |}
  | PumpTurn =>
      {| messages := messages s; heap := snd (pumpTurn (heap s));
         calls := calls s; segments := segments s; phase := phase s |}
  | ConsumerRead =>
      {| messages := messages s;
         heap := setController (consumerRead <$> _controller (heap s)) (heap s);
         calls := calls s; segments := segments s; phase := phase s |}
  | Finish =>
      match phase s with
      | Streaming r => onFinish s (text r) (finishReason r)
      | _ => s
      end
  | Resume =>
      match phase s with
      | Continuing next => onFinishResume s next
      | _ => s
      end
  end.

Definition run (s : Session) (schedule : list Event) : Session :=
  fold_left step schedule s.

Definition session (messages : Messages) (schedule : list Event) : option Session :=
  match chatAction messages with
  | streamingResponse s => Some (run s schedule)
  | internalServerError => None
  end.

End ChatAction.

(** What the caller of the response can see of the body: the chunks read
    and those still to read. *)
Definition output (h : Heap) : list chunk :=
  match _controller h with
  | Some c => delivered c ++ queue c
  | None => []
  end.

(** ** Environments, [getAPIKey] and [getBaseURL]

    [process.env], the Cloudflare environment and [import.meta.env] are
    maps from variable names to strings; a variable that is not set reads
    as [undefined]. *)

(** [a ?? b] *)
Definition nullish {A} (a b : option A) : option A :=
  match a with
  | Some x => Some x
  | None => b
  end.

(** [a || b] on strings that may be undefined: the empty string is falsy
    too. *)
Definition orElse (a : option jsstring) (b : jsstring) : jsstring :=
  match a with
  | Some x => if truthy x then x else b
  | None => b
  end.

(** [s.replace(pattern, replacement)] with a string pattern: the first
    occurrence only. The replacements of the source hold no [$]. *)
Fixpoint replaceFirst (pattern replacement s : jsstring) : jsstring :=
  match matchLiteral pattern s with
  | Some rest => replacement ++ rest
  | None =>
      match s with
      | [] => []
      | c :: s' => c :: replaceFirst pattern replacement s'
      end
  end.

Definition getAPIKey (env cloudflareEnv : gmap string jsstring) (provider : jsstring)
  : option jsstring :=
  if bool_decide (provider = js "Anthropic") then
    nullish (env !! "ANTHROPIC_API_KEY") (cloudflareEnv !! "ANTHROPIC_API_KEY")
  else if bool_decide (provider = js "OpenAI") then
    nullish (env !! "OPENAI_API_KEY") (cloudflareEnv !! "OPENAI_API_KEY")
  else if bool_decide (provider = js "Google") then
    nullish (env !! "GOOGLE_GENERATIVE_AI_API_KEY")
      (cloudflareEnv !! "GOOGLE_GENERATIVE_AI_API_KEY")
  else if bool_decide (provider = js "Groq") then
    nullish (env !! "GROQ_API_KEY") (cloudflareEnv !! "GROQ_API_KEY")
  else if bool_decide (provider = js "OpenRouter") then
    nullish (env !! "OPEN_ROUTER_API_KEY") (cloudflareEnv !! "OPEN_ROUTER_API_KEY")
  else if bool_decide (provider = js "Deepseek") then
    nullish (env !! "DEEPSEEK_API_KEY") (cloudflareEnv !! "DEEPSEEK_API_KEY")
  else if bool_decide (provider = js "Mistral") then
    nullish (env !! "MISTRAL_API_KEY") (cloudflareEnv !! "MISTRAL_API_KEY")
  else if bool_decide (provider = js "OpenAILike") then
    nullish (env !! "OPENAI_LIKE_API_KEY") (cloudflareEnv !! "OPENAI_LIKE_API_KEY")
  else if bool_decide (provider = js "xAI") then
    nullish (env !! "XAI_API_KEY") (cloudflareEnv !! "XAI_API_KEY")
  else None.

Definition ollamaDefaultBaseUrl : jsstring := js "http://localhost:11434".

Definition getBaseURL (env cloudflareEnv : gmap string jsstring) (provider : jsstring)
  : jsstring :=
  if bool_decide (provider = js "OpenAILike") then
    default [] (nullish (env !! "OPENAI_LIKE_API_BASE_URL")
                  (cloudflareEnv !! "OPENAI_LIKE_API_BASE_URL"))
  else if bool_decide (provider = js "Ollama") then
    let baseUrl :=
      default ollamaDefaultBaseUrl
        (nullish (env !! "OLLAMA_API_BASE_URL") (cloudflareEnv !! "OLLAMA_API_BASE_URL")) in
    if bool_decide (env !! "RUNNING_IN_DOCKER" = Some (js "true")) then
      replaceFirst (js "localhost") (js "host.docker.internal") baseUrl
    else baseUrl
  else [].

(** ** [getModel] and the clients it makes

    The factories of the SDKs are seen by what they are given: which
    client, which key, which base URL, which model. *)

Inductive Client :=
| anthropic
| openai
| google
| mistral
| openRouter
| ollama.

#[global] Instance Client_eq_dec : EqDecision Client.
Proof. solve_decision. Defined.

Record LanguageModel := {
  client : Client;
  apiKey : option jsstring;
  baseURL : option jsstring;
  modelId : jsstring
}.

Definition getAnthropicModel (apiKey model : jsstring) : LanguageModel :=
  {| client := anthropic; apiKey := Some apiKey; baseURL := None; modelId := model |}.

Definition getOpenAILikeModel (baseURL apiKey model : jsstring) : LanguageModel :=
  {| client := openai; apiKey := Some apiKey; baseURL := Some baseURL; modelId := model |}.

Definition getOpenAIModel (apiKey model : jsstring) : LanguageModel :=
  {| client := openai; apiKey := Some apiKey; baseURL := None; modelId := model |}.

Definition getMistralModel (apiKey model : jsstring) : LanguageModel :=
  {| client := mistral; apiKey := Some apiKey; baseURL := None; modelId := model |}.

Definition getGoogleModel (apiKey model : jsstring) : LanguageModel :=
  {| client := google; apiKey := Some apiKey; baseURL := None; modelId := model |}.

Definition getGroqModel (apiKey model : jsstring) : LanguageModel :=
  {| client := openai; apiKey := Some apiKey;
     baseURL := Some (js "https://api.groq.com/openai/v1"); modelId := model |}.

(** The Ollama client takes no key; its base URL is [`${baseURL}/api`]. *)
Definition getOllamaModel (baseURL model : jsstring) : LanguageModel :=
  {| client := ollama; apiKey := None; baseURL := Some (baseURL ++ js "/api");
     modelId := model |}.

Definition getDeepseekModel (apiKey model : jsstring) : LanguageModel :=
  {| client := openai; apiKey := Some apiKey;
     baseURL := Some (js "https://api.deepseek.com/beta"); modelId := model |}.

Definition getOpenRouterModel (apiKey model : jsstring) : LanguageModel :=
  {| client := openRouter; apiKey := Some apiKey; baseURL := None; modelId := model |}.

Definition getXAIModel (apiKey model : jsstring) : LanguageModel :=
  {| client := openai; apiKey := Some apiKey;
     baseURL := Some (js "https://api.x.ai/v1"); modelId := model |}.

Definition getModel (env cloudflareEnv : gmap string jsstring) (provider model : jsstring)
  : LanguageModel :=
  let apiKey := default [] (getAPIKey env cloudflareEnv provider) in
  let baseURL := getBaseURL env cloudflareEnv provider in
  if bool_decide (provider = js "Anthropic") then getAnthropicModel apiKey model
  else if bool_decide (provider = js "OpenAI") then getOpenAIModel apiKey model
  else if bool_decide (provider = js "Groq") then getGroqModel apiKey model
  else if bool_decide (provider = js "OpenRouter") then getOpenRouterModel apiKey model
  else if bool_decide (provider = js "Google") then getGoogleModel apiKey model
  else if bool_decide (provider = js "OpenAILike") then getOpenAILikeModel baseURL apiKey model
  else if bool_decide (provider = js "Deepseek") then getDeepseekModel apiKey model
  else if bool_decide (provider = js "Mistral") then getMistralModel apiKey model
  else if bool_decide (provider = js "xAI") then getXAIModel apiKey model
  else getOllamaModel baseURL model.

(** The model [streamText] gives to the SDK:
    [getModel(provider, currentModel, env)]. *)
Definition modelOfCall (env cloudflareEnv : gmap string jsstring) (call : ProviderCall)
  : LanguageModel :=
  getModel env cloudflareEnv (callProvider call) (callModel call).

(** ** The discovery of local models

    [fetch] and the parsing of its answer are seen by their outcome: the
    list the answer holds, or nothing when anything inside the [try]
    throws (no connection, no JSON, a missing field). *)

Record OllamaModel := { ollamaName : jsstring; parameter_size : jsstring }.

(** [getOllamaBaseUrl]: [hasWindow] says that the code runs in a browser. *)
Definition getOllamaBaseUrl (importMetaEnv env : gmap string jsstring) (hasWindow : bool)
  : jsstring :=
  let defaultBaseUrl := orElse (importMetaEnv !! "OLLAMA_API_BASE_URL") ollamaDefaultBaseUrl in
  if hasWindow then defaultBaseUrl
  else if bool_decide (env !! "RUNNING_IN_DOCKER" = Some (js "true")) then
    replaceFirst (js "localhost") (js "host.docker.internal") defaultBaseUrl
  else defaultBaseUrl.

Definition ollamaModelInfo (model : OllamaModel) : ModelInfo :=
  {| name := ollamaName model;
     label := ollamaName model ++ js " (" ++ parameter_size model ++ js ")";
     provider := js "Ollama" |}.

Definition getOllamaModels (fetchTags : jsstring -> option (list OllamaModel))
    (importMetaEnv env : gmap string jsstring) (hasWindow : bool) : list ModelInfo :=
  let base_url := getOllamaBaseUrl importMetaEnv env hasWindow in
  match fetchTags (base_url ++ js "/api/tags") with
  | Some models => map ollamaModelInfo models
  | None => []
  end.

Definition openAILikeModelInfo (id : jsstring) : ModelInfo :=
  {| name := id; label := id; provider := js "OpenAILike" |}.

(** [fetchModels url authorization] *)
Definition getOpenAILikeModels (fetchModels : jsstring -> jsstring -> option (list jsstring))
    (importMetaEnv : gmap string jsstring) : list ModelInfo :=
  let base_url := orElse (importMetaEnv !! "OPENAI_LIKE_API_BASE_URL") [] in
  if negb (truthy base_url) then []
  else
    let api_key := default [] (importMetaEnv !! "OPENAI_LIKE_API_KEY") in
    match fetchModels (base_url ++ js "/models") (js "Bearer " ++ api_key) with
    | Some ids => map openAILikeModelInfo ids
    | None => []
    end.

(** The value [initializeModelList] gives to [MODEL_LIST], from the
    answers of the two services. *)
Definition initializedModelList (fetchTags : jsstring -> option (list OllamaModel))
    (fetchModels : jsstring -> jsstring -> option (list jsstring))
    (importMetaEnv env : gmap string jsstring) (hasWindow : bool) : list ModelInfo :=
  initializeModelList
    (getOllamaModels fetchTags importMetaEnv env hasWindow)
    (getOpenAILikeModels fetchModels importMetaEnv).

(** ** Vocabulary of the statements *)

Definition noLineTerminator (X : jsstring) : Prop :=
  Forall (fun c => isLineTerminator c = false) X.

(** The text [[Model: X]], a blank line, and [rest]. *)
Definition withDirective (X rest : jsstring) : jsstring :=
  directiveOpen ++ X ++ directiveClose ++ rest.

(** A message carries a directive when its content is a string that
    starts with [[Model: X]] and a blank line, for an identifier [X] on one
    line. *)
Definition carriesDirective (m : CoreMessage) : Prop :=
  exists X rest, noLineTerminator X /\ content m = Str (withDirective X rest).

(** [m] is the latest user turn of [pre ++ m :: post]. *)
Definition latestUserTurn (m : CoreMessage) (post : Messages) : Prop :=
  role m = user /\ Forall (fun x => role x <> user) post.

(** [X] names a model of the list. *)
Definition knownModel (MODEL_LIST : list ModelInfo) (X : jsstring) : Prop :=
  exists m, In m MODEL_LIST /\ name m = X.

(** The model the turns of [messages] select: the value of [currentModel]
    behind the [map] of [streamText]. *)
Definition resolvedModel (MODEL_LIST : list ModelInfo) (messages : Messages) : jsstring :=
  fst (mapMessages MODEL_LIST DEFAULT_MODEL messages).

(** No model that a local service reports has the name [X]. *)
Definition notShadowed (discovered : list ModelInfo) (X : jsstring) : Prop :=
  Forall (fun m => name m <> X) discovered.

(** The heap behind the [cancel] of the current reader, when there is one. *)
Definition afterCancel (h : Heap) : Heap :=
  match _currentReader h with
  | Some reader =>
      match streams h !! reader with
      | Some st => setStreams (fun l => <[reader := snd (cancelStream st)]> l) h
      | None => h
      end
  | None => h
  end.

(** The consumer reads [n] times; [consumeAll]: until nothing is queued. *)
Fixpoint consume (n : nat) (c : Controller) : Controller :=
  match n with
  | 0 => c
  | S n' => consume n' (consumerRead c)
  end.

Definition consumeAll (c : Controller) : Controller := consume (length (queue c)) c.

(** The heap of a running session: the streams of the earlier segments,
    the stream [st] of the current one, which the reader holds, the
    controller [c] and the state of the loop of the pump; every attached
    stream counted one switch. *)
Definition sessionHeap (sts : list ReadableStream) (st : ReadableStream)
    (c : Controller) (pump : PumpState) : Heap :=
  {| streams := sts ++ [st];
     _controller := Some c;
     _currentReader := Some (length sts);
     _switches := S (length sts);
     pumping := pump |}.

(** A stream of the SDK that a reader holds and that still has the chunks
    [q] to give; [aiStream r]: the stream [toAIStream] makes for a
    response, just attached; [canceledSource]: such a stream, canceled;
    [erroredSource e]: such a stream, errored by the SDK. *)
Definition openSource (q : list chunk) : ReadableStream :=
  {| queued := q; ending := staysOpen; state := readable;
     locked := true; cancelAlgorithm := None |}.

Definition aiStream (r : Response) : ReadableStream := openSource (chunks r).

Definition canceledSource : ReadableStream :=
  {| queued := []; ending := staysOpen; state := closed;
     locked := true; cancelAlgorithm := None |}.

Definition erroredSource (e : JsError) : ReadableStream :=
  {| queued := []; ending := staysOpen; state := errored e;
     locked := true; cancelAlgorithm := None |}.

(** The chunk the loop of the pump has read and not yet enqueued. *)
Definition held (pump : PumpState) : list chunk :=
  match pump with
  | holds (value v) => [v]
  | _ => []
  end.

(** The controller once the loop of the pump has run on with what it
    held, the controller being open. *)
Definition afterTurn (pump : PumpState) (c : Controller) : Controller :=
  match pump with
  | holds (value v) => enqueueChunk v c
  | _ => c
  end.

(** The loop of the pump while a segment streams: it awaits a read or
    holds a chunk. *)
Definition pumpOn (pump : PumpState) : Prop :=
  pump = reading \/ exists v, pump = holds (value v).

(** The readable side against the chunks [enqueued] on it so far: what
    the consumer has read and what is queued is a prefix of them, all of
    them unless the readable side is errored, which has emptied the
    queue. *)
Definition outputInv (c : Controller) (enqueued : list chunk) : Prop :=
  delivered c ++ queue c `prefix_of` enqueued /\
  ((forall e, readableState c <> errored e) -> delivered c ++ queue c = enqueued) /\
  (forall e, readableState c = errored e -> queue c = []).

(** Where the session stands, told by its phase: the calls and the
    segments, [r] being the response of the current segment. *)
Definition countInv (provider_ : Provider) (s : Session) (r : Response) : Prop :=
  match phase s with
  | Streaming r' =>
      r' = r /\ length (calls s) = length (segments s)
  | Continuing next =>
      length (calls s) = S (length (segments s)) /\
      length (segments s) < MAX_RESPONSE_SEGMENTS /\
      (exists call, last (calls s) = Some call /\ next = provider_ call) /\
      finishReason r = reason_length
  | Done =>
      finishReason r <> reason_length /\ length (calls s) = length (segments s)
  | Failed e =>
      finishReason r = reason_length /\
      ((e = capError /\ length (segments s) = MAX_RESPONSE_SEGMENTS /\
        length (calls s) = MAX_RESPONSE_SEGMENTS) \/
       (exists call, last (calls s) = Some call /\ provider_ call = callFails e /\
          length (calls s) = S (length (segments s)) /\
          length (segments s) < MAX_RESPONSE_SEGMENTS))
  end.

(** The stream [st] of the current segment, the controller [c] and the
    loop of the pump, by the phase: while [onFinish] has not returned the
    stream is open and the controller too; [close] has canceled the stream
    and terminated the controller; the SDK has errored the stream with
    what [onFinish] threw, and the readable side is errored once the loop
    of the pump has passed the rejection on. *)
Definition heapInv (ph : Phase) (st : ReadableStream) (c : Controller)
    (pump : PumpState) : Prop :=
  match ph with
  | Streaming _ | Continuing _ =>
      canCloseOrEnqueue c = true /\ st = openSource (queued st) /\ pumpOn pump
  | Done =>
      closeRequested c = true /\ st = canceledSource /\
      (forall e, pump <> holds (rejected e))
  | Failed e =>
      st = erroredSource e /\ closeRequested c = false /\
      ((readableState c = readable /\ (pumpOn pump \/ pump = holds (rejected e))) \/
       (readableState c = errored e /\ pump = idle))
  end.

(** The invariant of a session. The chunks enqueued on the readable side
    are those read from the streams of the earlier segments, [ps], and
    from the current one, [p]; what was read from a stream, what the pump
    holds and what the stream still holds is a prefix of what its response
    produced. *)
Inductive SessionInv (provider_ : Provider) (s : Session) : Prop :=
| session_inv (sts : list ReadableStream) (st : ReadableStream) (c : Controller)
    (pump : PumpState) (segs : list Response) (r : Response)
    (ps : list (list chunk)) (p tail : list chunk) :
    heap s = sessionHeap sts st c pump ->
    segments s = segs ++ [r] ->
    length segs = length sts ->
    Forall2 prefix ps (chunks <$> segs) ->
    outputInv c (concat ps ++ p) ->
    p ++ held pump ++ queued st ++ tail = chunks r ->
    (state st = readable -> tail = []) ->
    length (segments s) <= MAX_RESPONSE_SEGMENTS ->
    Forall (fun r' => exists call, In call (calls s) /\ provider_ call = responds r')
      (segments s) ->
    countInv provider_ s r ->
    heapInv (phase s) st c pump ->
    SessionInv provider_ s.

(** A provider that answers every call with a response cut by the token
    limit, with some text. *)
Definition alwaysLength (provider_ : Provider) : Prop :=
  forall call, exists r,
    provider_ call = responds r /\ finishReason r = reason_length /\ text r <> [].

(** The SDK reports the completion of the current segment and the awaited
    call settles, as often as there can be segments. *)
Definition completions : list Event :=
  concat (replicate MAX_RESPONSE_SEGMENTS [Finish; Resume]).

(** The (provider, model) pair of a call. *)
Definition route (call : ProviderCall) : jsstring * jsstring :=
  (callProvider call, callModel call).

(** The chunks the consumer has read. *)
Definition deliveredOf (h : Heap) : list chunk :=
  match _controller h with
  | Some c => delivered c
  | None => []
  end.

(** Modelled from the spec: the continuation instruction text of
    [~/lib/.server/llm/prompts], which is not among the sources: a fixed,
    human-readable string that tells the model to continue exactly where
    it left off. The functions above take the instruction as a parameter;
    this text serves the examples, and all that matters of it is that it
    starts with no directive. *)
Definition continuePrompt : jsstring :=
  js "Continue your prior response. Immediately begin from where you left off.".

(** A provider whose every response is cut by the token limit. *)
Definition truncating : Provider :=
  fun _ => responds {| chunks := [js "a"]; finishReason := reason_length |}.

(** The provider names that [getAPIKey] and [getModel] have a case for. *)
Definition apiProviders : list jsstring :=
  [ js "Anthropic"; js "OpenAI"; js "Google"; js "Groq"; js "OpenRouter";
    js "Deepseek"; js "Mistral"; js "OpenAILike"; js "xAI" ].

(** [pattern] occurs in [s] at index [i]. *)
Definition occursAt (pattern s : jsstring) (i : nat) : Prop :=
  pattern `prefix_of` drop i s.

(** The Ollama base URL that the environments configure for the server
    side: [process.env] first, then the Cloudflare environment, then the
    default. *)
Definition configuredOllamaUrl (env cloudflareEnv : gmap string jsstring) : jsstring :=
  default ollamaDefaultBaseUrl
    (nullish (env !! "OLLAMA_API_BASE_URL") (cloudflareEnv !! "OLLAMA_API_BASE_URL")).

(** What the code around a [SwitchableStream] can do with it, in any
    order: a source stream comes into being, unlocked; a stream is given
    to [switchSource], and the call is awaited before the next one;
    [close] is called; meanwhile the pending read of the pump settles,
    the loop of the pump runs on and the consumer reads. The orders of
    the event loop are among these sequences: there a loop that holds a
    settled read runs on before an awaited [switchSource] continues. *)
Inductive Op :=
| NewSource (q : list chunk) (e : Ending) (s : StreamState) (ca : option JsError)
| SwitchSource (stream : nat)
| Close
| PumpSettles
| PumpRuns
| Consume.

Definition exec (h : Heap) (op : Op) : Heap :=
  match op with
  | NewSource q e s ca =>
      setStreams (fun l => l ++ [ {| queued := q; ending := e; state := s;
                                     locked := false; cancelAlgorithm := ca |} ]) h
  | SwitchSource stream => snd (switchSource stream h)
  | Close => snd (close h)
  | PumpSettles => snd (pumpRead h)
  | PumpRuns => snd (pumpTurn h)
  | Consume => setController (consumerRead <$> _controller h) h
  end.

Definition execAll (ops : list Op) : Heap := fold_left exec ops newSwitchableStream.

(** The stream [ns] once [getReader] has locked it. *)
Definition lockedStream (ns : ReadableStream) : ReadableStream :=
  {| queued := queued ns; ending := ending ns; state := state ns;
     locked := true; cancelAlgorithm := cancelAlgorithm ns |}.

(** The invariant of the heap of a [SwitchableStream]: the controller is
    there; the counter is the number of streams the instance has locked;
    the reader, when there is one, holds a locked stream, and without a
    reader nothing was switched and no pump runs; a locked stream that is
    still readable is the reader's. *)
Definition wellFormed (h : Heap) : Prop :=
  is_Some (_controller h) /\
  _switches h = length (List.filter locked (streams h)) /\
  match _currentReader h with
  | Some reader => exists st, streams h !! reader = Some st /\ locked st = true
  | None => _switches h = 0 /\ pumping h = idle
  end /\
  (forall i st, streams h !! i = Some st -> locked st = true -> state st = readable ->
     _currentReader h = Some i).

(** The error of [enqueue] on a readable side that is closing or closed. *)
Definition enqueueError : JsError :=
  TypeError "Readable side is not in a state that permits enqueue".

(** The two turns [onFinish] pushes onto [messages] for a segment that the
    token limit has cut: the whole text of the segment, as the
    assistant's, and the continuation instruction, as the user's. *)
Definition continuation (CONTINUE_PROMPT : jsstring) (r : Response) : Messages :=
  [assistantText (text r); userText CONTINUE_PROMPT].

(** The conversation after the first [n] of the segments [segs] were
    continued. *)
Definition history (CONTINUE_PROMPT : jsstring) (conversation : Messages)
    (segs : list Response) (n : nat) : Messages :=
  conversation ++ flat_map (continuation CONTINUE_PROMPT) (take n segs).

(** The chunks the stream of the current reader still holds. *)
Definition unread (h : Heap) : list chunk :=
  match _currentReader h with
  | Some reader =>
      match streams h !! reader with
      | Some st => queued st
      | None => []
      end
  | None => []
  end.

(** The pump keeps up with the provider along a schedule: whenever the SDK
    reports a completion, and whenever an awaited call settles, the pump
    has read all that the current stream held and has enqueued what it
    read. *)
Fixpoint pumpKeepsUp (convertToCoreMessages : Messages -> Messages)
    (MODEL_LIST : list ModelInfo) (CONTINUE_PROMPT : jsstring)
    (provider_ : Provider) (s : Session) (schedule : list Event) : Prop :=
  match schedule with
  | [] => True
  | ev :: rest =>
      (ev = Finish \/ ev = Resume ->
       unread (heap s) = [] /\ held (pumping (heap s)) = []) /\
      pumpKeepsUp convertToCoreMessages MODEL_LIST CONTINUE_PROMPT provider_
        (step convertToCoreMessages MODEL_LIST CONTINUE_PROMPT provider_ s ev) rest
  end.

#[global] Instance Event_eq_dec : EqDecision Event.
Proof. solve_decision. Defined.

(** The [processedMessages] of [streamText]: the turns as they are given
    to [convertToCoreMessages]. *)
Definition processedMessages (MODEL_LIST : list ModelInfo) (messages : Messages) : Messages :=
  snd (mapMessages MODEL_LIST DEFAULT_MODEL messages).

(** The user turns of a list of messages, in order. *)
Definition userTurns (l : Messages) : Messages :=
  List.filter (fun m => bool_decide (role m = user)) l.

(** A conversion that passes the user turns on as they are, whatever it
    does with the others. *)
Definition keepsUserTurns (convert : Messages -> Messages) : Prop :=
  forall l, userTurns (convert l) = userTurns l.

(** A conversion for the examples: it passes the system, user and
    assistant turns on as they are and leaves the tool turns out. *)
Definition dropToolTurns (l : Messages) : Messages :=
  List.filter (fun m => negb (bool_decide (role m = tool))) l.

(** * Properties *)

(** ** The directive pattern *)

Lemma matchLiteral_app lit s : matchLiteral lit (lit ++ s) = Some s.
Proof.
  induction lit as [|a lit IH]; simpl; [done|].
  by rewrite N.eqb_refl.
Qed.

Lemma matchLiteral_inv lit s r : matchLiteral lit s = Some r -> s = lit ++ r.
Proof.
  revert s. induction lit as [|a lit IH]; intros s; simpl.
  - by intros [= ->].
  - destruct s as [|b s]; [done|].
    destruct (N.eqb_spec a b) as [->|]; [|done].
    intros H. by rewrite (IH _ H).
Qed.

Lemma isLineTerminator_LF c : isLineTerminator c = false -> c <> LF.
Proof.
  intros H ->. by vm_compute in H.
Qed.

(** Behind a character that is no line terminator the closing literal
    cannot start before the identifier ends. *)
Lemma close_not_inside c X rest :
  noLineTerminator (c :: X) ->
  matchLiteral directiveClose (c :: X ++ directiveClose ++ rest) = None.
Proof.
  intros HX. apply Forall_cons in HX as [Hc HX].
  change directiveClose with [93%N; LF; LF]. cbn [matchLiteral app].
  destruct (N.eqb_spec 93 c) as [<-|]; [|done].
  destruct X as [|d X]; cbn [matchLiteral app]; [reflexivity|].
  apply Forall_cons in HX as [Hd _]. apply isLineTerminator_LF in Hd.
  by destruct (N.eqb_spec LF d) as [<-|].
Qed.

Lemma lazyDotStar_capture X rest :
  noLineTerminator X ->
  lazyDotStar directiveClose (X ++ directiveClose ++ rest) = Some (X, rest).
Proof.
  induction X as [|c X IH]; intros HX.
  - destruct rest; reflexivity.
  - cbn [lazyDotStar app]. rewrite (close_not_inside c X rest HX).
    apply Forall_cons in HX as [Hc HX].
    rewrite Hc, (IH HX). done.
Qed.

Lemma lazyDotStar_inv close s X rest :
  lazyDotStar close s = Some (X, rest) ->
  s = X ++ close ++ rest /\ noLineTerminator X.
Proof.
  revert X. induction s as [|c s IH]; intros X; cbn [lazyDotStar].
  - destruct (matchLiteral close []) eqn:E; [|done].
    intros [= <- <-]. apply matchLiteral_inv in E. split; [done|constructor].
  - destruct (matchLiteral close (c :: s)) eqn:E.
    + intros [= <- <-]. apply matchLiteral_inv in E. split; [done|constructor].
    + destruct (isLineTerminator c) eqn:Hc; [done|].
      destruct (lazyDotStar close s) as [[cap r]|] eqn:E'; [|done].
      intros [= <- <-]. destruct (IH _ eq_refl) as [-> HX].
      split; [done|by constructor].
Qed.

Lemma modelRegex_directive X rest :
  noLineTerminator X -> modelRegex (withDirective X rest) = Some (X, rest).
Proof.
  intros HX. unfold modelRegex, withDirective.
  rewrite matchLiteral_app. by apply lazyDotStar_capture.
Qed.

Lemma modelRegex_inv s X rest :
  modelRegex s = Some (X, rest) -> s = withDirective X rest /\ noLineTerminator X.
Proof.
  unfold modelRegex, withDirective.
  destruct (matchLiteral directiveOpen s) as [s'|] eqn:E; [|done].
  apply matchLiteral_inv in E as ->.
  intros [-> HX]%lazyDotStar_inv. done.
Qed.

(** The pattern matches exactly the strings that start with a directive. *)
Lemma modelRegex_None s :
  modelRegex s = None <-> ~ exists X rest, noLineTerminator X /\ s = withDirective X rest.
Proof.
  split.
  - intros H (X & rest & HX & ->). by rewrite modelRegex_directive in H.
  - intros H. destruct (modelRegex s) as [[X rest]|] eqn:E; [|done].
    destruct H. apply modelRegex_inv in E as [-> HX]. eauto.
Qed.

Lemma extract_directive r X rest :
  noLineTerminator X ->
  extractModelFromMessage {| role := r; content := Str (withDirective X rest) |} = (X, rest).
Proof.
  intros HX. unfold extractModelFromMessage. simpl. by rewrite modelRegex_directive.
Qed.

Lemma extract_no_directive m :
  ~ carriesDirective m -> fst (extractModelFromMessage m) = DEFAULT_MODEL.
Proof.
  intros H. unfold extractModelFromMessage.
  destruct (content m) as [s|ps] eqn:Hm; [|done].
  destruct (modelRegex s) as [[X rest]|] eqn:E; [|done].
  destruct H. apply modelRegex_inv in E as [-> HX]. by exists X, rest.
Qed.

(** ** Routing *)

Lemma findModel_app l1 l2 X :
  findModel (l1 ++ l2) X =
  match findModel l1 X with Some m => Some m | None => findModel l2 X end.
Proof.
  unfold findModel. induction l1 as [|m l1 IH]; simpl; [done|].
  by destruct (bool_decide (name m = X)).
Qed.

Lemma findModel_known MODEL_LIST X :
  is_Some (findModel MODEL_LIST X) <-> knownModel MODEL_LIST X.
Proof.
  unfold findModel, knownModel. split.
  - intros [m Hm]. apply find_some in Hm as [Hin Hn].
    apply bool_decide_eq_true in Hn. eauto.
  - intros (m & Hin & Hn).
    destruct (find _ MODEL_LIST) eqn:E; [by eexists|].
    eapply find_none in E; [|exact Hin].
    apply bool_decide_eq_false in E. done.
Qed.

Lemma findModel_not_shadowed discovered l X :
  notShadowed discovered X -> findModel (discovered ++ l) X = findModel l X.
Proof.
  intros H. rewrite findModel_app.
  destruct (findModel discovered X) as [m|] eqn:E; [|done].
  apply find_some in E as [Hin Hn]. apply bool_decide_eq_true in Hn.
  unfold notShadowed in H. rewrite Forall_forall in H.
  apply list_elem_of_In in Hin. by destruct (H m Hin).
Qed.

(** The default model is in every value [MODEL_LIST] takes. *)
Lemma default_model_known ollamaModels openAiLikeModels :
  is_Some (findModel (initializeModelList ollamaModels openAiLikeModels) DEFAULT_MODEL).
Proof.
  unfold initializeModelList. rewrite !findModel_app.
  destruct (findModel ollamaModels _); [by eexists|].
  destruct (findModel openAiLikeModels _); [by eexists|].
  vm_compute. by eexists.
Qed.

Lemma mapMessages_app MODEL_LIST cur l1 l2 :
  mapMessages MODEL_LIST cur (l1 ++ l2) =
  let '(cur1, l1') := mapMessages MODEL_LIST cur l1 in
  let '(cur2, l2') := mapMessages MODEL_LIST cur1 l2 in
  (cur2, l1' ++ l2').
Proof.
  revert cur. induction l1 as [|m l1 IH]; intros cur; simpl.
  - by destruct (mapMessages MODEL_LIST cur l2).
  - destruct (processMessage MODEL_LIST cur m) as [cur1 m'].
    rewrite IH. destruct (mapMessages MODEL_LIST cur1 l1) as [cur2 l1'].
    by destruct (mapMessages MODEL_LIST cur2 l2).
Qed.

Lemma mapMessages_length MODEL_LIST cur l :
  length (snd (mapMessages MODEL_LIST cur l)) = length l.
Proof.
  revert cur. induction l as [|m l IH]; intros cur; simpl; [done|].
  destruct (processMessage MODEL_LIST cur m) as [cur1 m'].
  specialize (IH cur1). destruct (mapMessages MODEL_LIST cur1 l). simpl in *. by rewrite IH.
Qed.

(** Turns of other roles pass through and select nothing. *)
Lemma mapMessages_no_user MODEL_LIST cur l :
  Forall (fun x => role x <> user) l -> mapMessages MODEL_LIST cur l = (cur, l).
Proof.
  induction 1 as [|m l Hm _ IH]; simpl; [done|].
  unfold processMessage. destruct (role m) eqn:E; try done; by rewrite IH.
Qed.

(** What [streamText] forwards is the conversion of the processed
    messages. *)
Lemma streamText_messages convertToCoreMessages MODEL_LIST options messages :
  callMessages (streamText convertToCoreMessages MODEL_LIST options messages)
  = convertToCoreMessages (processedMessages MODEL_LIST messages).
Proof.
  unfold streamText, processedMessages.
  by destruct (mapMessages MODEL_LIST DEFAULT_MODEL messages).
Qed.

Lemma processMessage_role MODEL_LIST cur m :
  role (snd (processMessage MODEL_LIST cur m)) = role m.
Proof.
  unfold processMessage. destruct (role m) eqn:E; try done.
  by destruct (extractModelFromMessage m).
Qed.

Lemma userTurns_app l1 l2 : userTurns (l1 ++ l2) = userTurns l1 ++ userTurns l2.
Proof. apply List.filter_app. Qed.

Lemma userTurns_no_user l : Forall (fun x => role x <> user) l -> userTurns l = [].
Proof.
  induction 1 as [|m l Hm _ IH]; [done|].
  unfold userTurns in *. cbn. by rewrite bool_decide_eq_false_2.
Qed.

(** The call for a conversation, seen from its latest user turn. *)
Lemma streamText_latest convertToCoreMessages options MODEL_LIST pre m post :
  Forall (fun x => role x <> user) post ->
  let call := streamText convertToCoreMessages MODEL_LIST options (pre ++ m :: post) in
  let step := processMessage MODEL_LIST (resolvedModel MODEL_LIST pre) m in
  callModel call = fst step /\
  processedMessages MODEL_LIST (pre ++ m :: post) !! length pre = Some (snd step) /\
  (role m = user ->
   last (userTurns (processedMessages MODEL_LIST (pre ++ m :: post))) = Some (snd step)) /\
  callProvider call = providerOf MODEL_LIST (callModel call).
Proof.
  intros Hpost. unfold streamText, resolvedModel, processedMessages.
  rewrite mapMessages_app.
  pose proof (mapMessages_length MODEL_LIST DEFAULT_MODEL pre) as Hlen.
  destruct (mapMessages MODEL_LIST DEFAULT_MODEL pre) as [cur1 pre']. simpl in *.
  pose proof (processMessage_role MODEL_LIST cur1 m) as Hrole.
  destruct (processMessage MODEL_LIST cur1 m) as [cur2 m'].
  rewrite (mapMessages_no_user _ _ _ Hpost). simpl in *.
  split; [done|]. split; [|split; [|done]].
  - unfold Messages in *. by apply list_lookup_middle.
  - intros Hu. change (m' :: post) with ([m'] ++ post).
    rewrite !userTurns_app, (userTurns_no_user post Hpost), app_nil_r.
    unfold userTurns at 2. cbn. rewrite bool_decide_eq_true_2 by congruence.
    by rewrite last_snoc.
Qed.

Lemma resolvedModel_no_user MODEL_LIST pre :
  Forall (fun x => role x <> user) pre -> resolvedModel MODEL_LIST pre = DEFAULT_MODEL.
Proof.
  intros H. unfold resolvedModel. by rewrite mapMessages_no_user.
Qed.

(** The callback of the [map] on a turn that starts with a directive. *)
Lemma processMessage_directive MODEL_LIST cur X rest :
  noLineTerminator X ->
  processMessage MODEL_LIST cur (userText (withDirective X rest)) =
  (if truthy X && bool_decide (is_Some (findModel MODEL_LIST X)) then X else cur,
   userText rest).
Proof.
  intros HX. unfold processMessage, userText. cbn [role].
  by rewrite extract_directive.
Qed.

Lemma text_carries_no_directive s :
  modelRegex s = None -> ~ carriesDirective (userText s).
Proof.
  intros H (X & rest & HX & Hc). simpl in Hc. injection Hc as ->.
  by rewrite modelRegex_directive in H.
Qed.

Lemma no_directive_regex s :
  ~ carriesDirective (userText s) -> modelRegex s = None.
Proof.
  intros H. destruct (modelRegex s) as [[X rest]|] eqn:E; [|done].
  destruct H. apply modelRegex_inv in E as [-> HX]. by exists X, rest.
Qed.

(** C5 (amended). When the latest user turn starts with [[Model: X]] and a
    blank line, [X] on one line, the turn is given to the SDK's conversion
    with exactly that prefix removed, whatever [X] is, and what is
    forwarded is the conversion of the processed turns: with a conversion
    that passes user turns on, the latest user turn the provider gets is
    the text behind the prefix. The call uses model [X] when [X] is not
    empty and names a model of the list; otherwise it uses the model the
    earlier turns select, which is the default model when no earlier turn
    is a user turn. The provider is the one the list gives for the model
    of the call. *)
Theorem directive_turn_routing convertToCoreMessages options MODEL_LIST pre post X rest :
  noLineTerminator X ->
  Forall (fun x => role x <> user) post ->
  let conversation := pre ++ userText (withDirective X rest) :: post in
  let call := streamText convertToCoreMessages MODEL_LIST options conversation in
  processedMessages MODEL_LIST conversation !! length pre = Some (userText rest) /\
  callMessages call = convertToCoreMessages (processedMessages MODEL_LIST conversation) /\
  (keepsUserTurns convertToCoreMessages ->
   last (userTurns (callMessages call)) = Some (userText rest)) /\
  (X <> [] -> knownModel MODEL_LIST X -> callModel call = X) /\
  (X = [] \/ ~ knownModel MODEL_LIST X -> callModel call = resolvedModel MODEL_LIST pre) /\
  (Forall (fun x => role x <> user) pre -> resolvedModel MODEL_LIST pre = DEFAULT_MODEL) /\
  callProvider call = providerOf MODEL_LIST (callModel call).
Proof.
  intros HX Hpost conversation call.
  destruct (streamText_latest convertToCoreMessages options MODEL_LIST pre
              (userText (withDirective X rest)) post Hpost) as (Hm & Hc & Hu & Hp).
  unfold call, conversation. clear call conversation.
  rewrite processMessage_directive in Hm, Hc, Hu by done.
  cbn [fst snd] in Hm, Hc, Hu.
  split; [done|]. split; [apply streamText_messages|]. split.
  { intros Hk. rewrite streamText_messages, Hk. by apply Hu. }
  split; [|split; [|split; [apply resolvedModel_no_user|done]]].
  - intros Hne Hk. apply findModel_known in Hk.
    rewrite Hm, (bool_decide_eq_true_2 _ Hk). by destruct X.
  - intros [->|Hk]; [done|].
    rewrite Hm. rewrite bool_decide_eq_false_2, andb_false_r; [done|].
    by rewrite findModel_known.
Qed.

Lemma dropToolTurns_keepsUserTurns : keepsUserTurns dropToolTurns.
Proof.
  intros l. unfold userTurns, dropToolTurns.
  induction l as [|m l IH]; [done|]. cbn.
  destruct (role m) eqn:E;
    repeat (case_bool_decide; try done); cbn; rewrite ?E;
    repeat (case_bool_decide; try done); by rewrite ?IH.
Qed.

Lemma directive_turn_routing_witness :
  let conversation :=
    [ {| role := tool; content := Parts [] |};
      userText (withDirective (js "gpt-4o") (js "Hello")) ] in
  let call := streamText dropToolTurns staticModels chatOptions conversation in
  noLineTerminator (js "gpt-4o") /\
  processedMessages staticModels conversation !! 1 = Some (userText (js "Hello")) /\
  last (userTurns (callMessages call)) = Some (userText (js "Hello")) /\
  callModel call = js "gpt-4o" /\
  callProvider call = js "OpenAI".
Proof.
  intros conversation call.
  assert (HX : noLineTerminator (js "gpt-4o")) by (repeat constructor).
  destruct (directive_turn_routing dropToolTurns chatOptions staticModels
              [ {| role := tool; content := Parts [] |} ] [] (js "gpt-4o") (js "Hello") HX)
    as (H1 & _ & H2 & H3 & _ & _ & H5); [constructor|].
  split; [exact HX|]. split; [exact H1|].
  split; [exact (H2 dropToolTurns_keepsUserTurns)|].
  assert (Hm : callModel call = js "gpt-4o").
  { apply H3; [discriminate|]. apply findModel_known. vm_compute. eauto. }
  split; [exact Hm|]. unfold call, conversation in *. simpl app in H5.
  rewrite H5, Hm. reflexivity.
Defined.

(** C5, as stated, fails: an identifier that is not in the list leaves the
    model of an earlier turn in place, not the default. *)
Lemma unknown_directive_keeps_earlier_model :
  let X := js "no-such-model" in
  let messages :=
    [ userText (withDirective (js "gpt-4o") (js "Hi"));
      assistantText (js "Hey");
      userText (withDirective X (js "Hello")) ] in
  noLineTerminator X /\
  ~ knownModel staticModels X /\
  callModel (streamText dropToolTurns staticModels chatOptions messages) = js "gpt-4o" /\
  callProvider (streamText dropToolTurns staticModels chatOptions messages) = js "OpenAI" /\
  ~ (callModel (streamText dropToolTurns staticModels chatOptions messages) = DEFAULT_MODEL /\
     callProvider (streamText dropToolTurns staticModels chatOptions messages) = DEFAULT_PROVIDER).
Proof.
  split; [repeat constructor|]. split.
  - rewrite <- findModel_known. vm_compute. by intros [? ?].
  - split; [by vm_compute|]. split; [by vm_compute|].
    intros [H _]. vm_compute in H. discriminate.
Qed.

(** The call for a conversation whose latest user turn carries no
    directive. *)
Lemma latest_turn_without_directive convertToCoreMessages options ollamaModels openAiLikeModels pre m post :
  latestUserTurn m post ->
  ~ carriesDirective m ->
  let MODEL_LIST := initializeModelList ollamaModels openAiLikeModels in
  let call := streamText convertToCoreMessages MODEL_LIST options (pre ++ m :: post) in
  callModel call = DEFAULT_MODEL /\
  callProvider call = providerOf MODEL_LIST DEFAULT_MODEL /\
  (notShadowed (ollamaModels ++ openAiLikeModels) DEFAULT_MODEL ->
   callProvider call = DEFAULT_PROVIDER).
Proof.
  intros [Hu Hpost] Hnd MODEL_LIST call.
  destruct (streamText_latest convertToCoreMessages options MODEL_LIST pre m post Hpost)
    as (Hm & _ & _ & Hp).
  fold call in Hm, Hp.
  assert (Hd : callModel call = DEFAULT_MODEL).
  { rewrite Hm. unfold processMessage. rewrite Hu.
    pose proof (extract_no_directive m Hnd) as He.
    destruct (extractModelFromMessage m) as [model content']. simpl in He. subst model.
    cbn [fst]. rewrite bool_decide_eq_true_2 by apply default_model_known. done. }
  rewrite Hp, Hd. split; [done|]. split; [done|].
  intros Hs. unfold providerOf, MODEL_LIST, initializeModelList.
  rewrite app_assoc, (findModel_not_shadowed _ _ _ Hs). reflexivity.
Qed.

(** C6 (amended). When the latest user turn carries no directive, the
    model of the call is the default model, whatever the earlier turns say,
    and the provider is the one the list gives for that name: the default
    provider unless a model reported by a local service has the name of the
    default model and so stands before the static entry. *)
Theorem no_directive_routing convertToCoreMessages options ollamaModels openAiLikeModels pre m post :
  latestUserTurn m post ->
  ~ carriesDirective m ->
  let MODEL_LIST := initializeModelList ollamaModels openAiLikeModels in
  let call := streamText convertToCoreMessages MODEL_LIST options (pre ++ m :: post) in
  callModel call = DEFAULT_MODEL /\
  callProvider call = providerOf MODEL_LIST DEFAULT_MODEL /\
  (notShadowed (ollamaModels ++ openAiLikeModels) DEFAULT_MODEL ->
   callProvider call = DEFAULT_PROVIDER).
Proof. apply latest_turn_without_directive. Qed.

Lemma no_directive_routing_witness :
  let m := userText (js "Hello") in
  let call := streamText dropToolTurns (initializeModelList [] []) chatOptions
                [userText (withDirective (js "gpt-4o") (js "Hi")); m] in
  latestUserTurn m [] /\ ~ carriesDirective m /\
  callModel call = DEFAULT_MODEL /\ callProvider call = DEFAULT_PROVIDER.
Proof.
  assert (Hl : latestUserTurn (userText (js "Hello")) []) by (split; [reflexivity|constructor]).
  assert (Hn : ~ carriesDirective (userText (js "Hello")))
    by (apply text_carries_no_directive; reflexivity).
  destruct (no_directive_routing dropToolTurns chatOptions [] []
              [userText (withDirective (js "gpt-4o") (js "Hi"))]
              (userText (js "Hello")) [] Hl Hn) as (H1 & _ & H3).
  split; [exact Hl|]. split; [exact Hn|]. split; [exact H1|].
  apply H3. constructor.
Defined.

(** C6, as stated, fails for the provider: a discovered model that has the
    name of the default model is found first. *)
Lemma shadowed_default_provider :
  let openAiLikeModels :=
    [mk "claude-3-5-sonnet-20240620" "claude-3-5-sonnet-20240620" "OpenAILike"] in
  let m := userText (js "Hello") in
  let call := streamText dropToolTurns (initializeModelList [] openAiLikeModels) chatOptions [m] in
  latestUserTurn m [] /\ ~ carriesDirective m /\
  callModel call = DEFAULT_MODEL /\
  callProvider call = js "OpenAILike" /\
  ~ (callModel call = DEFAULT_MODEL /\ callProvider call = DEFAULT_PROVIDER).
Proof.
  split; [split; [reflexivity|constructor]|].
  split; [apply text_carries_no_directive; reflexivity|].
  split; [by vm_compute|]. split; [by vm_compute|].
  intros [_ H]. vm_compute in H. discriminate.
Qed.

(** C10 (amended). A user turn that starts with [[Model: ]] and a blank
    line is given to the SDK's conversion without that prefix, so that
    with a conversion that passes user turns on the provider gets the text
    behind it, and the empty identifier leaves the current model as it
    is: the call uses the model the earlier turns select, which is the
    default model when no earlier turn is a user turn. *)
Theorem empty_directive_routing convertToCoreMessages options MODEL_LIST pre post rest :
  Forall (fun x => role x <> user) post ->
  let m := userText (withDirective [] rest) in
  let call := streamText convertToCoreMessages MODEL_LIST options (pre ++ m :: post) in
  extractModelFromMessage m = ([], rest) /\
  processedMessages MODEL_LIST (pre ++ m :: post) !! length pre = Some (userText rest) /\
  callMessages call = convertToCoreMessages (processedMessages MODEL_LIST (pre ++ m :: post)) /\
  (keepsUserTurns convertToCoreMessages ->
   last (userTurns (callMessages call)) = Some (userText rest)) /\
  (forall currentModel, fst (processMessage MODEL_LIST currentModel m) = currentModel) /\
  callModel call = resolvedModel MODEL_LIST pre /\
  (Forall (fun x => role x <> user) pre -> callModel call = DEFAULT_MODEL).
Proof.
  intros Hpost m call.
  assert (HX : noLineTerminator []) by constructor.
  destruct (streamText_latest convertToCoreMessages options MODEL_LIST pre m post Hpost)
    as (Hm & Hc & Hu & _).
  unfold call, m in *. clear call m.
  rewrite processMessage_directive in Hm, Hc, Hu by done.
  cbn [fst snd truthy andb] in Hm, Hc, Hu.
  split; [by apply extract_directive|]. split; [done|].
  split; [apply streamText_messages|]. split.
  { intros Hk. rewrite streamText_messages, Hk. by apply Hu. }
  split.
  - intros cur. by rewrite processMessage_directive.
  - split; [done|]. intros Hpre. by rewrite Hm, resolvedModel_no_user.
Qed.

Lemma empty_directive_routing_witness :
  let m := userText (withDirective [] (js "Hello")) in
  let conversation := [ {| role := tool; content := Parts [] |}; m ] in
  let call := streamText dropToolTurns staticModels chatOptions conversation in
  extractModelFromMessage m = ([], js "Hello") /\
  processedMessages staticModels conversation !! 1 = Some (userText (js "Hello")) /\
  last (userTurns (callMessages call)) = Some (userText (js "Hello")) /\
  callModel call = DEFAULT_MODEL.
Proof.
  intros m conversation call.
  destruct (empty_directive_routing dropToolTurns chatOptions staticModels
              [ {| role := tool; content := Parts [] |} ] [] (js "Hello"))
    as (H1 & H2 & _ & H3 & _ & _ & H5); [constructor|].
  split; [exact H1|]. split; [exact H2|].
  split; [exact (H3 dropToolTurns_keepsUserTurns)|].
  apply H5. repeat constructor. discriminate.
Defined.

(** C10, as stated, fails: behind a turn that selected a known model, the
    empty identifier leaves that model in place, not the default. *)
Lemma empty_directive_keeps_earlier_model :
  let messages :=
    [ userText (withDirective (js "gpt-4o") (js "Hi"));
      assistantText (js "Hey");
      userText (withDirective [] (js "Hello")) ] in
  let call := streamText dropToolTurns staticModels chatOptions messages in
  processedMessages staticModels messages !! 2 = Some (userText (js "Hello")) /\
  callModel call = js "gpt-4o" /\
  callModel call <> DEFAULT_MODEL.
Proof.
  split; [by vm_compute|]. split; [by vm_compute|].
  intros H. vm_compute in H. discriminate.
Qed.

(** ** [SwitchableStream] *)

Lemma heap_eta h :
  {| streams := streams h; _controller := _controller h;
     _currentReader := _currentReader h; _switches := _switches h;
     pumping := pumping h |} = h.
Proof. by destruct h. Qed.

Lemma cancelStream_not_readable st : state (snd (cancelStream st)) <> readable.
Proof. unfold cancelStream. by destruct (state st) eqn:E; simpl; rewrite ?E. Qed.

Lemma cancelStream_settled st :
  state st <> readable -> cancelStream (snd (cancelStream st)) = cancelStream st.
Proof. unfold cancelStream. by destruct (state st) eqn:E; simpl; rewrite ?E. Qed.

Lemma cancelStream_twice st :
  snd (cancelStream (snd (cancelStream st))) = snd (cancelStream st).
Proof. unfold cancelStream. by destruct (state st) eqn:E; simpl; rewrite ?E. Qed.

Lemma cancelStream_readable st :
  state st = readable ->
  cancelStream st =
  (match cancelAlgorithm st with None => Resolved () | Some e => Rejected e end,
   {| queued := []; ending := ending st; state := closed;
      locked := locked st; cancelAlgorithm := cancelAlgorithm st |}).
Proof. unfold cancelStream. by intros ->. Qed.

Lemma terminateController_idem c :
  terminateController (terminateController c) = terminateController c.
Proof.
  unfold terminateController at 2 3.
  destruct (canCloseOrEnqueue c) eqn:E; [done|].
  unfold terminateController. by rewrite E.
Qed.

Lemma consume_closing q d st :
  consume (length q) {| delivered := d; queue := q; closeRequested := true;
                        readableState := match q with [] => closed | _ :: _ => st end |}
  = {| delivered := d ++ q; queue := []; closeRequested := true; readableState := closed |}.
Proof.
  revert d. induction q as [|v q IH]; intros d.
  - simpl. by rewrite app_nil_r.
  - cbn [length consume].
    assert (consumerRead {| delivered := d; queue := v :: q; closeRequested := true;
                            readableState := st |}
            = {| delivered := d ++ [v]; queue := q; closeRequested := true;
                 readableState := match q with [] => closed | _ :: _ => st end |}) as ->
      by (unfold consumerRead; simpl; by destruct q).
    rewrite IH. by rewrite <- app_assoc.
Qed.

(** [close], written out: the reader's stream is canceled, the promise
    dropped, and the controller terminated. It never throws. *)
Lemma close_eq h :
  close h =
  (Normal (), setController (terminateController <$> _controller h) (afterCancel h)).
Proof.
  unfold close, afterCancel, mbind, M_bind, gets, ignore, terminate, modify, cancel, mret, M_ret.
  destruct (_currentReader h) as [reader|]; simpl; [|done].
  destruct (streams h !! reader) as [st|]; simpl; [|done].
  by destruct (cancelStream st).
Qed.

Lemma afterCancel_idem h : afterCancel (afterCancel h) = afterCancel h.
Proof.
  unfold afterCancel.
  destruct (_currentReader h) as [reader|] eqn:Hr; [|by rewrite Hr].
  destruct (streams h !! reader) as [st|] eqn:Hs; [|by rewrite Hr, Hs].
  simpl. rewrite Hr.
  rewrite list_lookup_insert_eq by (by eapply lookup_lt_Some).
  unfold setStreams; simpl. rewrite list_insert_insert_eq.
  by rewrite cancelStream_twice.
Qed.

(** C8. [close()] never throws. It cancels the stream of the current
    reader when there is one, which closes a stream that was readable, and
    it terminates the readable side: a consumer that reads on gets what was
    queued and then the end of the stream. A second [close()] completes
    normally too and leaves the heap as the first one left it. *)
Theorem close_idempotent (h : Heap) :
  let h1 := snd (close h) in
  close h = (Normal (), h1) /\
  close h1 = (Normal (), h1) /\
  (forall reader st,
     _currentReader h = Some reader -> streams h !! reader = Some st ->
     _currentReader h1 = Some reader /\
     streams h1 !! reader = Some (snd (cancelStream st)) /\
     (state st = readable -> state (snd (cancelStream st)) = closed)) /\
  (forall c,
     _controller h = Some c -> canCloseOrEnqueue c = true ->
     let c1 := terminateController c in
     _controller h1 = Some c1 /\ closeRequested c1 = true /\
     delivered (consumeAll c1) = delivered c ++ queue c /\
     readableState (consumeAll c1) = closed).
Proof.
  intros h1. unfold h1. rewrite !close_eq. cbn [snd].
  split; [done|]. split; [|split].
  - f_equal. set (h' := afterCancel h).
    assert (Hc : _controller h' = _controller h).
    { unfold h', afterCancel. destruct (_currentReader h); [|done].
      by destruct (streams h !! _). }
    assert (Ha : afterCancel (setController (terminateController <$> _controller h) h')
                 = setController (terminateController <$> _controller h) h').
    { unfold h'. rewrite <- (afterCancel_idem h) at 2.
      unfold afterCancel at 1 3. simpl.
      destruct (_currentReader (afterCancel h)); [|done].
      by destruct (streams (afterCancel h) !! _). }
    rewrite Ha. unfold setController; simpl. f_equal.
    destruct (_controller h) as [c|]; simpl; [|done].
    by rewrite terminateController_idem.
  - intros reader st Hr Hs. unfold afterCancel. rewrite Hr, Hs. simpl.
    split; [done|]. split.
    + apply list_lookup_insert_eq. by eapply lookup_lt_Some.
    + intros Hst. by rewrite (cancelStream_readable _ Hst).
  - intros c Hc Hopen. set (c1 := terminateController c). simpl. rewrite Hc. simpl.
    assert (Hc1 : c1 = {| delivered := delivered c; queue := queue c; closeRequested := true;
                          readableState := match queue c with [] => closed | _ :: _ => readable end |}).
    { unfold c1, terminateController. by rewrite Hopen. }
    split; [done|]. rewrite Hc1. split; [done|].
    unfold consumeAll. cbn [queue]. rewrite consume_closing. done.
Qed.

Lemma close_idempotent_witness :
  let st := {| queued := [js "b"]; ending := staysOpen; state := readable;
               locked := true; cancelAlgorithm := None |} in
  let c := {| delivered := []; queue := [js "a"]; closeRequested := false;
              readableState := readable |} in
  let h := {| streams := [st]; _controller := Some c; _currentReader := Some 0;
              _switches := 1; pumping := reading |} in
  let h1 := snd (close h) in
  close h = (Normal (), h1) /\
  close h1 = (Normal (), h1) /\
  state <$> streams h1 !! 0 = Some closed /\
  _controller h1 = Some (terminateController c) /\
  delivered (consumeAll (terminateController c)) = [js "a"] /\
  readableState (consumeAll (terminateController c)) = closed.
Proof.
  intros st c h h1.
  destruct (close_idempotent h) as (H1 & H2 & H3 & H4).
  destruct (H3 0 st eq_refl eq_refl) as (_ & Hb & Hc).
  destruct (H4 c eq_refl eq_refl) as (Hd & _ & He & Hf).
  split; [exact H1|]. split; [exact H2|]. split.
  - fold h1 in Hb. rewrite Hb. reflexivity.
  - split; [exact Hd|]. split; [exact He|exact Hf].
Defined.

Lemma getReader_unlocked h stream ns :
  streams h !! stream = Some ns -> locked ns = false ->
  getReader stream h =
  (Normal stream,
   setStreams (fun l => <[stream :=
     {| queued := queued ns; ending := ending ns; state := state ns;
        locked := true; cancelAlgorithm := cancelAlgorithm ns |}]> l) h).
Proof. intros Hs Hl. unfold getReader. by rewrite Hs, Hl. Qed.

(** C9 (amended). When a reader is attached, [switchSource] first cancels
    its stream, which closes a stream that was readable, and awaits the
    cancellation. When the cancellation succeeds, the new stream becomes
    the current reader and the switch counter grows by one. When it fails,
    the error is not swallowed: [switchSource] throws it, the old reader
    stays in the field, the new stream is not locked and the counter is
    unchanged. *)
Theorem switchSource_cancels_first h reader old newStream ns :
  _currentReader h = Some reader ->
  streams h !! reader = Some old ->
  streams h !! newStream = Some ns ->
  locked ns = false ->
  newStream <> reader ->
  let h1 := afterCancel h in
  streams h1 !! reader = Some (snd (cancelStream old)) /\
  (state old = readable ->
   state (snd (cancelStream old)) = closed /\ queued (snd (cancelStream old)) = []) /\
  match fst (cancelStream old) with
  | Rejected e =>
      switchSource newStream h = (Throws e, h1) /\
      _currentReader h1 = Some reader /\
      _switches h1 = _switches h /\
      streams h1 !! newStream = Some ns
  | Resolved _ =>
      exists h2,
        switchSource newStream h = (Normal (), h2) /\
        _currentReader h2 = Some newStream /\
        _switches h2 = S (_switches h) /\
        streams h2 !! reader = Some (snd (cancelStream old)) /\
        (locked <$> streams h2 !! newStream) = Some true
  end.
Proof.
  intros Hr Hs Hn Hl Hne h1.
  assert (Hh1 : h1 = setStreams (fun l => <[reader := snd (cancelStream old)]> l) h).
  { unfold h1, afterCancel. by rewrite Hr, Hs. }
  assert (Hlt : reader < length (streams h)) by (by eapply lookup_lt_Some).
  assert (H1r : streams h1 !! reader = Some (snd (cancelStream old))).
  { rewrite Hh1. simpl. by apply list_lookup_insert_eq. }
  assert (H1n : streams h1 !! newStream = Some ns).
  { rewrite Hh1. simpl. by rewrite list_lookup_insert_ne. }
  split; [done|]. split.
  { intros Hst. by rewrite (cancelStream_readable _ Hst). }
  cbv [switchSource mbind M_bind gets await cancel modify ignore mret M_ret throw].
  rewrite Hr, Hs. destruct (cancelStream old) as [[[]|e] old'] eqn:Hc; cbn [fst snd] in *.
  - rewrite <- Hh1. rewrite (getReader_unlocked _ _ _ H1n Hl).
    eexists. split; [reflexivity|].
    assert (newStream < length (streams h1)) by (by eapply lookup_lt_Some).
    unfold _pumpStream.
    destruct (_controller h1) eqn:Hctl; cbn; rewrite ?Hctl; cbn;
      (split; [done|]); (split; [by rewrite Hh1|]);
      (split; [by rewrite list_lookup_insert_ne | by rewrite list_lookup_insert_eq]).
  - rewrite <- Hh1. split; [done|]. split; [by rewrite Hh1|]. split; [by rewrite Hh1|done].
Qed.

Lemma switchSource_cancels_first_witness :
  let old := {| queued := [js "b"]; ending := staysOpen; state := readable;
                locked := true; cancelAlgorithm := None |} in
  let ns := {| queued := [js "c"]; ending := staysOpen; state := readable;
               locked := false; cancelAlgorithm := None |} in
  let h := {| streams := [old; ns];
              _controller := Some {| delivered := []; queue := []; closeRequested := false;
                                     readableState := readable |};
              _currentReader := Some 0; _switches := 1; pumping := reading |} in
  exists h2,
    switchSource 1 h = (Normal (), h2) /\
    _currentReader h2 = Some 1 /\ _switches h2 = 2 /\
    (state <$> streams h2 !! 0) = Some closed /\
    (queued <$> streams h2 !! 0) = Some [].
Proof.
  intros old ns h.
  destruct (switchSource_cancels_first h 0 old 1 ns eq_refl eq_refl eq_refl eq_refl)
    as (_ & H2 & H3); [discriminate|].
  destruct (H2 eq_refl) as [Hst Hq].
  cbn [fst cancelStream state old cancelAlgorithm] in H3.
  destruct H3 as (h2 & Ha & Hb & Hc & Hd & _).
  exists h2. split; [exact Ha|]. split; [exact Hb|]. split; [exact Hc|].
  rewrite Hd. split; [exact (f_equal Some Hst)|exact (f_equal Some Hq)].
Defined.

(** C9, as stated, fails: the error of a failing cancellation is thrown by
    [switchSource], and the new stream is not installed. *)
Lemma switchSource_cancel_error_thrown :
  let boom := Error "cancel failed" in
  let old := {| queued := [js "b"]; ending := staysOpen; state := readable;
                locked := true; cancelAlgorithm := Some boom |} in
  let ns := {| queued := [js "c"]; ending := staysOpen; state := readable;
               locked := false; cancelAlgorithm := None |} in
  let h := {| streams := [old; ns];
              _controller := Some {| delivered := []; queue := []; closeRequested := false;
                                     readableState := readable |};
              _currentReader := Some 0; _switches := 1; pumping := reading |} in
  fst (switchSource 1 h) = Throws boom /\
  _currentReader (snd (switchSource 1 h)) = Some 0 /\
  _switches (snd (switchSource 1 h)) = 1 /\
  streams (snd (switchSource 1 h)) !! 1 = Some ns.
Proof. by vm_compute. Qed.

(** ** The heap of a session *)

Lemma lookup_current {A} (l : list A) (x : A) : (l ++ [x]) !! length l = Some x.
Proof. by apply list_lookup_middle. Qed.

Lemma insert_current {A} (l : list A) (x y : A) : <[length l := y]> (l ++ [x]) = l ++ [y].
Proof. rewrite insert_app_r_alt by lia. by rewrite Nat.sub_diag. Qed.

(** The pending read of the pump settles. *)
Lemma pumpRead_value sts q v c :
  pumpRead (sessionHeap sts (openSource (v :: q)) c reading)
  = (Normal (), sessionHeap sts (openSource q) c (holds (value v))).
Proof.
  cbv [pumpRead read sessionHeap pumping _currentReader streams setStreams setPumping].
  rewrite lookup_current. cbn. by rewrite insert_current.
Qed.

Lemma pumpRead_waits sts c :
  pumpRead (sessionHeap sts (openSource []) c reading)
  = (Normal (), sessionHeap sts (openSource []) c reading).
Proof.
  cbv [pumpRead read sessionHeap pumping _currentReader streams setStreams setPumping].
  rewrite lookup_current. cbn. by rewrite insert_current.
Qed.

Lemma pumpRead_canceled sts c :
  pumpRead (sessionHeap sts canceledSource c reading)
  = (Normal (), sessionHeap sts canceledSource c (holds done)).
Proof.
  cbv [pumpRead read sessionHeap pumping _currentReader streams setStreams setPumping].
  rewrite lookup_current. cbn. by rewrite insert_current.
Qed.

Lemma pumpRead_errored sts e c :
  pumpRead (sessionHeap sts (erroredSource e) c reading)
  = (Normal (), sessionHeap sts (erroredSource e) c (holds (rejected e))).
Proof.
  cbv [pumpRead read sessionHeap pumping _currentReader streams setStreams setPumping].
  rewrite lookup_current. cbn. by rewrite insert_current.
Qed.

Lemma pumpRead_not_reading h :
  pumping h <> reading -> pumpRead h = (Normal (), h).
Proof. unfold pumpRead. by destruct (pumping h). Qed.

(** The loop of the pump runs on. *)
Lemma pumpTurn_value sts st c v :
  canCloseOrEnqueue c = true ->
  pumpTurn (sessionHeap sts st c (holds (value v)))
  = (Normal (), sessionHeap sts st (enqueueChunk v c) reading).
Proof.
  intros Hc.
  cbv [pumpTurn tryCatch mbind M_bind enqueue modify sessionHeap pumping _controller
       setController setPumping].
  by rewrite Hc.
Qed.

Lemma pumpTurn_value_refused sts st c v :
  canCloseOrEnqueue c = false ->
  pumpTurn (sessionHeap sts st c (holds (value v)))
  = (Normal (), sessionHeap sts st (errorController enqueueError c) idle).
Proof.
  intros Hc.
  cbv [pumpTurn tryCatch mbind M_bind enqueue modify error sessionHeap pumping _controller
       setController setPumping].
  by rewrite Hc.
Qed.

Lemma pumpTurn_done sts st c :
  pumpTurn (sessionHeap sts st c (holds done)) = (Normal (), sessionHeap sts st c idle).
Proof. done. Qed.

Lemma pumpTurn_rejected sts st c e :
  pumpTurn (sessionHeap sts st c (holds (rejected e)))
  = (Normal (), sessionHeap sts st (errorController e c) idle).
Proof. done. Qed.

Lemma pumpTurn_not_holding h :
  (forall r, pumping h <> holds r) -> pumpTurn h = (Normal (), h).
Proof. unfold pumpTurn. destruct (pumping h) as [| |r]; try done. by intros H; destruct (H r). Qed.

Lemma close_sessionHeap sts st c pump :
  close (sessionHeap sts st c pump)
  = (Normal (), sessionHeap sts (snd (cancelStream st)) (terminateController c) pump).
Proof.
  rewrite close_eq. unfold afterCancel, sessionHeap; cbn.
  rewrite lookup_current. unfold setController, setStreams; cbn.
  by rewrite insert_current.
Qed.

Lemma errorSource_sessionHeap sts q c pump e :
  errorSource e (sessionHeap sts (openSource q) c pump)
  = sessionHeap sts (erroredSource e) c pump.
Proof.
  unfold errorSource, sessionHeap; cbn. rewrite lookup_current.
  unfold setStreams; cbn. by rewrite insert_current.
Qed.

Lemma attach_sessionHeap sts q c pump r :
  (stream ← toAIStream r; switchSource stream) (sessionHeap sts (openSource q) c pump)
  = (Normal (), sessionHeap (sts ++ [canceledSource]) (aiStream r) c reading).
Proof.
  cbv [toAIStream switchSource mbind M_bind gets await cancel modify ignore mret M_ret throw
       getReader _pumpStream sessionHeap streams _currentReader _controller _switches
       setStreams setCurrentReader setPumping setSwitches].
  rewrite lookup_app_l by (rewrite length_app; simpl; lia).
  rewrite lookup_current. cbn.
  rewrite insert_app_l by (rewrite length_app; simpl; lia).
  rewrite insert_current.
  replace (length (sts ++ [openSource q])) with (length ((sts ++ [canceledSource])))
    by (rewrite !length_app; done).
  rewrite lookup_current. cbn.
  rewrite insert_current. unfold aiStream, openSource, canceledSource.
  by rewrite (length_app sts [_]), Nat.add_1_r.
Qed.

(** [onFinish] runs on with the response of the continuation call: the
    loop of the pump enqueues what it held, the stream of the segment is
    canceled and the stream of the next one attached. *)
Lemma resume_sessionHeap sts q c pump r :
  canCloseOrEnqueue c = true ->
  pumpOn pump ->
  (ignore pumpTurn;; stream ← toAIStream r; switchSource stream)
    (sessionHeap sts (openSource q) c pump)
  = (Normal (), sessionHeap (sts ++ [canceledSource]) (aiStream r) (afterTurn pump c) reading).
Proof.
  intros Hc [->|[v ->]].
  - change ((ignore pumpTurn;; stream ← toAIStream r; switchSource stream)
              (sessionHeap sts (openSource q) c reading))
      with ((stream ← toAIStream r; switchSource stream)
              (sessionHeap sts (openSource q) c reading)).
    apply attach_sessionHeap.
  - unfold mbind at 1, M_bind at 1, ignore at 1.
    rewrite (pumpTurn_value _ _ _ _ Hc). cbn [snd]. apply attach_sessionHeap.
Qed.

Lemma attach_first r :
  (stream ← toAIStream r; switchSource stream) newSwitchableStream
  = (Normal (), sessionHeap [] (aiStream r) newController reading).
Proof. done. Qed.

(** ** The invariant of a session *)

Lemma canCloseOrEnqueue_open c :
  canCloseOrEnqueue c = true -> closeRequested c = false /\ readableState c = readable.
Proof.
  unfold canCloseOrEnqueue. intros [H1 H2]%andb_true_iff.
  apply negb_true_iff in H1. by apply bool_decide_eq_true in H2.
Qed.

Lemma canCloseOrEnqueue_readable c :
  closeRequested c = false -> readableState c = readable -> canCloseOrEnqueue c = true.
Proof. unfold canCloseOrEnqueue. intros -> ->. done. Qed.

Lemma consumerRead_output c :
  delivered (consumerRead c) ++ queue (consumerRead c) = delivered c ++ queue c.
Proof.
  unfold consumerRead. destruct (queue c) as [|v q] eqn:E; simpl; [by rewrite E|].
  by rewrite <- app_assoc.
Qed.

Lemma consumerRead_open c :
  canCloseOrEnqueue c = true -> canCloseOrEnqueue (consumerRead c) = true.
Proof.
  intros H. destruct (canCloseOrEnqueue_open c H) as [Hc Hs].
  unfold consumerRead. destruct (queue c) as [|v q]; [done|].
  unfold canCloseOrEnqueue; simpl. rewrite Hc, Hs. by destruct q.
Qed.

Lemma consumerRead_closeRequested c :
  closeRequested (consumerRead c) = closeRequested c.
Proof. unfold consumerRead. by destruct (queue c). Qed.

Lemma consumerRead_not_errored c :
  (forall e, readableState c <> errored e) ->
  forall e, readableState (consumerRead c) <> errored e.
Proof.
  intros H e. unfold consumerRead. destruct (queue c) as [|v q]; [done|]; simpl.
  destruct q; [|done]. by destruct (closeRequested c).
Qed.

Lemma consumerRead_readable c :
  closeRequested c = false -> readableState (consumerRead c) = readableState c.
Proof.
  intros H. unfold consumerRead. destruct (queue c) as [|v q]; [done|]; simpl.
  rewrite H. by destruct q.
Qed.

Lemma terminateController_open c :
  canCloseOrEnqueue c = true ->
  closeRequested (terminateController c) = true /\
  delivered (terminateController c) = delivered c /\
  queue (terminateController c) = queue c /\
  (forall e, readableState (terminateController c) <> errored e).
Proof.
  intros H. unfold terminateController. rewrite H. simpl.
  repeat split; try done. intros e. by destruct (queue c).
Qed.

(** The readable side and the chunks enqueued on it. *)
Lemma outputInv_open c enqueued :
  canCloseOrEnqueue c = true -> outputInv c enqueued -> delivered c ++ queue c = enqueued.
Proof.
  intros Hc (_ & H & _). apply H. intros e He.
  destruct (canCloseOrEnqueue_open c Hc) as [_ Hr]. congruence.
Qed.

Lemma outputInv_enqueue c enqueued v :
  canCloseOrEnqueue c = true ->
  outputInv c enqueued -> outputInv (enqueueChunk v c) (enqueued ++ [v]).
Proof.
  intros Hc Hinv. pose proof (outputInv_open c enqueued Hc Hinv) as Heq.
  destruct (canCloseOrEnqueue_open c Hc) as [_ Hr].
  unfold outputInv, enqueueChunk; cbn. rewrite app_assoc, Heq.
  split; [done|]. split; [done|]. intros e He. congruence.
Qed.

Lemma outputInv_consumerRead c enqueued :
  outputInv c enqueued -> outputInv (consumerRead c) enqueued.
Proof.
  intros (Hp & Heq & Hq). unfold outputInv. rewrite consumerRead_output.
  split; [done|]. split.
  - intros Hne. apply Heq. intros e He.
    assert (Hc : consumerRead c = c) by (unfold consumerRead; by rewrite (Hq e He)).
    rewrite Hc in Hne. by destruct (Hne e).
  - intros e He. unfold consumerRead in *. destruct (queue c) as [|v q] eqn:E; [by eauto|].
    cbn in *. assert (Hc : readableState c = errored e).
    { destruct q; [|done]. by destruct (closeRequested c). }
    by specialize (Hq e Hc).
Qed.

Lemma outputInv_terminate c enqueued :
  outputInv c enqueued -> outputInv (terminateController c) enqueued.
Proof.
  unfold terminateController. destruct (canCloseOrEnqueue c) eqn:Hc; [|done].
  intros Hinv. pose proof (outputInv_open c enqueued Hc Hinv) as Heq.
  unfold outputInv; cbn. rewrite Heq. split; [done|]. split; [done|].
  intros e He. by destruct (queue c).
Qed.

Lemma outputInv_error c enqueued e :
  outputInv c enqueued -> outputInv (errorController e c) enqueued.
Proof.
  intros (Hp & Heq & Hq). unfold errorController.
  destruct (readableState c) eqn:Hr; [|unfold outputInv; by rewrite ?Hr..].
  unfold outputInv; cbn. rewrite app_nil_r. split.
  - etrans; [|exact Hp]. by apply prefix_app_r.
  - split; [|done]. intros H. by destruct (H e).
Qed.

Lemma outputInv_more c enqueued more :
  (exists e, readableState c = errored e) ->
  outputInv c enqueued -> outputInv c (enqueued ++ more).
Proof.
  intros [e He] (Hp & Heq & Hq). unfold outputInv.
  split; [by apply prefix_app_r|]. split; [|done]. intros H. by destruct (H e).
Qed.

(** The pending read settles: the chunk goes from the stream to the loop
    of the pump, or the loop learns that the stream is closed or
    errored. *)
Lemma heapInv_pumpRead ph sts st c pump :
  heapInv ph st c pump ->
  exists st' pump',
    pumpRead (sessionHeap sts st c pump) = (Normal (), sessionHeap sts st' c pump') /\
    heapInv ph st' c pump' /\
    held pump' ++ queued st' = held pump ++ queued st /\
    state st' = state st.
Proof.
  intros Hinv.
  destruct pump as [| |r0];
    [exists st, idle; by rewrite pumpRead_not_reading|
    |exists st, (holds r0); by rewrite pumpRead_not_reading].
  destruct ph as [r|next| |e]; cbn in Hinv.
  - destruct Hinv as (Hc & -> & Hp). destruct (queued st) as [|v q].
    + exists (openSource []), reading. by rewrite pumpRead_waits.
    + exists (openSource q), (holds (value v)). rewrite pumpRead_value.
      split; [done|]. split; [|done]. split; [done|]. split; [done|]. right. by eexists.
  - destruct Hinv as (Hc & -> & Hp). destruct (queued st) as [|v q].
    + exists (openSource []), reading. by rewrite pumpRead_waits.
    + exists (openSource q), (holds (value v)). rewrite pumpRead_value.
      split; [done|]. split; [|done]. split; [done|]. split; [done|]. right. by eexists.
  - destruct Hinv as (Hc & -> & Hp).
    exists canceledSource, (holds done). by rewrite pumpRead_canceled.
  - destruct Hinv as (-> & Hc & [[Hr _]|[_ ?]]); [|done].
    exists (erroredSource e), (holds (rejected e)). rewrite pumpRead_errored.
    split; [done|]. split; [|done]. split; [done|]. split; [done|]. left. auto.
Qed.

(** The loop of the pump runs on: what it held is enqueued, or is lost
    when the readable side does not take it any more, which is so only
    after [close]. *)
Lemma heapInv_pumpTurn ph sts st c pump enqueued :
  heapInv ph st c pump ->
  outputInv c enqueued ->
  exists c' pump' enq lost,
    pumpTurn (sessionHeap sts st c pump) = (Normal (), sessionHeap sts st c' pump') /\
    heapInv ph st c' pump' /\
    outputInv c' (enqueued ++ enq) /\
    held pump = enq ++ lost /\
    held pump' = [] /\
    (lost <> [] -> ph = Done).
Proof.
  intros Hinv Hout.
  assert (Hsame : (forall r, pump <> holds r) ->
            exists c' pump' enq lost,
              pumpTurn (sessionHeap sts st c pump) = (Normal (), sessionHeap sts st c' pump') /\
              heapInv ph st c' pump' /\ outputInv c' (enqueued ++ enq) /\
              held pump = enq ++ lost /\ held pump' = [] /\ (lost <> [] -> ph = Done)).
  { intros Hn. exists c, pump, [], []. rewrite pumpTurn_not_holding by done.
    rewrite app_nil_r. destruct pump as [| |r]; [done|done|by destruct (Hn r)]. }
  assert (Hvalue : forall v, pump = holds (value v) -> canCloseOrEnqueue c = true ->
            heapInv ph st (enqueueChunk v c) reading ->
            exists c' pump' enq lost,
              pumpTurn (sessionHeap sts st c pump) = (Normal (), sessionHeap sts st c' pump') /\
              heapInv ph st c' pump' /\ outputInv c' (enqueued ++ enq) /\
              held pump = enq ++ lost /\ held pump' = [] /\ (lost <> [] -> ph = Done)).
  { intros v -> Hc Hinv'. exists (enqueueChunk v c), reading, [v], [].
    rewrite (pumpTurn_value _ _ _ _ Hc). split; [done|]. split; [done|].
    split; [by apply outputInv_enqueue|]. done. }
  assert (Henq : forall v, canCloseOrEnqueue c = true ->
            canCloseOrEnqueue (enqueueChunk v c) = true) by done.
  destruct ph as [r|next| |e]; cbn in Hinv.
  - destruct Hinv as (Hc & Hst & [->|[v ->]]); [by apply Hsame|].
    apply (Hvalue v); [done|done|]. cbn. split; [by apply Henq|]. split; [done|by left].
  - destruct Hinv as (Hc & Hst & [->|[v ->]]); [by apply Hsame|].
    apply (Hvalue v); [done|done|]. cbn. split; [by apply Henq|]. split; [done|by left].
  - destruct Hinv as (Hc & Hst & Hp).
    destruct pump as [| |[v| |e|]]; [by apply Hsame|by apply Hsame| | |by destruct (Hp e)|].
    + exists (errorController enqueueError c), idle, [], [v].
      rewrite pumpTurn_value_refused by (unfold canCloseOrEnqueue; by rewrite Hc).
      rewrite app_nil_r. split; [done|]. split.
      { cbn. split; [|done]. unfold errorController. by destruct (readableState c). }
      split; [by apply outputInv_error|]. done.
    + exists c, idle, [], []. rewrite pumpTurn_done, app_nil_r. done.
    + exists c, reading, [], []. rewrite app_nil_r. done.
  - destruct Hinv as (Hst & Hc & [[Hr [[->|[v ->]]| ->]]|[Hr ->]]).
    + by apply Hsame.
    + apply (Hvalue v); [done|by apply canCloseOrEnqueue_readable|].
      cbn. split; [done|]. split; [done|]. left. split; [done|]. left. by left.
    + exists (errorController e c), idle, [], []. rewrite pumpTurn_rejected, app_nil_r.
      split; [done|]. split.
      { cbn. split; [done|]. unfold errorController. rewrite Hr. cbn. split; [done|]. by right. }
      split; [by apply outputInv_error|]. done.
    + by apply Hsame.
Qed.

Lemma heapInv_consumerRead ph st c pump :
  heapInv ph st c pump -> heapInv ph st (consumerRead c) pump.
Proof.
  destruct ph as [r|next| |e]; cbn.
  - intros (Hc & ? & ?). split; [by apply consumerRead_open|done].
  - intros (Hc & ? & ?). split; [by apply consumerRead_open|done].
  - intros (Hc & ? & ?). by rewrite consumerRead_closeRequested.
  - intros (? & Hc & H). rewrite consumerRead_closeRequested, (consumerRead_readable c Hc).
    done.
Qed.

Lemma outputInv_afterTurn c enqueued pump :
  canCloseOrEnqueue c = true ->
  outputInv c enqueued -> outputInv (afterTurn pump c) (enqueued ++ held pump).
Proof.
  intros Hc Hout. destruct pump as [| |[v| |e|]]; cbn; rewrite ?app_nil_r; try done.
  by apply outputInv_enqueue.
Qed.

Lemma afterTurn_open c pump :
  canCloseOrEnqueue c = true -> canCloseOrEnqueue (afterTurn pump c) = true.
Proof. by destruct pump as [| |[v| |e|]]. Qed.

Section Sessions.

Variable convertToCoreMessages : Messages -> Messages.
Variable MODEL_LIST : list ModelInfo.
Variable CONTINUE_PROMPT : jsstring.
Variable provider_ : Provider.

Lemma inv_chatAction messages s :
  chatAction convertToCoreMessages MODEL_LIST provider_ messages = streamingResponse s ->
  SessionInv provider_ s.
Proof.
  unfold chatAction.
  destruct (provider_ (streamText convertToCoreMessages MODEL_LIST chatOptions messages))
    as [r|e] eqn:Hp; [|done].
  intros [= <-].
  apply (session_inv _ _ [] (aiStream r) newController reading [] r [] [] []); simpl; try done.
  - by rewrite app_nil_r.
  - unfold MAX_RESPONSE_SEGMENTS. lia.
  - constructor; [|constructor]. eexists. split; [by left|done].
  - split; [done|]. split; [done|]. by left.
Qed.

Lemma inv_pumpRead s : SessionInv provider_ s ->
  SessionInv provider_ (step convertToCoreMessages MODEL_LIST CONTINUE_PROMPT provider_ s PumpRead).
Proof.
  intros [sts st c pump segs r ps p tail Hh Hsegs Hlen Hps Hout Hp Htail Hcap Hfrom Hcount Hheap].
  destruct (heapInv_pumpRead _ sts _ _ _ Hheap) as (st' & pump' & Hrun & Hheap' & Hheld & Hstate).
  unfold step. rewrite Hh, Hrun. cbn [snd].
  apply (session_inv _ _ sts st' c pump' segs r ps p tail); simpl; try done.
  - by rewrite (app_assoc (held pump')), Hheld, <- app_assoc.
  - rewrite Hstate. done.
Qed.

Lemma inv_pumpTurn s : SessionInv provider_ s ->
  SessionInv provider_ (step convertToCoreMessages MODEL_LIST CONTINUE_PROMPT provider_ s PumpTurn).
Proof.
  intros [sts st c pump segs r ps p tail Hh Hsegs Hlen Hps Hout Hp Htail Hcap Hfrom Hcount Hheap].
  destruct (heapInv_pumpTurn _ sts _ _ _ _ Hheap Hout)
    as (c' & pump' & enq & lost & Hrun & Hheap' & Hout' & Hheld & Hnone & Hlost).
  unfold step. rewrite Hh, Hrun. cbn [snd].
  rewrite Hheld in Hp.
  destruct lost as [|v lost].
  - rewrite app_nil_r in Hp.
    apply (session_inv _ _ sts st c' pump' segs r ps (p ++ enq) tail); simpl; try done.
    + by rewrite <- app_assoc in Hout'.
    + by rewrite Hnone, <- app_assoc.
  - assert (Hd : phase s = Done) by (by apply Hlost).
    rewrite Hd in Hheap. destruct Hheap as (_ & -> & _). cbn in Hp.
    apply (session_inv _ _ sts canceledSource c' pump' segs r ps (p ++ enq)
             (v :: lost ++ tail)); simpl; try done.
    + by rewrite <- app_assoc in Hout'.
    + rewrite Hnone. cbn. rewrite <- Hp, <- !app_assoc. done.
Qed.

Lemma inv_consumerRead s : SessionInv provider_ s ->
  SessionInv provider_ (step convertToCoreMessages MODEL_LIST CONTINUE_PROMPT provider_ s ConsumerRead).
Proof.
  intros [sts st c pump segs r ps p tail Hh Hsegs Hlen Hps Hout Hp Htail Hcap Hfrom Hcount Hheap].
  unfold step. rewrite Hh. cbn.
  apply (session_inv _ _ sts st (consumerRead c) pump segs r ps p tail); simpl; try done.
  - by apply outputInv_consumerRead.
  - by apply heapInv_consumerRead.
Qed.

Lemma inv_finish s :
  SessionInv provider_ s ->
  SessionInv provider_ (step convertToCoreMessages MODEL_LIST CONTINUE_PROMPT provider_ s Finish).
Proof.
  intros Hinv. unfold step. destruct (phase s) as [r'| | |] eqn:Hphase; try done.
  destruct Hinv as
    [sts st c pump segs r ps p tail Hh Hsegs Hlen Hps Hout Hp Htail Hcap Hfrom Hcount Hheap].
  unfold countInv in Hcount. rewrite Hphase in Hcount, Hheap.
  destruct Hcount as (-> & Hcalls). destruct Hheap as (Hc & Hst & Hpump).
  destruct (canCloseOrEnqueue_open c Hc) as [Hcr Hrd].
  assert (Htl : tail = []) by (apply Htail; by rewrite Hst).
  unfold onFinish. destruct (bool_decide (finishReason r = reason_length)) eqn:Hreason; cbn [negb].
  - apply bool_decide_eq_true in Hreason.
    rewrite Hh. cbn [sessionHeap _switches].
    assert (Hsw : S (length sts) = length (segments s))
      by (rewrite Hsegs, length_app; simpl; lia).
    rewrite Hsw.
    destruct (bool_decide (MAX_RESPONSE_SEGMENTS <= length (segments s))) eqn:Hmax.
    + apply bool_decide_eq_true in Hmax. unfold onFinishThrows.
      fold (sessionHeap sts st c pump). rewrite Hst, errorSource_sessionHeap.
      apply (session_inv _ _ sts (erroredSource capError) c pump segs r ps p
               (queued st ++ tail)); simpl; try done.
      * unfold countInv; simpl. split; [done|]. left. split; [done|]. lia.
      * split; [done|]. split; [done|]. left. split; [done|]. by left.
    + apply bool_decide_eq_false in Hmax. fold (sessionHeap sts st c pump).
      apply (session_inv _ _ sts st c pump segs r ps p tail); simpl; try done.
      * eapply Forall_impl; [exact Hfrom|]. intros r' (call & Hin & Hr').
        exists call. split; [|done]. apply in_or_app. by left.
      * unfold countInv; simpl. rewrite length_app, last_snoc; simpl.
        split; [lia|]. split; [lia|]. split; [by eexists|]. done.
  - apply bool_decide_eq_false in Hreason.
    rewrite Hh, close_sessionHeap.
    destruct (terminateController_open c Hc) as (Hcr' & Hd & Hq & He).
    rewrite Hst. change (snd (cancelStream (openSource (queued st)))) with canceledSource.
    apply (session_inv _ _ sts canceledSource (terminateController c) pump segs r ps p
             (queued st ++ tail)); simpl; try done.
    + by apply outputInv_terminate.
    + split; [done|]. split; [done|]. intros e. by destruct Hpump as [->|[v ->]].
Qed.

Lemma inv_resume s :
  SessionInv provider_ s ->
  SessionInv provider_ (step convertToCoreMessages MODEL_LIST CONTINUE_PROMPT provider_ s Resume).
Proof.
  intros Hinv. unfold step. destruct (phase s) as [|next| |] eqn:Hphase; try done.
  destruct Hinv as
    [sts st c pump segs r ps p tail Hh Hsegs Hlen Hps Hout Hp Htail Hcap Hfrom Hcount Hheap].
  unfold countInv in Hcount. rewrite Hphase in Hcount, Hheap.
  destruct Hcount as (Hcalls & Hlt & (call & Hlast & ->) & Hreason).
  destruct Hheap as (Hc & Hst & Hpump).
  destruct (canCloseOrEnqueue_open c Hc) as [Hcr Hrd].
  assert (Htl : tail = []) by (apply Htail; by rewrite Hst).
  unfold onFinishResume. destruct (provider_ call) as [r2|e] eqn:Hcall.
  - rewrite Hh, Hst, (resume_sessionHeap _ _ _ _ _ Hc Hpump).
    apply (session_inv _ _ (sts ++ [canceledSource]) (aiStream r2) (afterTurn pump c) reading
             (segs ++ [r]) r2 (ps ++ [p ++ held pump]) [] []); simpl; try done.
    + by rewrite Hsegs.
    + rewrite !length_app. simpl. lia.
    + rewrite fmap_app. apply Forall2_app; [done|].
      constructor; [|constructor]. exists (queued st ++ tail). by rewrite <- Hp, <- app_assoc.
    + rewrite concat_app. simpl. rewrite !app_nil_r, app_assoc.
      by apply outputInv_afterTurn.
    + by rewrite app_nil_r.
    + rewrite length_app. simpl. lia.
    + apply Forall_app. split; [done|]. constructor; [|constructor].
      exists call. split; [|done]. apply last_Some in Hlast as [l' ->].
      apply in_or_app. right. by left.
    + unfold countInv; simpl. rewrite length_app. simpl. split; [done|]. lia.
    + split; [by apply afterTurn_open|]. split; [done|]. by left.
  - unfold onFinishThrows. rewrite Hh, Hst, errorSource_sessionHeap.
    apply (session_inv _ _ sts (erroredSource e) c pump segs r ps p
             (queued st ++ tail)); simpl; try done.
    + unfold countInv; simpl. split; [done|]. right. by exists call.
    + split; [done|]. split; [done|]. left. split; [done|]. by left.
Qed.

Lemma inv_step s ev :
  SessionInv provider_ s ->
  SessionInv provider_ (step convertToCoreMessages MODEL_LIST CONTINUE_PROMPT provider_ s ev).
Proof.
  destruct ev; [apply inv_pumpRead|apply inv_pumpTurn|apply inv_consumerRead
               |apply inv_finish|apply inv_resume].
Qed.

Lemma inv_run schedule s :
  SessionInv provider_ s ->
  SessionInv provider_ (run convertToCoreMessages MODEL_LIST CONTINUE_PROMPT provider_ s schedule).
Proof.
  revert s. induction schedule as [|ev schedule IH]; intros s Hs; [done|].
  apply IH. by apply inv_step.
Qed.

Lemma inv_session messages schedule s :
  session convertToCoreMessages MODEL_LIST CONTINUE_PROMPT provider_ messages schedule = Some s ->
  SessionInv provider_ s.
Proof.
  unfold session.
  destruct (chatAction convertToCoreMessages MODEL_LIST provider_ messages) as [s0|] eqn:Hs0;
    [|done].
  intros [= <-]. apply inv_run. by eapply inv_chatAction.
Qed.

Lemma inv_switches s :
  SessionInv provider_ s -> _switches (heap s) = length (segments s).
Proof.
  intros [sts st c pump segs r ps p tail Hh Hsegs Hlen Hps Hout Hp Htail Hcap Hfrom Hcount Hheap].
  rewrite Hh, Hsegs, length_app. simpl. lia.
Qed.

(** No reachable session has made more calls than [MAX_RESPONSE_SEGMENTS]. *)
Lemma inv_calls_le_cap s :
  SessionInv provider_ s ->
  length (calls s) <= MAX_RESPONSE_SEGMENTS /\ length (segments s) <= MAX_RESPONSE_SEGMENTS.
Proof.
  intros [sts st c pump segs r ps p tail Hh Hsegs Hlen Hps Hout Hp Htail Hcap Hfrom Hcount Hheap].
  split; [|done]. unfold countInv in Hcount. destruct (phase s).
  - destruct Hcount as (_ & ->). done.
  - destruct Hcount as (-> & ? & _). lia.
  - destruct Hcount as (_ & ->). done.
  - destruct Hcount as (_ & [(_ & _ & ->)|(call & _ & _ & -> & ?)]); lia.
Qed.

Lemma failed_stays s e schedule :
  phase s = Failed e ->
  let s' := run convertToCoreMessages MODEL_LIST CONTINUE_PROMPT provider_ s schedule in
  phase s' = Failed e /\ segments s' = segments s /\ calls s' = calls s.
Proof.
  revert s. induction schedule as [|ev schedule IH]; intros s Hs; [done|].
  simpl. assert (Hstep : phase (step convertToCoreMessages MODEL_LIST CONTINUE_PROMPT provider_ s ev) = Failed e /\
                        segments (step convertToCoreMessages MODEL_LIST CONTINUE_PROMPT provider_ s ev) = segments s /\
                        calls (step convertToCoreMessages MODEL_LIST CONTINUE_PROMPT provider_ s ev) = calls s).
  { destruct ev; simpl; by rewrite ?Hs. }
  destruct Hstep as (H1 & H2 & H3). destruct (IH _ H1) as (H4 & H5 & H6).
  split; [done|]. split; congruence.
Qed.

Lemma failed_phase_stays s e schedule :
  phase s = Failed e ->
  phase (run convertToCoreMessages MODEL_LIST CONTINUE_PROMPT provider_ s schedule) = Failed e.
Proof. intros H. by apply failed_stays. Qed.

Lemma run_app s l1 l2 :
  run convertToCoreMessages MODEL_LIST CONTINUE_PROMPT provider_ s (l1 ++ l2)
  = run convertToCoreMessages MODEL_LIST CONTINUE_PROMPT provider_
      (run convertToCoreMessages MODEL_LIST CONTINUE_PROMPT provider_ s l1) l2.
Proof. apply fold_left_app. Qed.

Lemma finish_streaming s r :
  SessionInv provider_ s ->
  phase s = Streaming r ->
  finishReason r = reason_length ->
  let s' := step convertToCoreMessages MODEL_LIST CONTINUE_PROMPT provider_ s Finish in
  segments s' = segments s /\
  (MAX_RESPONSE_SEGMENTS <= length (segments s) ->
   phase s' = Failed capError /\ calls s' = calls s) /\
  (length (segments s) < MAX_RESPONSE_SEGMENTS ->
   let call := streamText convertToCoreMessages MODEL_LIST chatOptions
                 (messages s ++ [assistantText (text r); userText CONTINUE_PROMPT]) in
   phase s' = Continuing (provider_ call) /\ calls s' = calls s ++ [call]).
Proof.
  intros Hinv Hphase Hreason. simpl. rewrite Hphase. unfold onFinish.
  rewrite (bool_decide_eq_true_2 _ Hreason). cbn [negb].
  rewrite (inv_switches _ Hinv).
  destruct (bool_decide (MAX_RESPONSE_SEGMENTS <= length (segments s))) eqn:Hmax.
  - apply bool_decide_eq_true in Hmax. simpl. split; [done|]. split; [done|]. lia.
  - apply bool_decide_eq_false in Hmax. simpl. split; [done|]. split; [lia|]. done.
Qed.

Lemma resume_continuing s r :
  SessionInv provider_ s ->
  phase s = Continuing (responds r) ->
  let s' := step convertToCoreMessages MODEL_LIST CONTINUE_PROMPT provider_ s Resume in
  phase s' = Streaming r /\ segments s' = segments s ++ [r] /\ calls s' = calls s.
Proof.
  intros Hinv Hphase. simpl. rewrite Hphase. unfold onFinishResume.
  destruct Hinv as
    [sts st c pump segs r0 ps p tail Hh Hsegs Hlen Hps Hout Hp Htail Hcap Hfrom Hcount Hheap].
  rewrite Hphase in Hheap. destruct Hheap as (Hc & Hst & Hpump).
  by rewrite Hh, Hst, (resume_sessionHeap _ _ _ _ _ Hc Hpump).
Qed.

Section AlwaysLength.

Hypothesis always : alwaysLength provider_.

Lemma always_responds call :
  exists r, provider_ call = responds r /\ finishReason r = reason_length.
Proof. destruct (always call) as (r & ? & ? & _). eauto. Qed.

Lemma always_segment_length s r :
  SessionInv provider_ s -> In r (segments s) -> finishReason r = reason_length.
Proof.
  intros [sts st c pump segs r0 ps p tail Hh Hsegs Hlen Hps Hout Hp Htail Hcap Hfrom Hcount Hheap] Hin.
  rewrite Forall_forall in Hfrom. apply list_elem_of_In in Hin.
  destruct (Hfrom _ Hin) as (call & _ & Hcall).
  destruct (always_responds call) as (r' & Hr' & Hl). congruence.
Qed.

(** With such a provider a session never ends normally, and it fails
    only on the cap, with as many segments and calls as the cap allows. *)
Lemma always_phase s :
  SessionInv provider_ s ->
  phase s <> Done /\
  (forall e, phase s = Failed e ->
     e = capError /\ length (segments s) = MAX_RESPONSE_SEGMENTS /\
     length (calls s) = MAX_RESPONSE_SEGMENTS) /\
  (forall r, phase s = Streaming r -> finishReason r = reason_length) /\
  (forall next, phase s = Continuing next ->
     (exists r, next = responds r) /\ length (segments s) < MAX_RESPONSE_SEGMENTS).
Proof.
  intros Hinv. pose proof (always_segment_length s) as Hseg.
  destruct Hinv as
    [sts st c pump segs r0 ps p tail Hh Hsegs Hlen Hps Hout Hp Htail Hcap Hfrom Hcount Hheap].
  assert (Hr0 : finishReason r0 = reason_length).
  { apply Hseg; [by eapply session_inv|]. rewrite Hsegs. apply in_or_app. right. by left. }
  unfold countInv in Hcount. destruct (phase s) as [r|next| |e].
  - destruct Hcount as (-> & _). split; [done|]. split; [done|]. split; [|done]. by intros ? [= <-].
  - destruct Hcount as (_ & Hlt & (call & _ & ->) & _).
    split; [done|]. split; [done|]. split; [done|]. intros ? [= <-].
    destruct (always_responds call) as (r & -> & _). eauto.
  - by destruct Hcount as (Hne & _).
  - destruct Hcount as (_ & [(-> & H1 & H2)|(call & _ & Hcall & _)]).
    + split; [done|]. split; [|done]. by intros ? [= <-].
    + destruct (always_responds call) as (r & Hr & _). congruence.
Qed.

(** Once the completions of at most [k] further segments have arrived,
    the session has failed on the cap. *)
Lemma always_fails_on_cap k s :
  SessionInv provider_ s ->
  MAX_RESPONSE_SEGMENTS - length (segments s) <= k ->
  phase (run convertToCoreMessages MODEL_LIST CONTINUE_PROMPT provider_ s
           (concat (replicate (S k) [Finish; Resume]))) = Failed capError.
Proof.
  revert s. induction k as [|k IH]; intros s Hinv Hk.
  - destruct (always_phase s Hinv) as (Hnd & Hf & Hs & Hc).
    destruct (inv_calls_le_cap s Hinv) as [_ Hle].
    destruct (phase s) as [r|next| |e] eqn:Hphase; [| |done|].
    + destruct (finish_streaming s r Hinv Hphase (Hs _ eq_refl)) as (_ & Hmax & _).
      destruct Hmax as [Hp _]; [lia|].
      change (concat (replicate 1 [Finish; Resume])) with ([Finish] ++ [Resume]).
      rewrite run_app. by apply failed_phase_stays.
    + destruct (Hc _ eq_refl) as [_ Hlt]. lia.
    + destruct (Hf _ eq_refl) as (-> & _). by apply failed_phase_stays.
  - destruct (always_phase s Hinv) as (Hnd & Hf & Hs & Hc).
    change (concat (replicate (S (S k)) [Finish; Resume]))
      with ([Finish] ++ [Resume] ++ concat (replicate (S k) [Finish; Resume])).
    rewrite !run_app.
    change (run convertToCoreMessages MODEL_LIST CONTINUE_PROMPT provider_ s [Finish])
      with (step convertToCoreMessages MODEL_LIST CONTINUE_PROMPT provider_ s Finish).
    set (s1 := step convertToCoreMessages MODEL_LIST CONTINUE_PROMPT provider_ s Finish).
    change (run convertToCoreMessages MODEL_LIST CONTINUE_PROMPT provider_ s1 [Resume])
      with (step convertToCoreMessages MODEL_LIST CONTINUE_PROMPT provider_ s1 Resume).
    assert (Hinv1 : SessionInv provider_ s1) by (by apply inv_step).
    destruct (phase s) as [r|next| |e] eqn:Hphase; [| |done|].
    + destruct (finish_streaming s r Hinv Hphase (Hs _ eq_refl)) as (Hsegs & Hmax & Hlt).
      fold s1 in Hsegs, Hmax, Hlt.
      destruct (decide (MAX_RESPONSE_SEGMENTS <= length (segments s))) as [Hge|Hnge].
      * destruct (Hmax Hge) as [Hp _]. apply failed_phase_stays.
        by apply (failed_phase_stays _ _ [Resume]).
      * destruct Hlt as [Hp _]; [lia|].
        destruct (always_phase s1 Hinv1) as (_ & _ & _ & Hc1).
        destruct (Hc1 _ Hp) as [[r2 Hr2] _]. rewrite Hr2 in Hp.
        destruct (resume_continuing s1 r2 Hinv1 Hp) as (Hp2 & Hsegs2 & _).
        apply IH; [by apply inv_step|].
        rewrite Hsegs2, length_app, Hsegs. simpl. lia.
    + destruct (Hc _ eq_refl) as [[r2 ->] Hlt].
      assert (Hs1 : s1 = s) by (unfold s1; simpl; by rewrite Hphase).
      rewrite Hs1.
      destruct (resume_continuing s r2 Hinv Hphase) as (Hp2 & Hsegs2 & _).
      apply IH; [by apply inv_step|].
      rewrite Hsegs2, length_app. simpl. lia.
    + destruct (Hf _ eq_refl) as (-> & _). apply failed_phase_stays.
      apply (failed_phase_stays _ _ [Resume]).
      unfold s1. simpl. by rewrite Hphase.
Qed.

End AlwaysLength.

Lemma inv_segments_nonempty s : SessionInv provider_ s -> 1 <= length (segments s).
Proof.
  intros [sts st c pump segs r ps p tail Hh Hsegs Hlen Hps Hout Hp Htail Hcap Hfrom Hcount Hheap].
  rewrite Hsegs, length_app. simpl. lia.
Qed.

Lemma done_stays s schedule :
  phase s = Done -> phase (run convertToCoreMessages MODEL_LIST CONTINUE_PROMPT provider_ s schedule) = Done.
Proof.
  revert s. induction schedule as [|ev schedule IH]; intros s Hs; [done|].
  simpl. apply IH. destruct ev; simpl; by rewrite ?Hs.
Qed.

(** What the consumer has read stays read. *)
Lemma deliveredOf_pumpRead h : deliveredOf (snd (pumpRead h)) = deliveredOf h.
Proof.
  cbv [pumpRead read]. unfold deliveredOf.
  repeat (case_match; simplify_eq; simpl in *; try done).
Qed.

Lemma deliveredOf_pumpTurn h : deliveredOf (snd (pumpTurn h)) = deliveredOf h.
Proof.
  assert (Herror : forall e c, delivered (errorController e c) = delivered c).
  { intros e c. unfold errorController. by destruct (readableState c). }
  cbv [pumpTurn tryCatch mbind M_bind gets mret M_ret enqueue error modify throw].
  unfold deliveredOf.
  repeat (case_match; simplify_eq/=; try done).
Qed.

Lemma deliveredOf_errorSource e h : deliveredOf (errorSource e h) = deliveredOf h.
Proof.
  unfold errorSource. destruct (_currentReader h) as [reader|]; [|done].
  by destruct (streams h !! reader).
Qed.

Lemma deliveredOf_close h : deliveredOf (snd (close h)) = deliveredOf h.
Proof.
  assert (Hterm : forall c, delivered (terminateController c) = delivered c).
  { intros c. unfold terminateController. by destruct (canCloseOrEnqueue c). }
  rewrite close_eq. cbn [snd]. unfold deliveredOf, afterCancel. cbn.
  destruct (_controller h) as [c|]; cbn; [by rewrite Hterm|done].
Qed.

Lemma deliveredOf_attach r h :
  deliveredOf (snd ((stream ← toAIStream r; switchSource stream) h)) = deliveredOf h.
Proof.
  cbv [toAIStream switchSource mbind M_bind gets await cancel modify ignore mret M_ret throw
       getReader _pumpStream].
  unfold deliveredOf.
  repeat (case_match; simplify_eq; simpl in *; try done).
Qed.

Lemma step_delivered s ev :
  deliveredOf (heap s) `prefix_of`
  deliveredOf (heap (step convertToCoreMessages MODEL_LIST CONTINUE_PROMPT provider_ s ev)).
Proof.
  destruct ev; simpl.
  - by rewrite deliveredOf_pumpRead.
  - by rewrite deliveredOf_pumpTurn.
  - unfold deliveredOf; simpl. destruct (_controller (heap s)) as [c|]; simpl; [|done].
    unfold consumerRead. destruct (queue c); simpl; [done|]. by apply prefix_app_r.
  - destruct (phase s); try done. unfold onFinish, onFinishThrows.
    destruct (negb _).
    + pose proof (deliveredOf_close (heap s)) as H.
      destruct (close (heap s)) as [[[]|e] h']; cbn in *;
        by rewrite ?deliveredOf_errorSource, H.
    + destruct (bool_decide _); cbn; by rewrite ?deliveredOf_errorSource.
  - destruct (phase s) as [|[r|e]| |]; try done; unfold onFinishResume, onFinishThrows;
      [|cbn; by rewrite deliveredOf_errorSource].
    assert (H : deliveredOf
                  (snd ((ignore pumpTurn;; stream ← toAIStream r; switchSource stream) (heap s)))
                = deliveredOf (heap s)).
    { unfold mbind at 1, M_bind at 1, ignore at 1.
      by rewrite deliveredOf_attach, deliveredOf_pumpTurn. }
    destruct ((ignore pumpTurn;; stream ← toAIStream r; switchSource stream) (heap s))
      as [[[]|e] h']; cbn in *; by rewrite ?deliveredOf_errorSource, H.
Qed.

Lemma run_delivered s schedule :
  deliveredOf (heap s) `prefix_of`
  deliveredOf (heap (run convertToCoreMessages MODEL_LIST CONTINUE_PROMPT provider_ s schedule)).
Proof.
  revert s. induction schedule as [|ev schedule IH]; intros s; [done|].
  simpl. etrans; [apply step_delivered|apply IH].
Qed.

End Sessions.

(** ** Continuation sessions *)

Lemma chatAction_started convertToCoreMessages MODEL_LIST provider_ messages r :
  provider_ (streamText convertToCoreMessages MODEL_LIST chatOptions messages) = responds r ->
  chatAction convertToCoreMessages MODEL_LIST provider_ messages =
  streamingResponse
    {| messages := messages;
       heap := sessionHeap [] (aiStream r) newController reading;
       calls := [streamText convertToCoreMessages MODEL_LIST chatOptions messages];
       segments := [r];
       phase := Streaming r |}.
Proof. intros H. unfold chatAction. by rewrite H. Qed.

(** C2. With a provider that answers every call with stop reason
    [length] and some text, the request is answered by a streaming session,
    and whatever the order of events: the session never makes more than
    [MAX_RESPONSE_SEGMENTS] provider calls, never ends normally, and fails
    only with the cap error, having then produced exactly
    [MAX_RESPONSE_SEGMENTS] segments with as many calls. Once the
    completions of the segments have arrived it has failed so. *)
Theorem always_length_session convertToCoreMessages MODEL_LIST CONTINUE_PROMPT provider_ messages :
  alwaysLength provider_ ->
  exists s0,
    chatAction convertToCoreMessages MODEL_LIST provider_ messages = streamingResponse s0 /\
    forall schedule,
      let s := run convertToCoreMessages MODEL_LIST CONTINUE_PROMPT provider_ s0 schedule in
      let s' := run convertToCoreMessages MODEL_LIST CONTINUE_PROMPT provider_ s completions in
      length (calls s) <= MAX_RESPONSE_SEGMENTS /\
      length (segments s) <= MAX_RESPONSE_SEGMENTS /\
      phase s <> Done /\
      (forall e, phase s = Failed e ->
         e = capError /\ length (segments s) = MAX_RESPONSE_SEGMENTS /\
         length (calls s) = MAX_RESPONSE_SEGMENTS) /\
      phase s' = Failed capError /\
      length (segments s') = MAX_RESPONSE_SEGMENTS /\
      length (calls s') = MAX_RESPONSE_SEGMENTS.
Proof.
  intros always.
  destruct (always (streamText convertToCoreMessages MODEL_LIST chatOptions messages)) as (r & Hr & _).
  eexists. split; [by apply chatAction_started|].
  intros schedule s s'.
  assert (Hinv : SessionInv provider_ s).
  { apply inv_run. eapply inv_chatAction. by apply chatAction_started. }
  assert (Hinv' : SessionInv provider_ s') by (by apply inv_run).
  destruct (inv_calls_le_cap _ _ Hinv) as [Hc Hs].
  destruct (always_phase _ always s Hinv) as (Hnd & Hf & _).
  assert (Hp : phase s' = Failed capError).
  { apply (always_fails_on_cap _ _ _ _ always 1); [done|].
    pose proof (inv_segments_nonempty _ _ Hinv). unfold MAX_RESPONSE_SEGMENTS. lia. }
  destruct (always_phase _ always s' Hinv') as (_ & Hf' & _).
  destruct (Hf' _ Hp) as (_ & ? & ?). done.
Qed.

Lemma always_length_session_witness :
  alwaysLength truncating /\
  exists s0,
    chatAction dropToolTurns staticModels truncating [userText (js "Hello")] = streamingResponse s0 /\
    let s' := run dropToolTurns staticModels continuePrompt truncating s0
                ([PumpRead; Finish; ConsumerRead] ++ completions) in
    phase s' = Failed capError /\ length (segments s') = 2 /\ length (calls s') = 2.
Proof.
  assert (H : alwaysLength truncating).
  { intros call. eexists. split; [reflexivity|]. split; [reflexivity|discriminate]. }
  split; [exact H|].
  destruct (always_length_session dropToolTurns staticModels continuePrompt truncating
              [userText (js "Hello")] H) as (s0 & Hs0 & Hall).
  exists s0. split; [exact Hs0|].
  destruct (Hall [PumpRead; Finish; ConsumerRead]) as (_ & _ & _ & _ & H1 & H2 & H3).
  unfold run in *. rewrite fold_left_app. split; [exact H1|]. split; [exact H2|exact H3].
Defined.

(** C4 (the code stops one call early). With the cap at 2 and a provider
    whose responses are all cut by the token limit, two [length]
    completions in a row end the session: it fails with the cap error when
    the completion of segment 1, the second call, arrives; there is no
    segment 2 and no third call, whatever happens later. The guard of
    [onFinish] compares the cap with [switches], which counts the first
    stream too, whereas the comment on [MAX_RESPONSE_SEGMENTS] gives it as
    the number of times the application asks the model to continue: the
    code asks once. *)
Theorem two_lengths_reach_cap convertToCoreMessages MODEL_LIST CONTINUE_PROMPT provider_ messages :
  alwaysLength provider_ ->
  exists s0,
    chatAction convertToCoreMessages MODEL_LIST provider_ messages = streamingResponse s0 /\
    let s := run convertToCoreMessages MODEL_LIST CONTINUE_PROMPT provider_ s0 [Finish; Resume; Finish] in
    phase s = Failed capError /\
    length (segments s) = 2 /\
    length (calls s) = 2 /\
    forall later,
      length (calls (run convertToCoreMessages MODEL_LIST CONTINUE_PROMPT provider_ s later)) = 2 /\
      length (segments (run convertToCoreMessages MODEL_LIST CONTINUE_PROMPT provider_ s later)) = 2.
Proof.
  intros always.
  destruct (always (streamText convertToCoreMessages MODEL_LIST chatOptions messages)) as (r & Hr & Hl & _).
  eexists. split; [by apply chatAction_started|].
  set (s0 := {| messages := messages |}).
  assert (Hinv0 : SessionInv provider_ s0).
  { eapply inv_chatAction. by apply chatAction_started. }
  destruct (finish_streaming convertToCoreMessages MODEL_LIST CONTINUE_PROMPT provider_ s0 r Hinv0 eq_refl Hl)
    as (Hsegs1 & _ & Hlt).
  destruct Hlt as [Hp1 Hcalls1]; [unfold MAX_RESPONSE_SEGMENTS; simpl; lia|].
  set (s1 := step convertToCoreMessages MODEL_LIST CONTINUE_PROMPT provider_ s0 Finish) in *.
  assert (Hinv1 : SessionInv provider_ s1) by (by apply inv_step).
  destruct (always (streamText convertToCoreMessages MODEL_LIST chatOptions
              (messages ++ [assistantText (text r); userText CONTINUE_PROMPT])))
    as (r1 & Hr1 & Hl1 & _).
  simpl in Hp1. rewrite Hr1 in Hp1.
  destruct (resume_continuing convertToCoreMessages MODEL_LIST CONTINUE_PROMPT provider_ s1 r1 Hinv1 Hp1)
    as (Hp2 & Hsegs2 & Hcalls2).
  set (s2 := step convertToCoreMessages MODEL_LIST CONTINUE_PROMPT provider_ s1 Resume) in *.
  assert (Hinv2 : SessionInv provider_ s2) by (by apply inv_step).
  destruct (finish_streaming convertToCoreMessages MODEL_LIST CONTINUE_PROMPT provider_ s2 r1 Hinv2 Hp2 Hl1)
    as (Hsegs3 & Hmax & _).
  assert (Hlen2 : length (segments s2) = 2) by (by rewrite Hsegs2, Hsegs1).
  destruct Hmax as [Hp3 Hcalls3]; [by rewrite Hlen2|].
  change (run convertToCoreMessages MODEL_LIST CONTINUE_PROMPT provider_ s0 [Finish; Resume; Finish])
    with (step convertToCoreMessages MODEL_LIST CONTINUE_PROMPT provider_ s2 Finish).
  set (s3 := step convertToCoreMessages MODEL_LIST CONTINUE_PROMPT provider_ s2 Finish) in *.
  assert (Hc3 : length (calls s3) = 2) by (by rewrite Hcalls3, Hcalls2, Hcalls1).
  split; [done|]. split; [by rewrite Hsegs3|]. split; [done|].
  intros later.
  destruct (failed_stays convertToCoreMessages MODEL_LIST CONTINUE_PROMPT provider_ s3 capError later Hp3)
    as (_ & -> & ->).
  by rewrite Hsegs3.
Qed.

Lemma two_lengths_reach_cap_witness :
  alwaysLength truncating /\
  exists s0,
    chatAction dropToolTurns staticModels truncating [userText (js "Hello")] = streamingResponse s0 /\
    let s := run dropToolTurns staticModels continuePrompt truncating s0 [Finish; Resume; Finish] in
    phase s = Failed capError /\ length (segments s) = 2 /\ length (calls s) = 2 /\
    length (calls (run dropToolTurns staticModels continuePrompt truncating s [Resume; Finish; Resume])) = 2.
Proof.
  assert (H : alwaysLength truncating).
  { intros call. eexists. split; [reflexivity|]. split; [reflexivity|discriminate]. }
  split; [exact H|].
  destruct (two_lengths_reach_cap dropToolTurns staticModels continuePrompt truncating
              [userText (js "Hello")] H) as (s0 & Hs0 & H1 & H2 & H3 & H4).
  exists s0. split; [exact Hs0|]. split; [exact H1|]. split; [exact H2|]. split; [exact H3|].
  apply H4.
Defined.

(** C4 at the claim's input: the third [length] completion never comes,
    because the session has failed at the second, with two calls made. *)
Lemma no_third_call :
  exists s0,
    chatAction dropToolTurns staticModels truncating [userText (js "Hello")] = streamingResponse s0 /\
    let s := run dropToolTurns staticModels continuePrompt truncating s0 [Finish; Resume; Finish] in
    let s' := run dropToolTurns staticModels continuePrompt truncating s [Resume; Finish; Resume; Finish] in
    phase s = Failed capError /\
    length (segments s) = 2 /\ length (calls s) = 2 /\
    phase s' = Failed capError /\
    length (segments s') = 2 /\ length (calls s') = 2 /\
    length (calls s') <> 3.
Proof.
  eexists. split; [reflexivity|]. vm_compute. repeat split; try reflexivity. discriminate.
Qed.

(** C1 (the code re-resolves the pair). The continuation call runs
    [streamText] again on the extended messages, whose latest user turn is
    the continuation instruction. That turn carries no directive, so the
    call for segment 1 uses the default model and the provider the list
    gives for it, whatever pair the call for segment 0 used. *)
Theorem continuation_call_uses_default convertToCoreMessages ollamaModels openAiLikeModels
    CONTINUE_PROMPT provider_ conversation r0 :
  let MODEL_LIST := initializeModelList ollamaModels openAiLikeModels in
  ~ carriesDirective (userText CONTINUE_PROMPT) ->
  provider_ (streamText convertToCoreMessages MODEL_LIST chatOptions conversation) = responds r0 ->
  finishReason r0 = reason_length ->
  exists s call1,
    session convertToCoreMessages MODEL_LIST CONTINUE_PROMPT provider_ conversation [Finish] = Some s /\
    calls s = [streamText convertToCoreMessages MODEL_LIST chatOptions conversation; call1] /\
    call1 = streamText convertToCoreMessages MODEL_LIST chatOptions
              (conversation ++ [assistantText (text r0); userText CONTINUE_PROMPT]) /\
    processedMessages MODEL_LIST
      (conversation ++ [assistantText (text r0); userText CONTINUE_PROMPT])
      !! S (length conversation) = Some (userText CONTINUE_PROMPT) /\
    callModel call1 = DEFAULT_MODEL /\
    callProvider call1 = providerOf MODEL_LIST DEFAULT_MODEL.
Proof.
  intros MODEL_LIST Hprompt Hr0 Hl.
  unfold session. rewrite (chatAction_started _ _ _ _ _ Hr0).
  set (s0 := {| messages := conversation |}).
  assert (Hinv0 : SessionInv provider_ s0).
  { eapply inv_chatAction. by apply chatAction_started. }
  destruct (finish_streaming convertToCoreMessages MODEL_LIST CONTINUE_PROMPT provider_ s0 r0 Hinv0 eq_refl Hl)
    as (_ & _ & Hlt).
  destruct Hlt as [_ Hcalls]; [unfold MAX_RESPONSE_SEGMENTS; simpl; lia|].
  eexists. eexists. split; [reflexivity|]. split; [exact Hcalls|].
  cbn [messages s0]. split; [done|].
  replace (conversation ++ [assistantText (text r0); userText CONTINUE_PROMPT])
    with ((conversation ++ [assistantText (text r0)]) ++ userText CONTINUE_PROMPT :: [])
    by (by rewrite <- app_assoc).
  assert (Hlatest : latestUserTurn (userText CONTINUE_PROMPT) [])
    by (split; [done|constructor]).
  destruct (latest_turn_without_directive convertToCoreMessages chatOptions
              ollamaModels openAiLikeModels
              (conversation ++ [assistantText (text r0)]) _ [] Hlatest Hprompt)
    as (Hm & Hp & _).
  destruct (streamText_latest convertToCoreMessages chatOptions MODEL_LIST
              (conversation ++ [assistantText (text r0)])
              (userText CONTINUE_PROMPT) []) as (_ & Hc & _); [constructor|].
  split; [|done].
  rewrite length_app, Nat.add_1_r in Hc. rewrite Hc. f_equal.
  unfold processMessage. cbn [role userText].
  unfold extractModelFromMessage. cbn [content userText].
  by rewrite (no_directive_regex _ Hprompt).
Qed.

Lemma continuation_call_uses_default_witness :
  let messages := [userText (withDirective (js "gpt-4o") (js "Hello"))] in
  ~ carriesDirective (userText continuePrompt) /\
  exists s,
    session dropToolTurns staticModels continuePrompt truncating messages [Finish] = Some s /\
    route <$> calls s =
    [(js "OpenAI", js "gpt-4o"); (js "Anthropic", js "claude-3-5-sonnet-20240620")].
Proof.
  intros messages.
  assert (H : ~ carriesDirective (userText continuePrompt))
    by (apply text_carries_no_directive; reflexivity).
  split; [exact H|].
  destruct (continuation_call_uses_default dropToolTurns [] [] continuePrompt truncating
              messages _ H eq_refl eq_refl) as (s & call1 & Hs & Hcalls & _ & _ & Hm & Hp).
  exists s. split; [exact Hs|].
  rewrite Hcalls. simpl. unfold route at 2. rewrite Hm, Hp. reflexivity.
Defined.




(** After [close], whatever the order of events: the session stays done,
    and the readable side is errored only by the [TypeError] of an
    [enqueue] that came too late, for a chunk the loop of the pump held
    when [close] was called. *)
Lemma done_output convertToCoreMessages MODEL_LIST CONTINUE_PROMPT provider_
    (chunkHeld : Prop) later : forall s sts c pump,
  phase s = Done ->
  heap s = sessionHeap sts canceledSource c pump ->
  closeRequested c = true ->
  (forall e, pump <> holds (rejected e)) ->
  (forall e, readableState c = errored e -> e = enqueueError /\ chunkHeld) ->
  (held pump <> [] -> chunkHeld) ->
  let s' := run convertToCoreMessages MODEL_LIST CONTINUE_PROMPT provider_ s later in
  exists c', _controller (heap s') = Some c' /\
    forall e, readableState c' = errored e -> e = enqueueError /\ chunkHeld.
Proof.
  induction later as [|ev later IH]; intros s sts c pump Hphase Hh Hcr Hrej Herr Hheld.
  { cbn. exists c. by rewrite Hh. }
  cbn [run fold_left]. destruct ev; cbn [step]; rewrite ?Hphase.
  - destruct pump as [| |r0].
    + apply (IH _ sts c idle); cbn; try done.
      by rewrite Hh, pumpRead_not_reading.
    + apply (IH _ sts c (holds done)); cbn; try done.
      by rewrite Hh, pumpRead_canceled.
    + apply (IH _ sts c (holds r0)); cbn; try done.
      by rewrite Hh, pumpRead_not_reading.
  - destruct pump as [| |[v| |e|]].
    + apply (IH _ sts c idle); cbn; try done. by rewrite Hh.
    + apply (IH _ sts c reading); cbn; try done. by rewrite Hh.
    + apply (IH _ sts (errorController enqueueError c) idle); cbn; try done.
      * rewrite Hh, pumpTurn_value_refused; [done|]. unfold canCloseOrEnqueue. by rewrite Hcr.
      * unfold errorController. by destruct (readableState c).
      * intros e. unfold errorController.
        destruct (readableState c) eqn:Hr; cbn; rewrite ?Hr; [|done|by apply Herr].
        intros [= <-]. split; [done|]. by apply Hheld.
    + apply (IH _ sts c idle); cbn; try done. by rewrite Hh.
    + by destruct (Hrej e).
    + apply (IH _ sts c reading); cbn; try done. by rewrite Hh.
  - apply (IH _ sts (consumerRead c) pump); cbn; try done.
    + by rewrite Hh.
    + by rewrite consumerRead_closeRequested.
    + intros e He. apply Herr. unfold consumerRead in He.
      destruct (queue c) as [|v q]; [done|]. cbn in He.
      destruct q; [|done]. by rewrite Hcr in He.
  - by apply (IH _ sts c pump).
  - by apply (IH _ sts c pump).
Qed.

(** C7 (amended). When the completion of a segment arrives with stop
    reason [error], [onFinish] does what it does for every reason other
    than [length]: it closes the stream. The session is done, not failed,
    and stays so; the readable side is terminated, so that a consumer who
    reads on gets what is queued and then a normal end of stream; nothing
    the consumer has read is taken back. No error is signalled for the
    stop reason: whatever happens later, the readable side is errored only
    when the loop of the pump held a chunk that it had read and not yet
    enqueued when [close] was called, and then with the [TypeError] of the
    late [enqueue]. *)
Theorem error_reason_closes_normally convertToCoreMessages MODEL_LIST CONTINUE_PROMPT provider_
    conversation schedule s r :
  session convertToCoreMessages MODEL_LIST CONTINUE_PROMPT provider_ conversation schedule
  = Some s ->
  phase s = Streaming r ->
  finishReason r = reason_error ->
  let s' := step convertToCoreMessages MODEL_LIST CONTINUE_PROMPT provider_ s Finish in
  phase s' = Done /\
  calls s' = calls s /\
  (exists c,
     _controller (heap s) = Some c /\
     _controller (heap s') = Some (terminateController c) /\
     closeRequested (terminateController c) = true /\
     readableState (consumeAll (terminateController c)) = closed /\
     delivered (consumeAll (terminateController c)) = delivered c ++ queue c) /\
  forall later,
    let s'' := run convertToCoreMessages MODEL_LIST CONTINUE_PROMPT provider_ s' later in
    phase s'' = Done /\
    deliveredOf (heap s) `prefix_of` deliveredOf (heap s'') /\
    exists c'', _controller (heap s'') = Some c'' /\
      forall e, readableState c'' = errored e ->
        e = enqueueError /\ held (pumping (heap s)) <> [].
Proof.
  intros Hs Hphase Hreason s'. apply inv_session in Hs.
  destruct Hs as
    [sts st c pump segs r0 ps p tail Hh Hsegs Hlen Hps Hout Hp Htail Hcap Hfrom Hcount Hheap].
  rewrite Hphase in Hheap. destruct Hheap as (Hopen & Hst & Hpump).
  assert (Hs' : s' = {| messages := messages s;
                        heap := sessionHeap sts canceledSource (terminateController c) pump;
                        calls := calls s; segments := segments s; phase := Done |}).
  { unfold s'. simpl. rewrite Hphase. unfold onFinish. rewrite Hreason. cbn [negb bool_decide].
    by rewrite Hh, close_sessionHeap, Hst. }
  destruct (terminateController_open c Hopen) as (Hcr & Hd & _ & Hne).
  clearbody s'. subst s'. cbn [phase calls heap].
  split; [done|]. split; [done|]. split.
  - exists c. rewrite Hh. split; [done|]. split; [done|]. split; [done|].
    unfold consumeAll, terminateController. rewrite Hopen. cbn [queue].
    rewrite consume_closing. done.
  - intros later. cbn zeta. split; [by apply done_stays|]. split.
    + etrans; [|apply run_delivered]. rewrite Hh. cbn. by rewrite Hd.
    + rewrite Hh. cbn [sessionHeap pumping].
      apply (done_output _ _ _ _ _ later _ sts (terminateController c) pump); cbn; try done.
      * intros e. by destruct Hpump as [->|[v ->]].
      * intros e He. by destruct (Hne e).
Qed.

Lemma error_reason_closes_normally_witness :
  let provider_ : Provider := fun _ =>
    responds {| chunks := [js "a"; js "b"]; finishReason := reason_error |} in
  exists s,
    session dropToolTurns staticModels continuePrompt provider_ [userText (js "Hello")]
      [PumpRead; PumpTurn] = Some s /\
    let s' := step dropToolTurns staticModels continuePrompt provider_ s Finish in
    let s'' := run dropToolTurns staticModels continuePrompt provider_ s'
                 [PumpRead; PumpTurn; ConsumerRead] in
    phase s' = Done /\
    phase s'' = Done /\
    deliveredOf (heap s) `prefix_of` deliveredOf (heap s'') /\
    exists c'', _controller (heap s'') = Some c'' /\
                forall e, readableState c'' <> errored e.
Proof.
  intros provider_. eexists. split; [reflexivity|].
  destruct (error_reason_closes_normally dropToolTurns staticModels continuePrompt provider_
              [userText (js "Hello")] [PumpRead; PumpTurn] _
              {| chunks := [js "a"; js "b"]; finishReason := reason_error |}
              eq_refl eq_refl eq_refl) as (H1 & _ & _ & H3).
  split; [exact H1|].
  destruct (H3 [PumpRead; PumpTurn; ConsumerRead]) as (H4 & H5 & c'' & H6 & H7).
  split; [exact H4|]. split; [exact H5|].
  exists c''. split; [exact H6|].
  intros e He. destruct (H7 e He) as [_ H]. apply H. reflexivity.
Defined.

(** C7, as stated, fails: after stop reason [error] the session is done
    and the output ends with a normal end of stream. *)
Lemma error_reason_ends_stream_normally :
  let provider_ : Provider := fun _ =>
    responds {| chunks := [js "a"]; finishReason := reason_error |} in
  exists s,
    session dropToolTurns staticModels continuePrompt provider_ [userText (js "Hello")]
      [PumpRead; PumpTurn; Finish; ConsumerRead] = Some s /\
    phase s = Done /\
    _controller (heap s) =
      Some {| delivered := [js "a"]; queue := []; closeRequested := true;
              readableState := closed |} /\
    ~ (exists e, phase s = Failed e) /\
    ~ (exists c e, _controller (heap s) = Some c /\ readableState c = errored e).
Proof.
  eexists. split; [reflexivity|]. vm_compute.
  split; [reflexivity|]. split; [reflexivity|]. split.
  - by intros [e H].
  - intros (c & e & [= <-] & H). discriminate.
Qed.

(** The case C7 (amended) sets apart: [close] is called while the loop of
    the pump holds a chunk. The chunk is lost, and as a chunk is still
    queued the late [enqueue] errors the readable side. *)
Lemma late_enqueue_errors_output :
  let provider_ : Provider := fun _ =>
    responds {| chunks := [js "a"; js "b"]; finishReason := reason_error |} in
  exists s,
    session dropToolTurns staticModels continuePrompt provider_ [userText (js "Hello")]
      [PumpRead; PumpTurn; PumpRead; Finish; PumpTurn] = Some s /\
    phase s = Done /\
    _controller (heap s) =
      Some {| delivered := []; queue := []; closeRequested := true;
              readableState := errored enqueueError |}.
Proof. eexists. split; [reflexivity|]. by vm_compute. Qed.

(** * Further properties of the code *)

(** ** The directive parser and the routing *)

(** X1. [extractModelFromMessage] and the directive syntax are inverse to
    each other. A content that is [[Model: X]], a blank line and [rest],
    with [X] on one line, is taken apart into [X] and [rest], so the two
    parts are determined by the content; a content that carries a
    directive is put together again from the two results; every other
    string content comes back whole with the default model; and a content
    that is no string gives the default model and the empty string. *)
Theorem extract_round_trip (m : CoreMessage) :
  (forall X rest,
     noLineTerminator X -> content m = Str (withDirective X rest) ->
     extractModelFromMessage m = (X, rest)) /\
  (forall s,
     content m = Str s -> carriesDirective m ->
     noLineTerminator (extractModelFromMessage m).1 /\
     withDirective (extractModelFromMessage m).1 (extractModelFromMessage m).2 = s) /\
  (forall s,
     content m = Str s -> ~ carriesDirective m ->
     extractModelFromMessage m = (DEFAULT_MODEL, s)) /\
  (forall ps, content m = Parts ps -> extractModelFromMessage m = (DEFAULT_MODEL, [])).
Proof.
  unfold extractModelFromMessage. split; [|split; [|split]].
  - intros X rest HX ->. by rewrite modelRegex_directive.
  - intros s Hs (X & rest & HX & Hc). rewrite Hs in Hc |- *. injection Hc as ->.
    by rewrite modelRegex_directive.
  - intros s Hs Hn. rewrite Hs.
    destruct (modelRegex s) as [[X rest]|] eqn:E; [|done].
    destruct Hn. apply modelRegex_inv in E as [-> HX]. exists X, rest. by rewrite Hs.
  - by intros ps ->.
Qed.

Lemma extract_round_trip_witness :
  extractModelFromMessage (userText (withDirective (js "a]b") (js "x]" ++ [LF; LF] ++ js "y")))
  = (js "a]b", js "x]" ++ [LF; LF] ++ js "y") /\
  extractModelFromMessage (userText (js " [Model: gpt-4o]" ++ [LF; LF]))
  = (DEFAULT_MODEL, js " [Model: gpt-4o]" ++ [LF; LF]).
Proof.
  split.
  - apply (extract_round_trip (userText (withDirective (js "a]b") (js "x]" ++ [LF; LF] ++ js "y")))).
    + repeat constructor.
    + reflexivity.
  - apply (extract_round_trip (userText (js " [Model: gpt-4o]" ++ [LF; LF]))).
    + reflexivity.
    + apply text_carries_no_directive. reflexivity.
Defined.

Lemma mapMessages_lookup MODEL_LIST messages : forall cur i m,
  messages !! i = Some m ->
  exists cur', (mapMessages MODEL_LIST cur messages).2 !! i
               = Some (processMessage MODEL_LIST cur' m).2.
Proof.
  induction messages as [|m0 messages IH]; intros cur i m Hi; [done|].
  simpl. destruct (processMessage MODEL_LIST cur m0) as [cur1 m0'] eqn:E0.
  specialize (IH cur1).
  destruct (mapMessages MODEL_LIST cur1 messages) as [cur2 rest'] eqn:E1.
  destruct i as [|i]; simpl in *.
  - injection Hi as <-. exists cur. by rewrite E0.
  - by apply IH.
Qed.

(** X2. [streamText] gives to the SDK's conversion as many messages as it
    got, in the same order and with the same roles: a message of another
    role than [user] as it is, a user message with the content
    [extractModelFromMessage] returns for it, as a string. What it forwards
    is the result of the conversion, so with a conversion that passes user
    turns on the provider gets these user turns. The token limit of the
    call is [MAX_TOKENS] unless the options of the caller give one, which
    then stands. *)
Theorem streamText_keeps_shape convertToCoreMessages options MODEL_LIST (messages : Messages) :
  let call := streamText convertToCoreMessages MODEL_LIST options messages in
  let processed := processedMessages MODEL_LIST messages in
  callMessages call = convertToCoreMessages processed /\
  (keepsUserTurns convertToCoreMessages ->
   userTurns (callMessages call) = userTurns processed) /\
  (maxTokens options = None -> callMaxTokens call = MAX_TOKENS) /\
  (forall n, maxTokens options = Some n -> callMaxTokens call = n) /\
  length processed = length messages /\
  forall i m,
    messages !! i = Some m ->
    exists m',
      processed !! i = Some m' /\
      role m' = role m /\
      (role m <> user -> m' = m) /\
      (role m = user -> content m' = Str (extractModelFromMessage m).2).
Proof.
  intros call processed.
  split; [apply streamText_messages|]. split.
  { intros Hk. unfold call. by rewrite streamText_messages, Hk. }
  unfold call, processed, streamText, processedMessages.
  pose proof (mapMessages_length MODEL_LIST DEFAULT_MODEL messages) as Hlen.
  pose proof (mapMessages_lookup MODEL_LIST messages DEFAULT_MODEL) as Hlook.
  destruct (mapMessages MODEL_LIST DEFAULT_MODEL messages) as [cur processed']. simpl in *.
  split; [by intros ->|]. split; [by intros n ->|]. split; [done|].
  intros i m Hi. destruct (Hlook i m Hi) as [cur' ->].
  eexists. split; [done|].
  unfold processMessage. destruct (role m) eqn:Hr;
    try (by destruct (extractModelFromMessage m)); simpl; by rewrite ?Hr.
Qed.

Lemma mapMessages_model_known MODEL_LIST messages : forall cur,
  (cur = DEFAULT_MODEL \/ (cur <> [] /\ knownModel MODEL_LIST cur)) ->
  let cur' := (mapMessages MODEL_LIST cur messages).1 in
  cur' = DEFAULT_MODEL \/ (cur' <> [] /\ knownModel MODEL_LIST cur').
Proof.
  induction messages as [|m messages IH]; intros cur Hcur; [done|].
  simpl. destruct (processMessage MODEL_LIST cur m) as [cur1 m'] eqn:E.
  specialize (IH cur1).
  destruct (mapMessages MODEL_LIST cur1 messages) as [cur2 rest']. simpl in *.
  apply IH. unfold processMessage in E. destruct (role m); try (by injection E as <- _).
  destruct (extractModelFromMessage m) as [model content'].
  injection E as <- _.
  destruct (truthy model) eqn:Ht; [|done]. simpl.
  destruct (bool_decide (is_Some (findModel MODEL_LIST model))) eqn:Hk; [|done].
  apply bool_decide_eq_true in Hk. apply findModel_known in Hk.
  right. split; [by destruct model|done].
Qed.

(** X3. Whatever the conversation, [streamText] routes to the default
    model or to a model of the list with a name that is not empty, never
    to an identifier it does not know; after [initializeModelList] the
    routed model is always in the list. The provider is never the empty
    string: it is the provider of the first list entry with the name of the
    routed model, or the default provider. *)
Theorem routed_model_is_known convertToCoreMessages options MODEL_LIST (messages : Messages) :
  let call := streamText convertToCoreMessages MODEL_LIST options messages in
  (callModel call = DEFAULT_MODEL \/
   (callModel call <> [] /\ knownModel MODEL_LIST (callModel call))) /\
  (forall ollamaModels openAiLikeModels,
     MODEL_LIST = initializeModelList ollamaModels openAiLikeModels ->
     knownModel MODEL_LIST (callModel call)) /\
  callProvider call <> [] /\
  (callProvider call = DEFAULT_PROVIDER \/
   exists m, findModel MODEL_LIST (callModel call) = Some m /\
             provider m = callProvider call).
Proof.
  intros call.
  assert (Hm : callModel call = DEFAULT_MODEL \/
               (callModel call <> [] /\ knownModel MODEL_LIST (callModel call))).
  { pose proof (mapMessages_model_known MODEL_LIST messages DEFAULT_MODEL (or_introl eq_refl))
      as H.
    unfold call, streamText.
    by destruct (mapMessages MODEL_LIST DEFAULT_MODEL messages). }
  assert (Hp : callProvider call = providerOf MODEL_LIST (callModel call)).
  { unfold call, streamText. by destruct (mapMessages MODEL_LIST DEFAULT_MODEL messages). }
  split; [done|]. split; [|split].
  - intros o a ->. destruct Hm as [->|[_ Hk]]; [|done].
    apply findModel_known, default_model_known.
  - rewrite Hp. unfold providerOf.
    destruct (findModel MODEL_LIST (callModel call)) as [m|]; [|done].
    by destruct (provider m).
  - rewrite Hp. unfold providerOf.
    destruct (findModel MODEL_LIST (callModel call)) as [m|]; [|by left].
    destruct (truthy (provider m)); [|by left]. right. by exists m.
Qed.

Lemma mapMessages_from_selecting_turn MODEL_LIST m post cur1 cur2 :
  role m = user ->
  (extractModelFromMessage m).1 <> [] ->
  knownModel MODEL_LIST (extractModelFromMessage m).1 ->
  mapMessages MODEL_LIST cur1 (m :: post) = mapMessages MODEL_LIST cur2 (m :: post).
Proof.
  intros Hu Hne Hk. simpl. unfold processMessage. rewrite Hu.
  destruct (extractModelFromMessage m) as [model content']. simpl in *.
  apply findModel_known in Hk. rewrite (bool_decide_eq_true_2 _ Hk).
  by destruct model.
Qed.

(** X4. A user turn that selects a model of the list, by a directive or,
    the default model being in the list, by having none, cuts the
    conversation for the routing: the model and the provider of the call
    are those of the conversation that starts at this turn, whatever the
    turns before it say. *)
Theorem selecting_turn_decides convertToCoreMessages options MODEL_LIST (pre : Messages) m (post : Messages) :
  role m = user ->
  (extractModelFromMessage m).1 <> [] ->
  knownModel MODEL_LIST (extractModelFromMessage m).1 ->
  route (streamText convertToCoreMessages MODEL_LIST options (pre ++ m :: post)) = route (streamText convertToCoreMessages MODEL_LIST options (m :: post)).
Proof.
  intros Hu Hne Hk. unfold route, streamText. rewrite mapMessages_app.
  destruct (mapMessages MODEL_LIST DEFAULT_MODEL pre) as [cur1 pre'].
  rewrite (mapMessages_from_selecting_turn MODEL_LIST m post cur1 DEFAULT_MODEL Hu Hne Hk).
  by destruct (mapMessages MODEL_LIST DEFAULT_MODEL (m :: post)).
Qed.

Lemma selecting_turn_decides_witness :
  route (streamText dropToolTurns staticModels chatOptions
           [userText (withDirective (js "gpt-4o") (js "Hi")); assistantText (js "Hey");
            userText (js "more")])
  = (js "Anthropic", js "claude-3-5-sonnet-20240620").
Proof.
  refine (eq_trans (selecting_turn_decides dropToolTurns chatOptions staticModels
             [userText (withDirective (js "gpt-4o") (js "Hi")); assistantText (js "Hey")]
             (userText (js "more")) [] _ _ _) _).
  - reflexivity.
  - discriminate.
  - apply findModel_known. vm_compute. eauto.
  - reflexivity.
Defined.

(** ** Keys, base URLs and clients *)

Lemma matchLiteral_prefix pattern s :
  is_Some (matchLiteral pattern s) <-> pattern `prefix_of` s.
Proof.
  split.
  - intros [r Hr]. apply matchLiteral_inv in Hr. by exists r.
  - intros [r ->]. rewrite matchLiteral_app. by eexists.
Qed.

Lemma replaceFirst_eq pattern replacement s :
  replaceFirst pattern replacement s =
  match matchLiteral pattern s with
  | Some rest => replacement ++ rest
  | None =>
      match s with
      | [] => []
      | c :: s' => c :: replaceFirst pattern replacement s'
      end
  end.
Proof. by destruct s. Qed.

(** [replace] with a string pattern rewrites the first occurrence. *)
Lemma replaceFirst_first pattern replacement a b :
  (forall i, i < length a -> ~ occursAt pattern (a ++ pattern ++ b) i) ->
  replaceFirst pattern replacement (a ++ pattern ++ b) = a ++ replacement ++ b.
Proof.
  induction a as [|c a IH]; intros Hfirst.
  - cbn [app]. by rewrite replaceFirst_eq, matchLiteral_app.
  - cbn [app replaceFirst].
    destruct (matchLiteral pattern (c :: a ++ pattern ++ b)) as [r|] eqn:E.
    + destruct (Hfirst 0); [simpl; lia|].
      unfold occursAt. simpl. apply matchLiteral_prefix. by eexists.
    + rewrite IH; [done|].
      intros i Hi Hocc. apply (Hfirst (S i)); [simpl; lia|]. done.
Qed.

Lemma replaceFirst_absent pattern replacement s :
  (forall i, ~ occursAt pattern s i) -> replaceFirst pattern replacement s = s.
Proof.
  induction s as [|c s IH]; intros Habs.
  - simpl. destruct (matchLiteral pattern []) eqn:E; [|done].
    destruct (Habs 0). apply matchLiteral_prefix. by eexists.
  - cbn [replaceFirst].
    destruct (matchLiteral pattern (c :: s)) as [r|] eqn:E.
    + destruct (Habs 0). apply matchLiteral_prefix. by eexists.
    + rewrite IH; [done|]. intros i Hocc. by apply (Habs (S i)).
Qed.

Lemma getBaseURL_ollama (env cloudflareEnv : gmap string jsstring) :
  getBaseURL env cloudflareEnv (js "Ollama") =
  if bool_decide (env !! "RUNNING_IN_DOCKER" = Some (js "true"))
  then replaceFirst (js "localhost") (js "host.docker.internal")
         (configuredOllamaUrl env cloudflareEnv)
  else configuredOllamaUrl env cloudflareEnv.
Proof. reflexivity. Qed.

(** X5. The base URL of Ollama on the server side. Without the flag
    [RUNNING_IN_DOCKER] set to ['true'] in [process.env], [getBaseURL] gives
    the configured URL as it is; a flag in the Cloudflare environment does
    not count. With the flag, the first occurrence of [localhost] in the
    configured URL, and only the first, is replaced by
    [host.docker.internal], and a URL without [localhost] is left as it
    is. *)
Theorem ollama_base_url_in_docker (env cloudflareEnv : gmap string jsstring) :
  let configured := configuredOllamaUrl env cloudflareEnv in
  let url := getBaseURL env cloudflareEnv (js "Ollama") in
  (env !! "RUNNING_IN_DOCKER" <> Some (js "true") -> url = configured) /\
  (env !! "RUNNING_IN_DOCKER" = Some (js "true") ->
   (forall a b,
      configured = a ++ js "localhost" ++ b ->
      (forall i, i < length a -> ~ occursAt (js "localhost") configured i) ->
      url = a ++ js "host.docker.internal" ++ b) /\
   ((forall i, ~ occursAt (js "localhost") configured i) -> url = configured)).
Proof.
  intros configured url. unfold url. rewrite getBaseURL_ollama. fold configured.
  split.
  - intros H. by rewrite bool_decide_eq_false_2.
  - intros H. rewrite (bool_decide_eq_true_2 _ H). split.
    + intros a b Hc Hfirst. rewrite Hc in Hfirst |- *. by apply replaceFirst_first.
    + apply replaceFirst_absent.
Qed.

Lemma ollama_base_url_in_docker_witness :
  let env : gmap string jsstring :=
    {[ "RUNNING_IN_DOCKER" := js "true";
       "OLLAMA_API_BASE_URL" := js "http://localhost:11434/localhost" ]} in
  let cf : gmap string jsstring := {[ "RUNNING_IN_DOCKER" := js "true" ]} in
  getBaseURL env ∅ (js "Ollama") = js "http://host.docker.internal:11434/localhost" /\
  getBaseURL ∅ cf (js "Ollama") = js "http://localhost:11434".
Proof.
  intros env cf. split.
  - destruct (ollama_base_url_in_docker env ∅) as [_ H].
    destruct H as [H _]; [reflexivity|].
    apply (H (js "http://") (js ":11434/localhost")); [reflexivity|].
    intros i Hi [k Hk]. simpl in Hi.
    do 7 (destruct i as [|i]; [vm_compute in Hk; discriminate|]). lia.
  - destruct (ollama_base_url_in_docker ∅ cf) as [H _]. apply H. discriminate.
Defined.

(** X6. The two places that compute the base URL of Ollama agree on the
    server side when [import.meta.env] and [process.env] hold the same
    value and that value is not the empty string, and then the discovery
    and the calls talk to the same server. They differ on the empty
    string: [getOllamaBaseUrl], with [||], falls back to the default URL,
    while [getBaseURL], with [??], keeps the empty string. In a browser
    [getOllamaBaseUrl] never rewrites the URL for Docker. *)
Theorem ollama_base_urls_compared (importMetaEnv env cloudflareEnv : gmap string jsstring)
    (v : option jsstring) :
  importMetaEnv !! "OLLAMA_API_BASE_URL" = v ->
  env !! "OLLAMA_API_BASE_URL" = v ->
  (v = None -> cloudflareEnv !! "OLLAMA_API_BASE_URL" = None) ->
  (v <> Some [] ->
   getOllamaBaseUrl importMetaEnv env false = getBaseURL env cloudflareEnv (js "Ollama")) /\
  (v = Some [] ->
   getBaseURL env cloudflareEnv (js "Ollama") = [] /\
   getOllamaBaseUrl importMetaEnv env false <> []) /\
  getOllamaBaseUrl importMetaEnv env true = orElse v ollamaDefaultBaseUrl.
Proof.
  intros Hi He Hc. rewrite getBaseURL_ollama.
  unfold getOllamaBaseUrl, configuredOllamaUrl. rewrite Hi, He.
  split; [|split; [|done]].
  - intros Hv. destruct v as [[|c x]|]; [done| |].
    + done.
    + by rewrite (Hc eq_refl).
  - intros ->. simpl. split.
    + by destruct (bool_decide _).
    + by destruct (bool_decide _).
Qed.

Lemma ollama_base_urls_compared_witness :
  let set : gmap string jsstring := {[ "OLLAMA_API_BASE_URL" := js "http://10.0.0.5:11434" ]} in
  let empty : gmap string jsstring := {[ "OLLAMA_API_BASE_URL" := [] ]} in
  getOllamaBaseUrl set set false = getBaseURL set ∅ (js "Ollama") /\
  getBaseURL empty ∅ (js "Ollama") = [] /\
  getOllamaBaseUrl empty empty false <> [].
Proof.
  intros set empty. split.
  - destruct (ollama_base_urls_compared set set ∅ (Some (js "http://10.0.0.5:11434")))
      as (H & _ & _); [reflexivity|reflexivity|discriminate|].
    apply H. discriminate.
  - destruct (ollama_base_urls_compared empty empty ∅ (Some []))
      as (_ & H & _); [reflexivity|reflexivity|discriminate|].
    apply H. reflexivity.
Defined.

Lemma not_api_provider provider :
  ~ In provider apiProviders ->
  provider <> js "Anthropic" /\ provider <> js "OpenAI" /\ provider <> js "Google" /\
  provider <> js "Groq" /\ provider <> js "OpenRouter" /\ provider <> js "Deepseek" /\
  provider <> js "Mistral" /\ provider <> js "OpenAILike" /\ provider <> js "xAI".
Proof.
  intros H. unfold apiProviders in H. cbn [In] in H.
  repeat split; intros ->; apply H; auto 20.
Qed.

(** X7. A provider name that is none of the nine names of the switch,
    whatever its spelling, gets no key from [getAPIKey] and the Ollama
    client from [getModel], without any error. For the name [Ollama] the
    base URL is the configured one followed by [/api]; for every other
    such name it is just [/api]. *)
Theorem unknown_provider_gets_ollama (env cloudflareEnv : gmap string jsstring)
    (provider model : jsstring) :
  ~ In provider apiProviders ->
  getAPIKey env cloudflareEnv provider = None /\
  getModel env cloudflareEnv provider model
  = getOllamaModel (getBaseURL env cloudflareEnv provider) model /\
  (provider <> js "Ollama" ->
   getModel env cloudflareEnv provider model
   = {| client := ollama; apiKey := None; baseURL := Some (js "/api"); modelId := model |}).
Proof.
  intros H. apply not_api_provider in H as (H1 & H2 & H3 & H4 & H5 & H6 & H7 & H8 & H9).
  unfold getAPIKey, getModel, getBaseURL.
  rewrite !bool_decide_eq_false_2 by done.
  split; [done|]. split; [done|].
  intros Hn. by rewrite bool_decide_eq_false_2.
Qed.

Lemma unknown_provider_gets_ollama_witness :
  let env : gmap string jsstring := {[ "ANTHROPIC_API_KEY" := js "sk-1" ]} in
  getAPIKey env ∅ (js "anthropic") = None /\
  getModel env ∅ (js "anthropic") (js "claude-3-opus-20240229")
  = {| client := ollama; apiKey := None; baseURL := Some (js "/api");
       modelId := js "claude-3-opus-20240229" |}.
Proof.
  intros env.
  assert (H : ~ In (js "anthropic") apiProviders).
  { unfold apiProviders. cbn [In]. intros H.
    repeat (destruct H as [H|H]; [vm_compute in H; discriminate|]). exact H. }
  destruct (unknown_provider_gets_ollama env ∅ (js "anthropic")
              (js "claude-3-opus-20240229") H) as (H1 & _ & H3).
  split; [exact H1|]. apply H3. discriminate.
Defined.

Lemma api_provider_cases provider :
  In provider apiProviders ->
  forall (env cloudflareEnv : gmap string jsstring) model,
    client (getModel env cloudflareEnv provider model) <> ollama /\
    apiKey (getModel env cloudflareEnv provider model)
    = Some (default [] (getAPIKey env cloudflareEnv provider)) /\
    modelId (getModel env cloudflareEnv provider model) = model.
Proof.
  unfold apiProviders. cbn [In]. intros H env cloudflareEnv model.
  repeat (destruct H as [<-|H]; [done|]). done.
Qed.

(** X8. For each of the nine provider names [getModel] makes a client
    that is not Ollama's, for the model it is given, and always with a key:
    the key [getAPIKey] finds, or the empty string when neither
    environment has one. A missing key is no error here. *)
Theorem known_provider_client (env cloudflareEnv : gmap string jsstring)
    (provider model : jsstring) :
  In provider apiProviders ->
  let lm := getModel env cloudflareEnv provider model in
  client lm <> ollama /\
  modelId lm = model /\
  apiKey lm = Some (default [] (getAPIKey env cloudflareEnv provider)) /\
  (getAPIKey env cloudflareEnv provider = None -> apiKey lm = Some []).
Proof.
  intros H lm.
  destruct (api_provider_cases provider H env cloudflareEnv model) as (H1 & H2 & H3).
  split; [done|]. split; [done|]. split; [done|].
  intros Hk. unfold lm. by rewrite H2, Hk.
Qed.

Lemma known_provider_client_witness :
  let lm := getModel ∅ ∅ (js "Groq") (js "llama-3.1-8b-instant") in
  client lm = openai /\
  baseURL lm = Some (js "https://api.groq.com/openai/v1") /\
  apiKey lm = Some [].
Proof.
  intros lm.
  assert (H : In (js "Groq") apiProviders) by (unfold apiProviders; cbn [In]; auto 10).
  destruct (known_provider_client ∅ ∅ (js "Groq") (js "llama-3.1-8b-instant") H)
    as (_ & _ & _ & H4).
  split; [reflexivity|]. split; [reflexivity|]. apply H4. reflexivity.
Defined.

(** X20. [process.env] comes first for every key. A key that
    [process.env] holds for a provider is the key [getAPIKey] returns,
    whatever the Cloudflare environment holds, also when it is the empty
    string; and only when [process.env] holds none does the Cloudflare
    environment decide. *)
Theorem process_env_key_first (env cloudflareEnv : gmap string jsstring)
    (provider : jsstring) :
  (forall k, getAPIKey env ∅ provider = Some k ->
             getAPIKey env cloudflareEnv provider = Some k) /\
  (getAPIKey env ∅ provider = None ->
   getAPIKey env cloudflareEnv provider = getAPIKey ∅ cloudflareEnv provider).
Proof.
  unfold getAPIKey.
  repeat (case_bool_decide;
          [rewrite !lookup_empty;
           match goal with |- context [nullish (env !! ?v)] => destruct (env !! v) end;
           cbn; by split|]).
  by split.
Qed.

Lemma streamText_provider_cases convertToCoreMessages options MODEL_LIST (messages : Messages) :
  let call := streamText convertToCoreMessages MODEL_LIST options messages in
  callProvider call = DEFAULT_PROVIDER \/
  exists m, In m MODEL_LIST /\ name m = callModel call /\ provider m = callProvider call.
Proof.
  intros call.
  assert (Hp : callProvider call = providerOf MODEL_LIST (callModel call)).
  { unfold call, streamText. by destruct (mapMessages MODEL_LIST DEFAULT_MODEL messages). }
  rewrite Hp. unfold providerOf, findModel.
  destruct (find _ MODEL_LIST) as [m|] eqn:E; [|by left].
  destruct (truthy (provider m)); [|by left].
  apply find_some in E as [Hin Hn]. apply bool_decide_eq_true in Hn. right. eauto.
Qed.

(** X9. With the static list as [MODEL_LIST], whatever the conversation:
    the call goes to one of the nine providers the switch of [getModel]
    knows, so never to the Ollama client, and the model the client is
    made for is a model of the static list. *)
Theorem static_list_never_ollama convertToCoreMessages options (messages : Messages)
    (env cloudflareEnv : gmap string jsstring) :
  let call := streamText convertToCoreMessages staticModels options messages in
  let lm := modelOfCall env cloudflareEnv call in
  In (callProvider call) apiProviders /\
  client lm <> ollama /\
  modelId lm = callModel call /\
  knownModel staticModels (modelId lm).
Proof.
  intros call lm.
  assert (Hin : In (callProvider call) apiProviders).
  { unfold call.
    destruct (streamText_provider_cases convertToCoreMessages options staticModels messages) as [->|(m & Hm & _ & <-)].
    - vm_compute. auto.
    - assert (Hall : Forall (fun m => In (provider m) apiProviders) staticModels).
      { unfold staticModels.
        repeat (apply List.Forall_cons; [vm_compute; auto 20|]). apply List.Forall_nil. }
      rewrite Forall_forall in Hall. apply Hall. by apply list_elem_of_In. }
  destruct (api_provider_cases _ Hin env cloudflareEnv (callModel call)) as (H1 & _ & H3).
  split; [done|]. split; [done|]. split; [done|].
  unfold lm, modelOfCall. rewrite H3.
  pose proof (mapMessages_model_known staticModels messages DEFAULT_MODEL (or_introl eq_refl))
    as H.
  unfold call, streamText.
  destruct (mapMessages staticModels DEFAULT_MODEL messages) as [cur ?]. simpl in *.
  destruct H as [->|[_ H]]; [|done].
  apply findModel_known. vm_compute. eauto.
Qed.

(** ** The discovery of local models, up to the call *)

(** X10. What [initializeModelList] can do to [MODEL_LIST]. The static
    list is always its tail and every static model stays known; what is
    put in front comes from the two services and carries the provider
    [Ollama] or [OpenAILike]; when both requests fail the list is the
    static list; and without a non-empty [OPENAI_LIKE_API_BASE_URL] the
    OpenAI-like service is not asked at all. *)
Theorem initialized_list_shape (fetchTags : jsstring -> option (list OllamaModel))
    (fetchModels : jsstring -> jsstring -> option (list jsstring))
    (importMetaEnv env : gmap string jsstring) (hasWindow : bool) :
  let MODEL_LIST := initializedModelList fetchTags fetchModels importMetaEnv env hasWindow in
  (exists discovered,
      MODEL_LIST = discovered ++ staticModels /\
      Forall (fun m => provider m = js "Ollama" \/ provider m = js "OpenAILike") discovered) /\
  (forall X, knownModel staticModels X -> knownModel MODEL_LIST X) /\
  ((forall url, fetchTags url = None) -> (forall url auth, fetchModels url auth = None) ->
   MODEL_LIST = staticModels) /\
  (orElse (importMetaEnv !! "OPENAI_LIKE_API_BASE_URL") [] = [] ->
   getOpenAILikeModels fetchModels importMetaEnv = []).
Proof.
  intros MODEL_LIST.
  assert (Ho : Forall (fun m => provider m = js "Ollama" \/ provider m = js "OpenAILike")
                 (getOllamaModels fetchTags importMetaEnv env hasWindow)).
  { unfold getOllamaModels. destruct (fetchTags _) as [models|]; [|constructor].
    apply Forall_forall. intros m Hm. apply list_elem_of_In, in_map_iff in Hm as (om & <- & _).
    by left. }
  assert (Hl : Forall (fun m => provider m = js "Ollama" \/ provider m = js "OpenAILike")
                 (getOpenAILikeModels fetchModels importMetaEnv)).
  { unfold getOpenAILikeModels. destruct (negb _); [constructor|].
    destruct (fetchModels _ _) as [ids|]; [|constructor].
    apply Forall_forall. intros m Hm. apply list_elem_of_In, in_map_iff in Hm as (om & <- & _).
    by right. }
  split; [|split; [|split]].
  - exists (getOllamaModels fetchTags importMetaEnv env hasWindow
            ++ getOpenAILikeModels fetchModels importMetaEnv).
    split.
    + unfold MODEL_LIST, initializedModelList, initializeModelList. by rewrite <- app_assoc.
    + by apply Forall_app.
  - intros X (m & Hm & Hn). exists m. split; [|done].
    unfold MODEL_LIST, initializedModelList, initializeModelList.
    apply in_or_app. right. apply in_or_app. by right.
  - intros Ht Hm. unfold MODEL_LIST, initializedModelList, initializeModelList.
    unfold getOllamaModels, getOpenAILikeModels. rewrite Ht.
    destruct (negb _); [done|]. by rewrite Hm.
  - intros Hb. unfold getOpenAILikeModels. by rewrite Hb.
Qed.

Lemma findModel_ollama models l om :
  In om models ->
  exists om', findModel (map ollamaModelInfo models ++ l) (ollamaName om)
              = Some (ollamaModelInfo om') /\ ollamaName om' = ollamaName om.
Proof.
  induction models as [|x models IH]; [done|]. intros Hin.
  unfold findModel. cbn [map app find].
  case_bool_decide as E.
  - exists x. by split.
  - destruct Hin as [->|Hin]; [done|]. by apply IH.
Qed.

Lemma getModel_ollama (env cloudflareEnv : gmap string jsstring) model :
  getModel env cloudflareEnv (js "Ollama") model
  = getOllamaModel (getBaseURL env cloudflareEnv (js "Ollama")) model.
Proof. reflexivity. Qed.

Lemma directive_selects convertToCoreMessages options MODEL_LIST pre X rest post :
  noLineTerminator X -> X <> [] -> is_Some (findModel MODEL_LIST X) ->
  Forall (fun x => role x <> user) post ->
  let call := streamText convertToCoreMessages MODEL_LIST options
                (pre ++ userText (withDirective X rest) :: post) in
  callModel call = X /\ callProvider call = providerOf MODEL_LIST X.
Proof.
  intros Hx Hne Hk Hpost call.
  destruct (streamText_latest convertToCoreMessages options MODEL_LIST pre
              (userText (withDirective X rest)) post Hpost)
    as (Hm & _ & _ & Hp).
  fold call in Hm, Hp.
  rewrite processMessage_directive in Hm by done.
  rewrite bool_decide_eq_true_2 in Hm by done.
  destruct X; [done|]. simpl in Hm. by rewrite Hp, Hm.
Qed.

(** X11. From the discovery to the call. A model that the Ollama server
    reported when [MODEL_LIST] was initialized can be selected by a
    directive in the latest user turn, and the call is then served by the
    Ollama client, without a key, at the base URL of [getBaseURL] followed
    by [/api]. This holds also when the name is the name of a static
    model: the discovered entry comes first. *)
Theorem discovered_ollama_model_is_served convertToCoreMessages options
    (fetchTags : jsstring -> option (list OllamaModel))
    (fetchModels : jsstring -> jsstring -> option (list jsstring))
    (importMetaEnv env cloudflareEnv : gmap string jsstring) (hasWindow : bool)
    (models : list OllamaModel) (om : OllamaModel)
    (pre post : Messages) (rest : jsstring) :
  fetchTags (getOllamaBaseUrl importMetaEnv env hasWindow ++ js "/api/tags") = Some models ->
  In om models ->
  noLineTerminator (ollamaName om) ->
  ollamaName om <> [] ->
  Forall (fun x => role x <> user) post ->
  let MODEL_LIST := initializedModelList fetchTags fetchModels importMetaEnv env hasWindow in
  let call :=
    streamText convertToCoreMessages MODEL_LIST options (pre ++ userText (withDirective (ollamaName om) rest) :: post) in
  callModel call = ollamaName om /\
  callProvider call = js "Ollama" /\
  modelOfCall env cloudflareEnv call
  = {| client := ollama; apiKey := None;
       baseURL := Some (getBaseURL env cloudflareEnv (js "Ollama") ++ js "/api");
       modelId := ollamaName om |}.
Proof.
  intros Hf Hin Hx Hne Hpost MODEL_LIST call.
  assert (Hfind : exists om', findModel MODEL_LIST (ollamaName om)
                              = Some (ollamaModelInfo om')).
  { unfold MODEL_LIST, initializedModelList, initializeModelList, getOllamaModels.
    rewrite Hf. destruct (findModel_ollama models
      (getOpenAILikeModels fetchModels importMetaEnv ++ staticModels) om Hin) as (om' & H & _).
    eauto. }
  destruct Hfind as (om' & Hfind).
  destruct (directive_selects convertToCoreMessages options MODEL_LIST pre (ollamaName om)
              rest post) as (Hm & Hp);
    [done|done|by rewrite Hfind|done|].
  fold call in Hm, Hp.
  assert (Hp' : callProvider call = js "Ollama").
  { rewrite Hp. unfold providerOf. by rewrite Hfind. }
  split; [done|]. split; [done|].
  unfold modelOfCall. by rewrite Hp', Hm, getModel_ollama.
Qed.

Lemma discovered_ollama_model_is_served_witness :
  let fetchTags := fun _ : jsstring =>
    Some [ {| ollamaName := js "gpt-4o"; parameter_size := js "7B" |} ] in
  let call :=
    streamText dropToolTurns (initializedModelList fetchTags (fun _ _ => None) ∅ ∅ false)
      chatOptions
      [userText (js "[Model: gpt-4o]

Hello")] in
  callProvider call = js "Ollama" /\
  baseURL (modelOfCall ∅ ∅ call) = Some (js "http://localhost:11434/api").
Proof.
  intros fetchTags call.
  pose proof (discovered_ollama_model_is_served dropToolTurns chatOptions fetchTags (fun _ _ => None) ∅ ∅ ∅ false
                [ {| ollamaName := js "gpt-4o"; parameter_size := js "7B" |} ]
                {| ollamaName := js "gpt-4o"; parameter_size := js "7B" |}
                [] [] (js "Hello")) as H.
  destruct H as (_ & Hp & Hm).
  - reflexivity.
  - left. reflexivity.
  - unfold noLineTerminator. cbn [ollamaName]. repeat constructor.
  - discriminate.
  - constructor.
  - split; [exact Hp|]. exact (f_equal baseURL Hm).
Defined.

Lemma findModel_openAILike ids l id :
  In id ids ->
  findModel (map openAILikeModelInfo ids ++ l) id = Some (openAILikeModelInfo id).
Proof.
  induction ids as [|x ids IH]; [done|]. intros Hin.
  unfold findModel. cbn [map app find].
  case_bool_decide as E.
  - simpl in E. by subst.
  - destruct Hin as [->|Hin]; [done|]. by apply IH.
Qed.

Lemma getModel_openAILike (env cloudflareEnv : gmap string jsstring) model :
  getModel env cloudflareEnv (js "OpenAILike") model
  = getOpenAILikeModel (getBaseURL env cloudflareEnv (js "OpenAILike"))
      (default [] (getAPIKey env cloudflareEnv (js "OpenAILike"))) model.
Proof. reflexivity. Qed.

(** X12. A model that the OpenAI-like service reported and that the
    Ollama server did not report is served, when a directive in the
    latest user turn selects it, by the OpenAI client. The discovery took
    the address and the key of the service from [import.meta.env]; the
    call takes them from [process.env] or the Cloudflare environment, and
    uses the empty string for each one that is set in neither. *)
Theorem discovered_openai_like_model_is_served convertToCoreMessages options
    (fetchTags : jsstring -> option (list OllamaModel))
    (fetchModels : jsstring -> jsstring -> option (list jsstring))
    (importMetaEnv env cloudflareEnv : gmap string jsstring) (hasWindow : bool)
    (url : jsstring) (ids : list jsstring) (id : jsstring)
    (pre post : Messages) (rest : jsstring) :
  importMetaEnv !! "OPENAI_LIKE_API_BASE_URL" = Some url ->
  url <> [] ->
  fetchModels (url ++ js "/models")
    (js "Bearer " ++ default [] (importMetaEnv !! "OPENAI_LIKE_API_KEY")) = Some ids ->
  In id ids ->
  notShadowed (getOllamaModels fetchTags importMetaEnv env hasWindow) id ->
  noLineTerminator id ->
  id <> [] ->
  Forall (fun x => role x <> user) post ->
  let MODEL_LIST := initializedModelList fetchTags fetchModels importMetaEnv env hasWindow in
  let call := streamText convertToCoreMessages MODEL_LIST options (pre ++ userText (withDirective id rest) :: post) in
  callModel call = id /\
  callProvider call = js "OpenAILike" /\
  modelOfCall env cloudflareEnv call
  = {| client := openai;
       apiKey := Some (default [] (nullish (env !! "OPENAI_LIKE_API_KEY")
                                     (cloudflareEnv !! "OPENAI_LIKE_API_KEY")));
       baseURL := Some (default [] (nullish (env !! "OPENAI_LIKE_API_BASE_URL")
                                      (cloudflareEnv !! "OPENAI_LIKE_API_BASE_URL")));
       modelId := id |}.
Proof.
  intros Hu Hne Hf Hin Hsh Hx Hid Hpost MODEL_LIST call.
  assert (Hfind : findModel MODEL_LIST id = Some (openAILikeModelInfo id)).
  { unfold MODEL_LIST, initializedModelList, initializeModelList.
    rewrite findModel_not_shadowed by done.
    unfold getOpenAILikeModels. rewrite Hu.
    destruct url; [done|]. cbn [orElse truthy negb]. rewrite Hf.
    by apply findModel_openAILike. }
  destruct (directive_selects convertToCoreMessages options MODEL_LIST pre id rest post)
    as (Hm & Hp);
    [done|done|by rewrite Hfind|done|].
  fold call in Hm, Hp.
  assert (Hp' : callProvider call = js "OpenAILike").
  { rewrite Hp. unfold providerOf. by rewrite Hfind. }
  split; [done|]. split; [done|].
  unfold modelOfCall. by rewrite Hp', Hm, getModel_openAILike.
Qed.

Lemma discovered_openai_like_model_is_served_witness :
  let importMetaEnv : gmap string jsstring :=
    {[ "OPENAI_LIKE_API_BASE_URL" := js "http://10.0.0.7:8000/v1" ]} in
  let fetchModels := fun _ _ : jsstring => Some [js "local-llama"] in
  let call :=
    streamText dropToolTurns
      (initializedModelList (fun _ => None) fetchModels importMetaEnv ∅ false) chatOptions
      [userText (js "[Model: local-llama]

Hello")] in
  callProvider call = js "OpenAILike" /\
  baseURL (modelOfCall ∅ ∅ call) = Some [].
Proof.
  intros importMetaEnv fetchModels call.
  pose proof (discovered_openai_like_model_is_served dropToolTurns chatOptions
                (fun _ => None) fetchModels
                importMetaEnv ∅ ∅ false (js "http://10.0.0.7:8000/v1")
                [js "local-llama"] (js "local-llama") [] [] (js "Hello")) as H.
  destruct H as (_ & Hp & Hm).
  - reflexivity.
  - discriminate.
  - reflexivity.
  - left. reflexivity.
  - constructor.
  - unfold noLineTerminator. repeat constructor.
  - discriminate.
  - constructor.
  - split; [exact Hp|]. exact (f_equal baseURL Hm).
Defined.


(** ** The pump, [close] and [switchSource] on any heap *)

(** The pending read of the pump settles, written out. *)
Lemma pumpRead_eq h reader st :
  pumping h = reading ->
  _currentReader h = Some reader ->
  streams h !! reader = Some st ->
  pumpRead h =
  (Normal (),
   let h1 := setStreams (fun l => <[reader := snd (readStream st)]> l) h in
   match fst (readStream st) with
   | pending => h1
   | r => setPumping (holds r) h1
   end).
Proof.
  intros Hp Hr Hs. cbv [pumpRead read]. rewrite Hp, Hr, Hs.
  by destruct (readStream st) as [[v| |e|] st'].
Qed.

(** The loop of the pump runs on, written out. *)
Lemma pumpTurn_eq h r c :
  pumping h = holds r ->
  _controller h = Some c ->
  pumpTurn h =
  (Normal (),
   match r with
   | value v =>
       if canCloseOrEnqueue c
       then setPumping reading (setController (Some (enqueueChunk v c)) h)
       else setController (Some (errorController enqueueError c)) (setPumping idle h)
   | done => setPumping idle h
   | rejected e => setController (Some (errorController e c)) (setPumping idle h)
   | pending => setPumping reading h
   end).
Proof.
  intros Hp Hc.
  cbv [pumpTurn tryCatch mbind M_bind gets mret M_ret enqueue modify throw error].
  rewrite Hp. destruct r as [v| |e|]; cbn; rewrite ?Hc; try done.
  destruct (canCloseOrEnqueue c); cbn; by rewrite ?Hc.
Qed.

(** A settling read does not touch the fields of the instance. *)
Lemma pumpRead_fields h :
  fst (pumpRead h) = Normal () /\
  _controller (snd (pumpRead h)) = _controller h /\
  _currentReader (snd (pumpRead h)) = _currentReader h /\
  _switches (snd (pumpRead h)) = _switches h.
Proof.
  cbv [pumpRead read].
  destruct (pumping h); [done| |done].
  destruct (_currentReader h) as [reader|] eqn:Hr; [|done].
  destruct (streams h !! reader) as [st|]; [|done].
  by destruct (readStream st) as [[v| |e|] st'].
Qed.

(** What a turn of the loop can do to the controller. *)
Lemma pumpTurn_cases h c :
  _controller h = Some c ->
  fst (pumpTurn h) = Normal () /\
  streams (snd (pumpTurn h)) = streams h /\
  _currentReader (snd (pumpTurn h)) = _currentReader h /\
  _switches (snd (pumpTurn h)) = _switches h /\
  exists c', _controller (snd (pumpTurn h)) = Some c' /\
    (c' = c \/ (exists v, c' = enqueueChunk v c) \/ (exists e, c' = errorController e c)).
Proof.
  intros Hc. destruct (pumping h) as [| |r] eqn:Hp;
    [unfold pumpTurn; rewrite Hp; by eauto 10..|].
  rewrite (pumpTurn_eq h r c Hp Hc). cbn [fst snd].
  destruct r as [v| |e|]; cbn; rewrite ?Hc; eauto 10.
  destruct (canCloseOrEnqueue c); cbn; rewrite ?Hc; eauto 10.
Qed.

(** X13. When the read of the current source rejects, the pump passes the
    error to the output and stops. The read settles with the rejection and
    changes nothing else; and when the loop runs on from a rejected read,
    on whatever the controller is by then, the turn completes normally, the
    readable side is errored with the source's error and loses the chunks
    that were enqueued and not yet read, what the consumer has read stays,
    and nothing the pump does later changes anything. *)
Theorem pump_reports_source_error h reader st e :
  pumping h = reading ->
  _currentReader h = Some reader ->
  streams h !! reader = Some st ->
  fst (readStream st) = rejected e ->
  let h1 := snd (pumpRead h) in
  pumpRead h = (Normal (), h1) /\
  pumping h1 = holds (rejected e) /\
  _controller h1 = _controller h /\
  forall h2 c,
    pumping h2 = holds (rejected e) ->
    _controller h2 = Some c ->
    let h' := snd (pumpTurn h2) in
    pumpTurn h2 = (Normal (), h') /\
    _controller h' = Some (errorController e c) /\
    pumping h' = idle /\
    (readableState c = readable ->
     output h' = delivered c /\
     (readableState <$> _controller h') = Some (errored e)) /\
    pumpRead h' = (Normal (), h') /\
    pumpTurn h' = (Normal (), h').
Proof.
  intros Hp Hr Hs He h1. unfold h1.
  rewrite (pumpRead_eq h reader st) by done. rewrite He. cbn.
  split; [done|]. split; [done|]. split; [done|].
  intros h2 c Hp2 Hc2.
  rewrite (pumpTurn_eq h2 (rejected e) c) by done. cbn.
  split; [done|]. split; [done|]. split; [done|]. split; [|done].
  intros Hst. unfold output, errorController. cbn. rewrite Hst. cbn.
  by rewrite app_nil_r.
Qed.

Lemma pump_reports_source_error_witness :
  let boom := Error "connection lost" in
  let src := {| queued := []; ending := fails boom; state := readable;
                locked := true; cancelAlgorithm := None |} in
  let c := {| delivered := [js "a"]; queue := [js "b"]; closeRequested := false;
              readableState := readable |} in
  let h := {| streams := [src]; _controller := Some c; _currentReader := Some 0;
              _switches := 1; pumping := reading |} in
  let h' := snd (pumpTurn (snd (pumpRead h))) in
  output h' = [js "a"] /\
  (readableState <$> _controller h') = Some (errored boom).
Proof.
  intros boom src c h h'.
  destruct (pump_reports_source_error h 0 src boom eq_refl eq_refl eq_refl eq_refl)
    as (_ & H1 & H2 & H3).
  destruct (H3 (snd (pumpRead h)) c H1 H2) as (_ & _ & _ & H & _).
  exact (H eq_refl).
Defined.

(** X14. The pump never throws and never ends the output. Whatever the
    heap, a settling read and a turn of the loop complete normally; the
    read leaves the controller as it is, and the turn leaves the chunks
    the consumer has read and the close request as they are and does not
    close the readable side. In particular, when the current source is at
    its end the loop only leaves: the output stays open until [close] is
    called. *)
Theorem pump_never_closes_output h c :
  _controller h = Some c ->
  fst (pumpRead h) = Normal () /\
  _controller (snd (pumpRead h)) = Some c /\
  fst (pumpTurn h) = Normal () /\
  (exists c', _controller (snd (pumpTurn h)) = Some c' /\
     delivered c' = delivered c /\
     closeRequested c' = closeRequested c /\
     (readableState c' = closed -> readableState c = closed)) /\
  (forall reader st,
     pumping h = reading -> _currentReader h = Some reader -> streams h !! reader = Some st ->
     fst (readStream st) = done ->
     pumping (snd (pumpRead h)) = holds done) /\
  (pumping h = holds done ->
   _controller (snd (pumpTurn h)) = Some c /\ pumping (snd (pumpTurn h)) = idle).
Proof.
  intros Hc. destruct (pumpRead_fields h) as (Hn & Hc1 & _).
  destruct (pumpTurn_cases h c Hc) as (Hn' & _ & _ & _ & c' & Hc' & Hcases).
  split; [done|]. split; [by rewrite Hc1|]. split; [done|]. split; [|split].
  - exists c'. split; [done|].
    destruct Hcases as [->|[[v ->]|[e ->]]]; [done|by cbn|].
    unfold errorController. destruct (readableState c) eqn:E; cbn; by rewrite ?E.
  - intros reader st Hp Hr Hs Hd.
    rewrite (pumpRead_eq h reader st) by done. by rewrite Hd.
  - intros Hp. by rewrite (pumpTurn_eq h done c).
Qed.

Lemma pump_never_closes_output_witness :
  let src := {| queued := []; ending := ends; state := readable;
                locked := true; cancelAlgorithm := None |} in
  let c := {| delivered := [js "a"]; queue := []; closeRequested := false;
              readableState := readable |} in
  let h := {| streams := [src]; _controller := Some c; _currentReader := Some 0;
              _switches := 1; pumping := reading |} in
  _controller (snd (pumpRead h)) = Some c /\
  pumping (snd (pumpRead h)) = holds done.
Proof.
  intros src c h.
  destruct (pump_never_closes_output h c eq_refl) as (_ & H1 & _ & _ & H2 & _).
  split; [exact H1|]. exact (H2 0 src eq_refl eq_refl eq_refl eq_refl).
Defined.

(** [switchSource], written out for a heap whose reader's cancellation
    resolves and a new stream that is free. *)
Lemma switchSource_eq h reader old newStream ns c :
  _currentReader h = Some reader ->
  streams h !! reader = Some old ->
  fst (cancelStream old) = Resolved () ->
  streams h !! newStream = Some ns ->
  newStream <> reader ->
  locked ns = false ->
  _controller h = Some c ->
  switchSource newStream h =
  (Normal (),
   {| streams := <[newStream := lockedStream ns]>
                   (<[reader := snd (cancelStream old)]> (streams h));
      _controller := Some c;
      _currentReader := Some newStream;
      _switches := S (_switches h);
      pumping := reading |}).
Proof.
  intros Hr Hs Hres Hn Hne Hl Hc.
  cbv [switchSource mbind M_bind gets await cancel modify ignore mret M_ret throw].
  rewrite Hr, Hs. destruct (cancelStream old) as [res old'] eqn:Hcs. cbn [fst snd] in *.
  subst res.
  set (h1 := setStreams _ h).
  assert (H1n : streams h1 !! newStream = Some ns).
  { unfold h1. simpl. by rewrite list_lookup_insert_ne. }
  rewrite (getReader_unlocked _ _ _ H1n Hl).
  unfold _pumpStream, h1. cbn. rewrite Hc. cbn.
  unfold setSwitches, setPumping, setCurrentReader, setStreams, lockedStream. cbn.
  by rewrite Hc.
Qed.

(** X15. [close] does not disable the instance. A [switchSource] after
    [close] still takes the new stream, starts a pump and counts a switch;
    but the first chunk the pump reads cannot be enqueued any more. The
    pump takes it from the source and loses it, and reports the [TypeError]
    of [enqueue] to the controller: the chunks that were enqueued before
    [close] and not read yet are dropped, and the consumer, who had been
    promised the end of the stream after them, sees the error instead when
    there were such chunks. *)
Theorem switchSource_after_close h reader old c newStream ns v q :
  _currentReader h = Some reader ->
  streams h !! reader = Some old ->
  (forall e, state old <> errored e) ->
  _controller h = Some c ->
  canCloseOrEnqueue c = true ->
  streams h !! newStream = Some ns ->
  newStream <> reader ->
  locked ns = false ->
  state ns = readable ->
  queued ns = v :: q ->
  let h1 := snd (close h) in
  exists h2,
    switchSource newStream h1 = (Normal (), h2) /\
    _currentReader h2 = Some newStream /\
    _switches h2 = S (_switches h) /\
    pumping h2 = reading /\
    let h3 := snd (pumpTurn (snd (pumpRead h2))) in
    pumping (snd (pumpRead h2)) = holds (value v) /\
    pumping h3 = idle /\
    (queued <$> streams h3 !! newStream) = Some q /\
    output h3 = delivered c /\
    (queue c <> [] -> (readableState <$> _controller h3) = Some (errored enqueueError)) /\
    (queue c = [] -> (readableState <$> _controller h3) = Some closed).
Proof.
  intros Hr Hs Herr Hc Hopen Hn Hne Hl Hst Hq h1.
  assert (Hlt : reader < length (streams h)) by (by eapply lookup_lt_Some).
  assert (Hlt' : newStream < length (streams h)) by (by eapply lookup_lt_Some).
  assert (Hh1 : h1 = setController (Some (terminateController c))
                       (setStreams (fun l => <[reader := snd (cancelStream old)]> l) h)).
  { unfold h1. rewrite close_eq. cbn [snd]. unfold afterCancel. by rewrite Hr, Hs, Hc. }
  assert (Hres : fst (cancelStream (snd (cancelStream old))) = Resolved ()).
  { unfold cancelStream. destruct (state old) eqn:E; cbn; rewrite ?E; cbn; try done.
    by destruct (Herr e). }
  eexists. split.
  { apply (switchSource_eq h1 reader (snd (cancelStream old)) newStream ns
             (terminateController c)); try done.
    - by rewrite Hh1.
    - rewrite Hh1. cbn. by apply list_lookup_insert_eq.
    - rewrite Hh1. cbn. by rewrite list_lookup_insert_ne.
    - by rewrite Hh1. }
  cbn [_currentReader _switches pumping].
  split; [done|]. split; [by rewrite Hh1|]. split; [done|].
  set (h2 := Build_Heap _ _ _ _ _).
  assert (Hcl : canCloseOrEnqueue (terminateController c) = false).
  { unfold terminateController. rewrite Hopen. unfold canCloseOrEnqueue. done. }
  assert (Hread : readStream (lockedStream ns)
                  = (value v, {| queued := q; ending := ending ns; state := readable;
                                 locked := true; cancelAlgorithm := cancelAlgorithm ns |})).
  { unfold readStream, lockedStream. cbn. by rewrite Hst, Hq. }
  rewrite (pumpRead_eq h2 newStream (lockedStream ns)); [|done|done|].
  2: { unfold h2. cbn. rewrite list_lookup_insert_eq; [done|].
       rewrite Hh1. cbn. by rewrite !length_insert. }
  rewrite Hread. cbn [fst snd].
  rewrite (pumpTurn_eq _ (value v) (terminateController c)) by done.
  rewrite Hcl. cbn.
  split; [done|]. split; [done|]. split.
  { rewrite list_lookup_insert_eq; [done|].
    rewrite !length_insert. rewrite Hh1. cbn. by rewrite !length_insert. }
  unfold output, errorController, terminateController. rewrite Hopen. cbn.
  destruct (queue c) eqn:Eq; cbn.
  - rewrite app_nil_r. done.
  - rewrite app_nil_r. split; [done|]. split; [done|]. done.
Qed.

Lemma switchSource_after_close_witness :
  let old := {| queued := []; ending := staysOpen; state := readable;
                locked := true; cancelAlgorithm := None |} in
  let ns := {| queued := [js "c"]; ending := staysOpen; state := readable;
               locked := false; cancelAlgorithm := None |} in
  let c := {| delivered := [js "a"]; queue := [js "b"]; closeRequested := false;
              readableState := readable |} in
  let h := {| streams := [old; ns]; _controller := Some c; _currentReader := Some 0;
              _switches := 1; pumping := reading |} in
  exists h2,
    switchSource 1 (snd (close h)) = (Normal (), h2) /\
    _switches h2 = 2 /\
    output (snd (pumpTurn (snd (pumpRead h2)))) = [js "a"] /\
    (readableState <$> _controller (snd (pumpTurn (snd (pumpRead h2)))))
    = Some (errored enqueueError).
Proof.
  intros old ns c h.
  destruct (switchSource_after_close h 0 old c 1 ns (js "c") [])
    as (h2 & H1 & _ & H2 & _ & _ & _ & _ & H3 & H4 & _);
    try reflexivity; try discriminate.
  exists h2. split; [exact H1|]. split; [exact H2|]. split; [exact H3|].
  apply H4. discriminate.
Defined.

(** ** The invariant of the heap of a [SwitchableStream] *)

Lemma filter_locked_insert_same (l : list ReadableStream) i st st' :
  l !! i = Some st -> locked st' = locked st ->
  length (List.filter locked (<[i:=st']> l)) = length (List.filter locked l).
Proof.
  revert i. induction l as [|x l IH]; intros [|i] H Hl; simplify_eq/=.
  - rewrite Hl. by destruct (locked st).
  - destruct (locked x); simpl; eauto.
Qed.

Lemma filter_locked_insert_acquire (l : list ReadableStream) i st st' :
  l !! i = Some st -> locked st = false -> locked st' = true ->
  length (List.filter locked (<[i:=st']> l)) = S (length (List.filter locked l)).
Proof.
  revert i. induction l as [|x l IH]; intros [|i] H Hl Hl'; simplify_eq/=.
  - by rewrite Hl, Hl'.
  - destruct (locked x); simpl; eauto.
Qed.

Lemma readStream_keeps st :
  locked (snd (readStream st)) = locked st /\
  (state (snd (readStream st)) = readable -> state st = readable).
Proof.
  unfold readStream. destruct (state st) eqn:E; cbn; rewrite ?E; [|done|done].
  destruct (queued st); cbn; [|done].
  destruct (ending st); cbn; by rewrite ?E.
Qed.

Lemma cancelStream_locked st : locked (snd (cancelStream st)) = locked st.
Proof. unfold cancelStream. by destruct (state st). Qed.

(** A change of one stream that keeps its lock and does not make it
    readable, with the reader and the counter as they were, keeps the
    invariant. *)
Lemma wellFormed_update h h' :
  wellFormed h ->
  is_Some (_controller h') ->
  _currentReader h' = _currentReader h ->
  _switches h' = _switches h ->
  (_currentReader h = None -> pumping h' = idle) ->
  (streams h' = streams h \/
   exists i st st', streams h !! i = Some st /\ streams h' = <[i:=st']> (streams h) /\
     locked st' = locked st /\ (state st' = readable -> state st = readable)) ->
  wellFormed h'.
Proof.
  intros (Hc & Hsw & Hrd & Hone) Hc' Hr' Hs' Hp' Hstreams.
  unfold wellFormed. rewrite Hr', Hs'.
  destruct Hstreams as [->|(i & st & st' & Hi & -> & Hl & Hst)].
  { split; [done|]. split; [done|]. split; [|done].
    destruct (_currentReader h); [done|]. split; [by apply Hrd|by apply Hp']. }
  assert (Hlt : i < length (streams h)) by (by eapply lookup_lt_Some).
  split; [done|]. split; [by rewrite (filter_locked_insert_same _ _ st)|]. split.
  - destruct (_currentReader h) as [reader|]; [|split; [by apply Hrd|by apply Hp']].
    destruct Hrd as (str & Hsr & Hlr).
    destruct (decide (reader = i)) as [->|Hne].
    + exists st'. rewrite list_lookup_insert_eq by done. split; [done|].
      rewrite Hl. by simplify_eq.
    + exists str. by rewrite list_lookup_insert_ne.
  - intros j sj Hj Hlj Hsj.
    destruct (decide (j = i)) as [->|Hne].
    + rewrite list_lookup_insert_eq in Hj by done. simplify_eq.
      apply (Hone i st); [done|by rewrite <- Hl|by apply Hst].
    + rewrite list_lookup_insert_ne in Hj by done. by apply (Hone j sj).
Qed.

Lemma afterCancel_fields h :
  _controller (afterCancel h) = _controller h /\
  _currentReader (afterCancel h) = _currentReader h /\
  _switches (afterCancel h) = _switches h /\
  pumping (afterCancel h) = pumping h.
Proof.
  unfold afterCancel. destruct (_currentReader h) as [reader|] eqn:Hr; [|done].
  by destruct (streams h !! reader).
Qed.

Lemma wellFormed_afterCancel h : wellFormed h -> wellFormed (afterCancel h).
Proof.
  intros Hwf. destruct (afterCancel_fields h) as (Hc & Hr & Hs & Hp).
  apply (wellFormed_update h); [done| |done|done| |].
  - rewrite Hc. by destruct Hwf.
  - intros Hn. rewrite Hp. destruct Hwf as (_ & _ & Hrd & _). rewrite Hn in Hrd. by destruct Hrd.
  - unfold afterCancel. destruct (_currentReader h) as [reader|]; [|by left].
    destruct (streams h !! reader) as [st|] eqn:E; [|by left].
    right. exists reader, st, (snd (cancelStream st)).
    split; [done|]. split; [done|]. split; [apply cancelStream_locked|].
    intros H. by destruct (cancelStream_not_readable st).
Qed.

Lemma afterCancel_reader h reader st :
  _currentReader h = Some reader ->
  streams (afterCancel h) !! reader = Some st ->
  state st <> readable.
Proof.
  intros Hr Hs. unfold afterCancel in Hs. rewrite Hr in Hs.
  destruct (streams h !! reader) as [old|] eqn:E; [|by rewrite E in Hs].
  cbn in Hs. rewrite list_lookup_insert_eq in Hs by (by eapply lookup_lt_Some).
  simplify_eq. apply cancelStream_not_readable.
Qed.

(** What [switchSource] leaves behind: the heap after the cancellation
    when it throws, and else that heap with the new stream locked and
    installed. *)
Lemma switchSource_cases h newStream :
  let h1 := afterCancel h in
  let h' := snd (switchSource newStream h) in
  h' = h1 \/
  exists ns, streams h1 !! newStream = Some ns /\ locked ns = false /\
    streams h' = <[newStream := lockedStream ns]> (streams h1) /\
    _controller h' = _controller h /\
    _currentReader h' = Some newStream /\
    _switches h' = S (_switches h).
Proof.
  intros h1 h'. unfold h', h1.
  assert (Hget : forall h0,
    _controller h0 = _controller h -> _switches h0 = _switches h ->
    let h'' := snd ((reader ← getReader newStream;
                     modify (setCurrentReader (Some reader));;
                     ignore _pumpStream;;
                     modify (fun h => setSwitches (S (_switches h)) h)) h0) in
    h'' = h0 \/
    exists ns, streams h0 !! newStream = Some ns /\ locked ns = false /\
      streams h'' = <[newStream := lockedStream ns]> (streams h0) /\
      _controller h'' = _controller h /\
      _currentReader h'' = Some newStream /\
      _switches h'' = S (_switches h)).
  { intros h0 Hc0 Hs0.
    cbv [mbind M_bind gets modify ignore mret M_ret getReader].
    destruct (streams h0 !! newStream) as [ns|] eqn:E; [|by left].
    destruct (locked ns) eqn:El; [by left|].
    right. exists ns. split; [done|]. split; [done|].
    unfold _pumpStream. cbn. rewrite Hc0.
    destruct (_controller h); cbn; by rewrite ?Hc0, ?Hs0. }
  destruct (afterCancel_fields h) as (Hc & _ & Hs & _).
  cbv [switchSource mbind M_bind gets await cancel mret M_ret throw].
  unfold afterCancel in *.
  destruct (_currentReader h) as [reader|] eqn:Hr.
  - destruct (streams h !! reader) as [st|] eqn:E; [|by left].
    destruct (cancelStream st) as [[[]|e] st']; cbn [snd fst]; [|by left].
    by apply (Hget (setStreams (fun l => <[reader:=st']> l) h)).
  - by apply (Hget h).
Qed.

Lemma wellFormed_switchSource h newStream :
  wellFormed h -> wellFormed (snd (switchSource newStream h)).
Proof.
  intros Hwf. pose proof (wellFormed_afterCancel h Hwf) as Hwf1.
  destruct (afterCancel_fields h) as (Hc1 & Hr1 & Hs1 & _).
  destruct (switchSource_cases h newStream)
    as [->|(ns & Hn & Hl & Hst & Hc & Hr & Hs)]; [done|].
  destruct Hwf1 as (Hc' & Hsw & Hrd & Hone).
  assert (Hlt : newStream < length (streams (afterCancel h))) by (by eapply lookup_lt_Some).
  unfold wellFormed. rewrite Hc, Hr, Hs, Hst.
  split; [by rewrite <- Hc1|]. split.
  { rewrite (filter_locked_insert_acquire _ _ ns) by done. by rewrite <- Hsw, Hs1. }
  split.
  { exists (lockedStream ns). by rewrite list_lookup_insert_eq. }
  intros i st Hi Hli Hsi.
  destruct (decide (i = newStream)) as [->|Hne]; [done|].
  rewrite list_lookup_insert_ne in Hi by done.
  pose proof (Hone i st Hi Hli Hsi) as Hcur. rewrite Hr1 in Hcur.
  by destruct (afterCancel_reader h i st Hcur Hi).
Qed.

Lemma pumpRead_streams h :
  (streams (snd (pumpRead h)) = streams h \/
   exists reader st, streams h !! reader = Some st /\
     streams (snd (pumpRead h)) = <[reader := snd (readStream st)]> (streams h)) /\
  (pumping h = idle -> pumping (snd (pumpRead h)) = idle).
Proof.
  cbv [pumpRead read].
  destruct (pumping h) eqn:Hp; [by split; [left|]| |by split; [left|]].
  split; [|done].
  destruct (_currentReader h) as [reader|] eqn:Hr; [|by left].
  destruct (streams h !! reader) as [st|] eqn:Hs; [|by left].
  right. exists reader, st. split; [done|].
  by destruct (readStream st) as [[v| |e|] st'].
Qed.

Lemma wellFormed_pumpRead h : wellFormed h -> wellFormed (snd (pumpRead h)).
Proof.
  intros Hwf. destruct (Hwf) as ([c Hc] & _ & Hrd & _).
  destruct (pumpRead_fields h) as (_ & Hc' & Hr & Hs).
  destruct (pumpRead_streams h) as [Hst Hidle].
  apply (wellFormed_update h); [done|by rewrite Hc', Hc|done|done| |].
  - intros Hn. rewrite Hn in Hrd. destruct Hrd as [_ Hp]. by apply Hidle.
  - destruct Hst as [?|(reader & st & Hst & Heq)]; [by left|].
    right. exists reader, st, (snd (readStream st)).
    destruct (readStream_keeps st). done.
Qed.

Lemma wellFormed_pumpTurn h : wellFormed h -> wellFormed (snd (pumpTurn h)).
Proof.
  intros Hwf. destruct (Hwf) as ([c Hc] & _ & Hrd & _).
  destruct (pumpTurn_cases h c Hc) as (_ & Hst & Hr & Hs & c' & Hc' & _).
  apply (wellFormed_update h); [done|by rewrite Hc'|done|done| |by left].
  intros Hn. rewrite Hn in Hrd. destruct Hrd as [_ Hp].
  unfold pumpTurn. by rewrite Hp.
Qed.

Lemma wellFormed_exec h op : wellFormed h -> wellFormed (exec h op).
Proof.
  intros Hwf. destruct op as [q e s ca|stream| | | |]; cbn [exec].
  - destruct Hwf as (Hc & Hsw & Hrd & Hone). unfold wellFormed. cbn.
    split; [done|]. split.
    { rewrite List.filter_app, length_app. cbn. lia. }
    split.
    + destruct (_currentReader h) as [reader|]; [|done].
      destruct Hrd as (st & Hst & Hl). exists st. split; [|done].
      by apply lookup_app_l_Some.
    + intros i st Hi Hl Hs. apply lookup_app_Some in Hi as [Hi|[_ Hi]].
      * by apply (Hone i st).
      * destruct (i - length (streams h)) as [|n]; cbn in Hi; by simplify_eq.
  - by apply wellFormed_switchSource.
  - rewrite close_eq. cbn [snd].
    pose proof (wellFormed_afterCancel h Hwf) as Hwf1.
    apply (wellFormed_update (afterCancel h)); [done| |done|done| |].
    + cbn. destruct Hwf as ([c Hc] & _). rewrite Hc. by eexists.
    + intros Hn. cbn. destruct Hwf1 as (_ & _ & Hrd & _). rewrite Hn in Hrd. by destruct Hrd.
    + by left.
  - by apply wellFormed_pumpRead.
  - by apply wellFormed_pumpTurn.
  - apply (wellFormed_update h); [done| |done|done| |].
    + cbn. destruct Hwf as ([c Hc] & _). rewrite Hc. by eexists.
    + intros Hn. cbn. destruct Hwf as (_ & _ & Hrd & _). rewrite Hn in Hrd. by destruct Hrd.
    + by left.
Qed.

Lemma wellFormed_fold ops : forall h, wellFormed h -> wellFormed (fold_left exec ops h).
Proof.
  induction ops as [|op ops IH]; intros h Hwf; [done|].
  cbn. by apply IH, wellFormed_exec.
Qed.

(** X16. Whatever is done with a [SwitchableStream] and in whatever
    order, with each [switchSource] awaited: the counter [switches] is the
    number of source streams the instance has locked; of these only the
    current reader's stream can still be readable, every earlier one was
    canceled or has ended; there is no reader exactly as long as nothing
    was switched, and then no pump runs; and the controller is never
    lost. *)
Theorem one_readable_source (ops : list Op) :
  let h := execAll ops in
  _switches h = length (List.filter locked (streams h)) /\
  (forall i st, streams h !! i = Some st -> locked st = true -> state st = readable ->
     _currentReader h = Some i) /\
  (forall reader, _currentReader h = Some reader ->
     0 < _switches h /\ exists st, streams h !! reader = Some st /\ locked st = true) /\
  (_currentReader h = None -> _switches h = 0 /\ pumping h = idle) /\
  is_Some (_controller h).
Proof.
  intros h.
  assert (Hwf : wellFormed h).
  { apply wellFormed_fold. unfold wellFormed, newSwitchableStream. cbn.
    split; [by eexists|]. split; [done|]. split; [done|]. intros i st Hi. by destruct i. }
  destruct Hwf as (Hc & Hsw & Hrd & Hone).
  split; [done|]. split; [done|]. split; [|split; [|done]].
  - intros reader Hr. rewrite Hr in Hrd. destruct Hrd as (st & Hst & Hl).
    split; [|by eauto]. rewrite Hsw.
    apply list_elem_of_lookup_2 in Hst. apply list_elem_of_In in Hst.
    assert (Hin : In st (List.filter locked (streams h))) by (by apply List.filter_In).
    destruct (List.filter locked (streams h)); [done|cbn; lia].
  - intros Hn. by rewrite Hn in Hrd.
Qed.


(** ** Sessions: calls, history and output *)

(** X17. A response that the token limit did not cut is never continued.
    When the first call is answered with a stop reason other than
    [length], then whatever the order of events the session makes this one
    call, has this one segment, counts one switch and leaves the
    conversation as the request gave it; it is done from the moment the
    SDK reports the completion, and streams until then. It never fails. *)
Theorem untruncated_response_single_call convertToCoreMessages MODEL_LIST CONTINUE_PROMPT provider_
    (conversation : Messages) (r : Response) (schedule : list Event) :
  provider_ (streamText convertToCoreMessages MODEL_LIST chatOptions conversation) = responds r ->
  finishReason r <> reason_length ->
  exists s,
    session convertToCoreMessages MODEL_LIST CONTINUE_PROMPT provider_ conversation schedule = Some s /\
    calls s = [streamText convertToCoreMessages MODEL_LIST chatOptions conversation] /\
    segments s = [r] /\
    messages s = conversation /\
    _switches (heap s) = 1 /\
    (In Finish schedule -> phase s = Done) /\
    (~ In Finish schedule -> phase s = Streaming r).
Proof.
  intros Hp Hreason.
  set (call := streamText convertToCoreMessages MODEL_LIST chatOptions conversation).
  set (J := fun s : Session =>
              calls s = [call] /\ segments s = [r] /\ messages s = conversation).
  assert (Hstep : forall s ev, J s -> phase s = Streaming r \/ phase s = Done ->
            let s' := step convertToCoreMessages MODEL_LIST CONTINUE_PROMPT provider_ s ev in
            J s' /\
            (phase s = Done -> phase s' = Done) /\
            (phase s = Streaming r -> ev = Finish -> phase s' = Done) /\
            (phase s = Streaming r -> ev <> Finish -> phase s' = Streaming r)).
  { intros s ev HJ Hph. destruct ev; cbn [step].
    - done.
    - done.
    - done.
    - destruct Hph as [Hph|Hph]; rewrite Hph; [|done].
      unfold onFinish. rewrite (bool_decide_eq_false_2 _ Hreason). cbn [negb].
      rewrite close_eq. by cbn.
    - by destruct Hph as [Hph|Hph]; rewrite Hph. }
  assert (Hrun : forall schedule s, J s -> phase s = Streaming r \/ phase s = Done ->
            let s' := run convertToCoreMessages MODEL_LIST CONTINUE_PROMPT provider_ s schedule in
            J s' /\
            (phase s = Done -> phase s' = Done) /\
            (phase s = Streaming r -> In Finish schedule -> phase s' = Done) /\
            (phase s = Streaming r -> ~ In Finish schedule -> phase s' = Streaming r)).
  { clear schedule. induction schedule as [|ev schedule IH]; intros s HJ Hph.
    - cbn. split; [done|]. split; [done|]. split; [by intros _ []|done].
    - destruct (Hstep s ev HJ Hph) as (HJ' & Hd & Hf & Hn).
      assert (Hph' : phase (step convertToCoreMessages MODEL_LIST CONTINUE_PROMPT provider_ s ev) = Streaming r \/
                     phase (step convertToCoreMessages MODEL_LIST CONTINUE_PROMPT provider_ s ev) = Done).
      { destruct Hph as [Hph|Hph]; [|right; by apply Hd].
        destruct (decide (ev = Finish)) as [->|Hne]; [right; by apply Hf|left; by apply Hn]. }
      destruct (IH _ HJ' Hph') as (HJ'' & Hd' & Hf' & Hn').
      cbn [run fold_left] in *. split; [done|]. split; [by intros ?; apply Hd', Hd|].
      split.
      + intros Hs [->|Hin]; [by apply Hd', Hf|].
        destruct (decide (ev = Finish)) as [->|Hne]; [by apply Hd', Hf|].
        by apply Hf'; [apply Hn|].
      + intros Hs Hnin. apply Hn'; [apply Hn; [done|]|]; intros H; apply Hnin.
        * by left.
        * by right. }
  pose proof (chatAction_started convertToCoreMessages MODEL_LIST provider_ conversation r Hp) as Hs0.
  set (s0 := {| messages := conversation;
                heap := sessionHeap [] (aiStream r) newController reading;
                calls := [call]; segments := [r]; phase := Streaming r |}) in *.
  exists (run convertToCoreMessages MODEL_LIST CONTINUE_PROMPT provider_ s0 schedule).
  split; [unfold session; by rewrite Hs0|].
  assert (Hinv : SessionInv provider_ s0) by (by apply (inv_chatAction convertToCoreMessages MODEL_LIST _ conversation)).
  destruct (Hrun schedule s0) as ((Hc & Hsg & Hm) & _ & Hf & Hn); [done|by left|].
  split; [done|]. split; [done|]. split; [done|]. split.
  - rewrite (inv_switches provider_); [by rewrite Hsg|].
    by apply inv_run.
  - split; [by apply Hf|by apply Hn].
Qed.

Lemma untruncated_response_single_call_witness :
  let provider_ : Provider := fun _ =>
    responds {| chunks := [js "a"; js "b"]; finishReason := reason_stop |} in
  exists s,
    session dropToolTurns staticModels continuePrompt provider_ [userText (js "Hello")]
      [PumpRead; PumpTurn; Finish; PumpRead; Resume; Finish] = Some s /\
    length (calls s) = 1 /\ phase s = Done.
Proof.
  intros provider_.
  destruct (untruncated_response_single_call dropToolTurns staticModels continuePrompt provider_
              [userText (js "Hello")]
              {| chunks := [js "a"; js "b"]; finishReason := reason_stop |}
              [PumpRead; PumpTurn; Finish; PumpRead; Resume; Finish] eq_refl)
    as (s & Hs & Hc & _ & _ & _ & Hd & _); [discriminate|].
  exists s. split; [exact Hs|]. split; [by rewrite Hc|].
  apply Hd. right. right. left. reflexivity.
Defined.

Lemma inv_phase_lengths provider_ s :
  SessionInv provider_ s ->
  1 <= length (calls s) /\
  length (segments s) <= length (calls s) <= S (length (segments s)) /\
  match phase s with
  | Streaming r => last (segments s) = Some r /\ length (calls s) = length (segments s)
  | Continuing _ => length (calls s) = S (length (segments s))
  | _ => True
  end.
Proof.
  intros [sts st c pump segs r ps p tail Hh Hsegs Hlen Hps Hout Hp Htail Hcap Hfrom Hcount Hheap].
  assert (Hn : 1 <= length (segments s)) by (rewrite Hsegs, length_app; simpl; lia).
  unfold countInv in Hcount. destruct (phase s).
  - destruct Hcount as (-> & Hc). rewrite Hsegs at 3. rewrite last_snoc. split; [lia|].
    split; [lia|done].
  - destruct Hcount as (Hc & _). split; [lia|]. split; [lia|done].
  - destruct Hcount as (_ & Hc). split; [lia|]. split; [lia|done].
  - destruct Hcount as (_ & [(_ & H1 & H2)|(call & _ & _ & Hc & _)]);
      split; try lia; split; try lia; done.
Qed.

Lemma history_snoc CONTINUE_PROMPT conversation segs r :
  history CONTINUE_PROMPT conversation (segs ++ [r]) (length segs)
    ++ continuation CONTINUE_PROMPT r
  = history CONTINUE_PROMPT conversation (segs ++ [r]) (S (length segs)).
Proof.
  unfold history. rewrite take_app_length.
  rewrite (take_ge (segs ++ [r])) by (rewrite length_app; simpl; lia).
  rewrite flat_map_app. cbn [flat_map]. by rewrite app_nil_r, app_assoc.
Qed.

Lemma history_app CONTINUE_PROMPT conversation segs more n :
  n <= length segs ->
  history CONTINUE_PROMPT conversation (segs ++ more) n
  = history CONTINUE_PROMPT conversation segs n.
Proof. intros H. unfold history. by rewrite take_app_le. Qed.

(** X18. How the conversation grows. In every session the [messages]
    array is the conversation of the request followed, for each segment
    that was continued, by the whole text of that segment as an assistant
    turn and the continuation instruction as a user turn; and the call
    number [i] is the call [streamText] makes for the conversation after
    [i] continuations. The text that is pushed is the text the provider
    produced, whether or not the pump has forwarded all of it. *)
Theorem calls_follow_history convertToCoreMessages MODEL_LIST CONTINUE_PROMPT provider_
    (conversation : Messages) (schedule : list Event) (s : Session) :
  session convertToCoreMessages MODEL_LIST CONTINUE_PROMPT provider_ conversation schedule = Some s ->
  1 <= length (calls s) /\
  length (segments s) <= length (calls s) <= S (length (segments s)) /\
  messages s
  = history CONTINUE_PROMPT conversation (segments s) (length (calls s) - 1) /\
  (forall i call,
     calls s !! i = Some call ->
     call = streamText convertToCoreMessages MODEL_LIST chatOptions (history CONTINUE_PROMPT conversation (segments s) i)).
Proof.
  set (H := fun s : Session =>
    messages s = history CONTINUE_PROMPT conversation (segments s) (length (calls s) - 1) /\
    (forall i call, calls s !! i = Some call ->
       call = streamText convertToCoreMessages MODEL_LIST chatOptions (history CONTINUE_PROMPT conversation (segments s) i))).
  assert (Hstep : forall s ev, SessionInv provider_ s -> H s ->
            H (step convertToCoreMessages MODEL_LIST CONTINUE_PROMPT provider_ s ev)).
  { clear s. intros s ev Hinv [Hm Hc].
    destruct (inv_phase_lengths provider_ s Hinv) as (H1 & H2 & Hph).
    destruct ev; cbn [step]; [done|done|done| |].
    - destruct (phase s) as [r| | |] eqn:Hphase; [|done|done|done].
      destruct Hph as [Hlast Hlen].
      apply last_Some in Hlast as [segs Hsegs].
      unfold onFinish. destruct (negb _).
      { by destruct (close (heap s)) as [[[]|e] h']. }
      destruct (bool_decide _); [done|].
      assert (Hn : length (calls s) - 1 = length segs)
        by (rewrite Hlen, Hsegs, length_app; simpl; lia).
      assert (Hmsg : messages s ++ [assistantText (text r); userText CONTINUE_PROMPT]
                     = history CONTINUE_PROMPT conversation (segments s) (length (calls s))).
      { rewrite Hm, Hn, Hsegs. change [assistantText (text r); userText CONTINUE_PROMPT]
          with (continuation CONTINUE_PROMPT r).
        rewrite history_snoc. f_equal. rewrite Hlen, Hsegs, length_app. simpl. lia. }
      split; cbn [messages calls segments].
      + rewrite length_app. simpl. rewrite Hmsg. f_equal. lia.
      + intros i call Hi. apply lookup_app_Some in Hi as [Hi|[Hge Hi]]; [by apply Hc|].
        destruct (i - length (calls s)) as [|k] eqn:Hk; [|done].
        cbn in Hi. simplify_eq. rewrite Hmsg. do 2 f_equal. lia.
    - destruct (phase s) as [|[r2|e]| |] eqn:Hphase; [done| |done|done|done].
      unfold onFinishResume.
      destruct ((ignore pumpTurn;; stream ← toAIStream r2; switchSource stream) (heap s))
        as [[[]|e] h']; [|done].
      split; cbn [messages calls segments].
      + rewrite history_app by lia. done.
      + intros i call Hi. rewrite history_app; [by apply Hc|].
        apply lookup_lt_Some in Hi. lia. }
  assert (Hrun : forall schedule s, SessionInv provider_ s -> H s ->
            H (run convertToCoreMessages MODEL_LIST CONTINUE_PROMPT provider_ s schedule)).
  { clear s schedule. induction schedule as [|ev schedule IH]; intros s Hinv Hs; [done|].
    cbn. apply IH; [by apply inv_step|by apply Hstep]. }
  intros Hs.
  pose proof (inv_session _ _ _ _ _ _ _ Hs) as Hinv.
  destruct (inv_phase_lengths provider_ s Hinv) as (H1 & H2 & _).
  split; [done|]. split; [done|].
  unfold session in Hs.
  destruct (chatAction convertToCoreMessages MODEL_LIST provider_ conversation) as [s0|] eqn:Hs0; [|done].
  simplify_eq. apply Hrun; [by eapply inv_chatAction|].
  unfold chatAction in Hs0.
  destruct (provider_ (streamText convertToCoreMessages MODEL_LIST chatOptions conversation)) as [r|e]; [|done].
  simplify_eq. split; cbn.
  - unfold history. cbn. by rewrite app_nil_r.
  - intros [|i] call Hi; [|done]. cbn in Hi. simplify_eq.
    unfold history. cbn. by rewrite app_nil_r.
Qed.

Lemma calls_follow_history_witness :
  exists s,
    session dropToolTurns staticModels continuePrompt truncating [userText (js "Hello")]
      [Finish; Resume; PumpRead; PumpTurn] = Some s /\
    messages s = [userText (js "Hello"); assistantText (js "a"); userText continuePrompt] /\
    calls s !! 1 = Some (streamText dropToolTurns staticModels chatOptions (messages s)).
Proof.
  eexists. split; [reflexivity|].
  destruct (calls_follow_history dropToolTurns staticModels continuePrompt truncating
              [userText (js "Hello")] [Finish; Resume; PumpRead; PumpTurn] _ eq_refl)
    as (_ & _ & Hm & Hc).
  split; [exact Hm|].
  refine (eq_trans _ (f_equal Some (eq_trans (Hc 1 _ eq_refl) (f_equal _ (eq_sym Hm))))).
  reflexivity.
Defined.

Lemma output_sessionHeap sts st c pump :
  output (sessionHeap sts st c pump) = delivered c ++ queue c.
Proof. done. Qed.

Lemma unread_sessionHeap sts st c pump : unread (sessionHeap sts st c pump) = queued st.
Proof. unfold unread, sessionHeap. cbn. by rewrite lookup_current. Qed.

Lemma terminateController_output c :
  delivered (terminateController c) ++ queue (terminateController c)
  = delivered c ++ queue c.
Proof. unfold terminateController. by destruct (canCloseOrEnqueue c). Qed.

(** A turn of the loop in a session that has not failed and whose pump
    held no chunk when [close] ran: what the loop held is enqueued. *)
Lemma pumpTurn_keeps_chunks ph sts st c pump :
  heapInv ph st c pump ->
  (forall e, ph <> Failed e) ->
  (ph = Done -> held pump = []) ->
  exists c' pump',
    pumpTurn (sessionHeap sts st c pump) = (Normal (), sessionHeap sts st c' pump') /\
    delivered c' ++ queue c' = (delivered c ++ queue c) ++ held pump /\
    held pump' = [] /\
    readableState c' = readableState c.
Proof.
  intros Hinv Hnf Hdone.
  destruct pump as [| |r].
  - exists c, idle. rewrite pumpTurn_not_holding by done. by rewrite app_nil_r.
  - exists c, reading. rewrite pumpTurn_not_holding by done. by rewrite app_nil_r.
  - destruct r as [v| |e|].
    + destruct ph as [r'|next| |e]; [| |by specialize (Hdone eq_refl)|by destruct (Hnf e)].
      * destruct Hinv as (Hc & _). exists (enqueueChunk v c), reading.
        rewrite pumpTurn_value by done. cbn. by rewrite app_assoc.
      * destruct Hinv as (Hc & _). exists (enqueueChunk v c), reading.
        rewrite pumpTurn_value by done. cbn. by rewrite app_assoc.
    + exists c, idle. rewrite pumpTurn_done. by rewrite app_nil_r.
    + destruct ph as [r'|next| |e']; [| | |by destruct (Hnf e')].
      * destruct Hinv as (_ & _ & [H|[v H]]); discriminate H.
      * destruct Hinv as (_ & _ & [H|[v H]]); discriminate H.
      * destruct Hinv as (_ & _ & H). by destruct (H e).
    + exists c, reading. split; [done|]. by rewrite app_nil_r.
Qed.

(** X19. Nothing is lost when the pump keeps up and the session does not
    fail. Along a schedule in which, whenever a completion is reported or
    an awaited call settles, the pump has read all that the current stream
    held and has enqueued what it read, and at whose end the session has
    not failed: the output, read or still to read, together with the chunk
    the pump holds and what the current stream still holds is all that the
    provider produced, the chunks of all segments, in order; and the
    readable side is not errored. *)
Theorem nothing_lost_when_pump_keeps_up convertToCoreMessages MODEL_LIST CONTINUE_PROMPT provider_
    (conversation : Messages) (schedule : list Event) (s0 : Session) :
  chatAction convertToCoreMessages MODEL_LIST provider_ conversation = streamingResponse s0 ->
  pumpKeepsUp convertToCoreMessages MODEL_LIST CONTINUE_PROMPT provider_ s0 schedule ->
  let s := run convertToCoreMessages MODEL_LIST CONTINUE_PROMPT provider_ s0 schedule in
  (forall e, phase s <> Failed e) ->
  output (heap s) ++ held (pumping (heap s)) ++ unread (heap s)
  = concat (chunks <$> segments s) /\
  (forall c e, _controller (heap s) = Some c -> readableState c <> errored e).
Proof.
  set (L := fun s : Session =>
              output (heap s) ++ held (pumping (heap s)) ++ unread (heap s)
              = concat (chunks <$> segments s) /\
              (phase s = Done -> held (pumping (heap s)) = []) /\
              (forall c e, _controller (heap s) = Some c -> readableState c <> errored e)).
  assert (Hstep : forall s ev, SessionInv provider_ s -> L s ->
            (forall e, phase s <> Failed e) ->
            (forall e, phase (step convertToCoreMessages MODEL_LIST CONTINUE_PROMPT provider_ s ev)
                       <> Failed e) ->
            (ev = Finish \/ ev = Resume ->
             unread (heap s) = [] /\ held (pumping (heap s)) = []) ->
            L (step convertToCoreMessages MODEL_LIST CONTINUE_PROMPT provider_ s ev)).
  { intros s ev Hinv (HL & Hd & He) Hnf Hnf' Hup. unfold L in *.
    destruct Hinv as
      [sts st c pump segs r ps p tail Hh Hsegs Hlen Hps Hout Hp Htail Hcap Hfrom Hcount Hheap].
    rewrite Hh, output_sessionHeap, unread_sessionHeap in HL.
    rewrite Hh, unread_sessionHeap in Hup. rewrite Hh in Hd, He. cbn [pumping sessionHeap] in *.
    assert (Hc : forall e, readableState c <> errored e) by (intros e; by apply He).
    clear He.
    destruct ev; cbn [step] in *.
    - cbn [heap segments phase]. rewrite Hh.
      destruct (heapInv_pumpRead (phase s) sts st c pump Hheap)
        as (st' & pump' & -> & Hheap' & Hsame & Hst').
      cbn [snd]. rewrite output_sessionHeap, unread_sessionHeap. cbn [pumping sessionHeap].
      split; [by rewrite Hsame|]. split; [|by intros c0 e [= <-]].
      intros Hph. specialize (Hd Hph). rewrite Hph in Hheap, Hheap'.
      destruct Hheap as (_ & -> & _). destruct Hheap' as (_ & -> & _).
      rewrite Hd in Hsame. cbn in Hsame. by destruct (held pump').
    - cbn [heap segments phase]. rewrite Hh.
      destruct (pumpTurn_keeps_chunks (phase s) sts st c pump Hheap Hnf Hd)
        as (c' & pump' & -> & Hc' & Hheld & Hrs).
      cbn [snd]. rewrite output_sessionHeap, unread_sessionHeap. cbn [pumping sessionHeap].
      rewrite Hc', Hheld. split; [by rewrite <- HL, <- !app_assoc|]. split; [done|].
      intros c0 e [= <-]. by rewrite Hrs.
    - cbn [heap segments phase]. rewrite Hh. cbn.
      rewrite consumerRead_output, lookup_current. split; [done|]. split; [done|].
      intros c0 e [= <-]. by apply consumerRead_not_errored.
    - destruct (phase s) as [r'|next| |e'] eqn:Hphase;
        try (rewrite Hh, output_sessionHeap, unread_sessionHeap; cbn [pumping sessionHeap];
             split; [done|]; split; [by rewrite Hphase|]; by intros c0 e [= <-]).
      destruct (Hup (or_introl eq_refl)) as [Hq Hheld].
      destruct Hheap as (Hopen & Hst & Hon).
      unfold onFinish in *. destruct (negb _).
      + rewrite Hh, close_sessionHeap in *. cbn [heap segments phase] in *.
        rewrite output_sessionHeap, unread_sessionHeap, terminateController_output.
        cbn [pumping sessionHeap]. rewrite Hst. cbn.
        rewrite Hq in HL. split; [done|]. split; [done|].
        intros c0 e [= <-]. unfold terminateController. rewrite Hopen.
        by destruct (queue c).
      + destruct (bool_decide _); [by destruct (Hnf' capError)|].
        cbn [heap segments phase]. rewrite Hh, output_sessionHeap, unread_sessionHeap.
        cbn [pumping sessionHeap]. split; [done|]. split; [done|]. by intros c0 e [= <-].
    - destruct (phase s) as [r'|[r2|e2]| |e'] eqn:Hphase;
        try (rewrite Hh, output_sessionHeap, unread_sessionHeap; cbn [pumping sessionHeap];
             split; [done|]; split; [by rewrite Hphase|]; by intros c0 e [= <-]).
      2: { by destruct (Hnf' e2). }
      destruct (Hup (or_intror eq_refl)) as [Hq Hheld].
      destruct Hheap as (Hopen & Hst & Hon).
      assert (Hpump : pump = reading).
      { destruct Hon as [->|[v ->]]; [done|discriminate Hheld]. }
      subst pump. unfold onFinishResume in *.
      rewrite Hh, Hst, (resume_sessionHeap _ _ _ _ _ Hopen (or_introl eq_refl)) in *.
      cbn [heap segments phase afterTurn] in *.
      rewrite output_sessionHeap, unread_sessionHeap. cbn [pumping sessionHeap held].
      rewrite fmap_app, concat_app. cbn. rewrite app_nil_r.
      rewrite Hq in HL. cbn in HL. rewrite app_nil_r in HL. rewrite HL.
      split; [done|]. split; [done|]. by intros c0 e [= <-]. }
  assert (Hrun : forall schedule s, SessionInv provider_ s -> L s ->
            (forall e, phase s <> Failed e) ->
            pumpKeepsUp convertToCoreMessages MODEL_LIST CONTINUE_PROMPT provider_ s schedule ->
            (forall e, phase (run convertToCoreMessages MODEL_LIST CONTINUE_PROMPT provider_
                                s schedule) <> Failed e) ->
            L (run convertToCoreMessages MODEL_LIST CONTINUE_PROMPT provider_ s schedule)).
  { clear schedule. induction schedule as [|ev schedule IH]; intros s Hinv HL Hnf Hup Hend;
      [done|].
    cbn in Hup. destruct Hup as [Hev Hup]. cbn [run fold_left] in *.
    assert (Hnf' : forall e,
              phase (step convertToCoreMessages MODEL_LIST CONTINUE_PROMPT provider_ s ev)
              <> Failed e).
    { intros e He. apply (Hend e).
      by apply (failed_phase_stays convertToCoreMessages MODEL_LIST CONTINUE_PROMPT provider_). }
    apply IH; [by apply inv_step|by apply Hstep|done|done|done]. }
  intros Hs0 Hup s Hnf.
  assert (HL0 : L s0).
  { unfold chatAction in Hs0.
    destruct (provider_ (streamText convertToCoreMessages MODEL_LIST chatOptions conversation))
      as [r|e]; [|done].
    simplify_eq. unfold L. cbn. rewrite app_nil_r. split; [done|]. split; [done|].
    by intros c0 e [= <-]. }
  assert (Hnf0 : forall e, phase s0 <> Failed e).
  { unfold chatAction in Hs0.
    destruct (provider_ (streamText convertToCoreMessages MODEL_LIST chatOptions conversation))
      as [r|e]; [|done].
    by simplify_eq. }
  destruct (Hrun schedule s0) as (H1 & _ & H2); [by eapply inv_chatAction|done..|].
  by split.
Qed.

Lemma nothing_lost_when_pump_keeps_up_witness :
  let provider_ : Provider := fun call =>
    if decide (length (callMessages call) = 1)
    then responds {| chunks := [js "a"; js "b"]; finishReason := reason_length |}
    else responds {| chunks := [js "c"]; finishReason := reason_stop |} in
  exists s,
    session dropToolTurns staticModels continuePrompt provider_ [userText (js "Hello")]
      [PumpRead; PumpTurn; PumpRead; PumpTurn; Finish; Resume; PumpRead; PumpTurn; Finish]
    = Some s /\
    phase s = Done /\
    output (heap s) ++ held (pumping (heap s)) ++ unread (heap s)
    = [js "a"; js "b"; js "c"].
Proof.
  intros provider_. eexists. split; [reflexivity|]. split; [reflexivity|].
  destruct (nothing_lost_when_pump_keeps_up dropToolTurns staticModels continuePrompt provider_
              [userText (js "Hello")]
              [PumpRead; PumpTurn; PumpRead; PumpTurn; Finish; Resume; PumpRead; PumpTurn; Finish]
              _ eq_refl) as [H _].
  - cbn [pumpKeepsUp].
    repeat (split; [intros [H|H]; first [discriminate H | split; reflexivity]|]).
    exact I.
  - intros e H. vm_compute in H. discriminate H.
  - exact H.
Defined.
